(** * The multi-version tree node of the radix-16 sparse Merkle tree

    A shallow embedding of [tree_node.go] (package [bsmt]) and the
    properties of its packed internal-hash cache and of its version
    ledger.

    Conventions of the embedding.
    - A Go [[]byte] is a [slice]: [None] is the nil slice, [Some l] a
      non-nil slice holding the bytes [l].
    - Go integers are [Z]; the width of a type is written out where the
      code relies on it ([uint8] for the depth, [uint64] for sizes).
    - The fixed arrays [[16]*TreeNode] and [[14]InternalNode] are lists;
      [wf] records their lengths.  Reading or writing outside of a list
      is a Go panic and is [None] in the option monad.
    - A [*TreeNode] is the value it points to at the time of the call;
      [None] is the nil pointer.  Locks only matter through the number of
      per-slot mutexes a node carries. *)

From Stdlib Require Import ZArith List Lia Bool.
From Stdlib.Strings Require Import Byte.
From stdpp Require Import base option list gmap sorting.

Open Scope Z_scope.

(** ** External capabilities *)

Definition slice : Type := option (list byte).

Definition Version : Type := Z.

(** The hash capability: [hasher.Hash(left, right)].  Its code is not part
    of the node; every result below holds for any combiner. *)
Record Hasher : Type := mkHasher { Hasher_Hash : slice -> slice -> slice }.

(** The table of empty-subtree hashes: [nilHashes.Get(depth)].  Taken as a
    parameter: any function of the depth. *)
Record nilHashes : Type := mkNilHashes { nilHashes_Get : Z -> slice }.

Definition uint8 (z : Z) : Z := z mod 256.
Definition uint64 (z : Z) : Z := z mod 2 ^ 64.
(** Go's [int] is 64 bits wide and signed. *)
Definition int (z : Z) : Z := (z + 2 ^ 63) mod 2 ^ 64 - 2 ^ 63.

Definition hashSize : Z := 32.
Definition versionSize : Z := 40.

(** ** Data model *)

Record VersionInfo : Type := mkVersionInfo { Ver : Version; Hash : slice }.

Definition InternalNode : Type := slice.

Inductive RWMutex : Type := mkRWMutex.

#[local] Set Warnings "-register-all".

Inductive TreeNode : Type := mkTreeNode {
  Children : list (option TreeNode);
  Internals : list InternalNode;
  Versions : list VersionInfo;
  nilHash : slice;
  nilChildHash : slice;
  path : Z;
  depth : Z;
  hasher : Hasher;
  temporary : bool;
  internalMu : list RWMutex;
  internalVer : list Version
}.

Definition set_Children (node : TreeNode) (cs : list (option TreeNode)) : TreeNode :=
  mkTreeNode cs (Internals node) (Versions node) (nilHash node)
    (nilChildHash node) (path node) (depth node) (hasher node)
    (temporary node) (internalMu node) (internalVer node).

Definition set_Internals (node : TreeNode) (ins : list InternalNode) : TreeNode :=
  mkTreeNode (Children node) ins (Versions node) (nilHash node)
    (nilChildHash node) (path node) (depth node) (hasher node)
    (temporary node) (internalMu node) (internalVer node).

Definition set_Versions (node : TreeNode) (vs : list VersionInfo) : TreeNode :=
  mkTreeNode (Children node) (Internals node) vs (nilHash node)
    (nilChildHash node) (path node) (depth node) (hasher node)
    (temporary node) (internalMu node) (internalVer node).

Definition set_internalVer (node : TreeNode) (ivs : list Version) : TreeNode :=
  mkTreeNode (Children node) (Internals node) (Versions node) (nilHash node)
    (nilChildHash node) (path node) (depth node) (hasher node)
    (temporary node) (internalMu node) ivs.

(** The array types of the Go struct. *)
Definition wf (node : TreeNode) : Prop :=
  length (Children node) = 16%nat /\ length (Internals node) = 14%nat.

(** The per-slot mutexes and versions [NewTreeNode] allocates. *)
Definition wf_slots (node : TreeNode) : Prop :=
  length (internalMu node) = 14%nat /\ length (internalVer node) = 14%nat.

(** ** Indexing with Go's bounds check *)

Definition index {A : Type} (l : list A) (i : Z) : option A :=
  if 0 <=? i then l !! Z.to_nat i else None.

Definition store {A : Type} (l : list A) (i : Z) (x : A) : option (list A) :=
  if (0 <=? i) && (i <? Z.of_nat (length l))
  then Some (<[Z.to_nat i := x]> l) else None.

(** ** Construction *)

Definition NewTreeNode (depth path : Z) (nh : nilHashes) (hasher : Hasher) : TreeNode :=
  mkTreeNode
    (replicate 16 None)
    (replicate 2 (nilHashes_Get nh (uint8 (depth + 1)))
     ++ replicate 4 (nilHashes_Get nh (uint8 (depth + 2)))
     ++ replicate 8 (nilHashes_Get nh (uint8 (depth + 3))))
    []
    (nilHashes_Get nh depth)
    (nilHashes_Get nh (uint8 (depth + 4)))
    path depth hasher false
    (replicate 14 mkRWMutex)
    (replicate 14 0).

(** ** The version ledger *)

Definition root (node : TreeNode) : slice :=
  match last (Versions node) with
  | None => nilHash node
  | Some v => Hash v
  end.

Definition Root (node : TreeNode) : slice := root node.

Definition newVersion (node : TreeNode) (version : VersionInfo) : TreeNode :=
  match last (Versions node) with
  | Some v =>
      if Ver v =? Ver version
      then set_Versions node
             (<[Nat.pred (length (Versions node)) := version]> (Versions node))
      else set_Versions node (Versions node ++ [version])
  | None => set_Versions node (Versions node ++ [version])
  end.

Definition TreeNode_Set (node : TreeNode) (hash : slice) (version : Version) : TreeNode :=
  newVersion node (mkVersionInfo version hash).

Definition latestVersion (node : TreeNode) : Version :=
  match last (Versions node) with
  | None => 0
  | Some v => Ver v
  end.

Definition latestVersionWithLock (node : TreeNode) : Version := latestVersion node.

Definition PreviousVersion (node : TreeNode) : Version :=
  if (length (Versions node) <=? 1)%nat then 0
  else match Versions node !! (length (Versions node) - 2)%nat with
       | Some v => Ver v
       | None => 0
       end.

(** ** Control flow *)

Definition len {A : Type} (l : list A) : Z := Z.of_nat (length l).

(** [for i := i0; cond i; i = next i { body }] over a state [S].  The
    loops of the node run a fixed number of times; [fuel] bounds them. *)
Fixpoint for_loop {S : Type} (fuel : nat) (cond : Z -> bool) (next : Z -> Z)
    (body : Z -> S -> option S) (i : Z) (s : S) : option S :=
  match fuel with
  | O => None
  | S fuel =>
      if cond i
      then s' ← body i s; for_loop fuel cond next body (next i) s'
      else Some s
  end.

(** [for _, x := range l { body }]. *)
Fixpoint for_range {A S : Type} (body : A -> S -> option S) (l : list A) (s : S)
    : option S :=
  match l with
  | [] => Some s
  | x :: l => s' ← body x s; for_range body l s'
  end.

(** The root of a child pointer, [dflt] when the pointer is nil. *)
Definition rootOr (dflt : slice) (child : option TreeNode) : slice :=
  match child with
  | Some c => Root c
  | None => dflt
  end.

(** ** Sequential update of the packed cache *)

Definition SetChildrenOnly (node : TreeNode) (child : option TreeNode) (nibble : Z)
    (version : Version) : option TreeNode :=
  cs ← store (Children node) nibble child;
  Some (set_Children node cs).

(** The state of the climbing loop of [SetChildren]. *)
Record climb : Type := mkClimb {
  c_nibble : Z; c_prefix : Z; c_left : slice; c_right : slice; c_node : TreeNode
}.

Definition SetChildren_body (i : Z) (s : climb) : option climb :=
  let nibble := Z.quot (c_nibble s) 2 in
  let prefix := c_prefix s in
  let node := c_node s in
  ins ← store (Internals node) (prefix + nibble)
        (Hasher_Hash (hasher node) (c_left s) (c_right s));
  let node := set_Internals node ins in
  lr ← (if Z.rem nibble 2 =? 0 then
          l ← index (Internals node) (prefix + nibble);
          r ← index (Internals node) (Z.lxor (prefix + nibble) 1);
          Some (l, r)
        else if Z.rem nibble 2 =? 1 then
          r ← index (Internals node) (prefix + nibble);
          l ← index (Internals node) (Z.lxor (prefix + nibble) 1);
          Some (l, r)
        else Some (c_left s, c_right s));
  Some (mkClimb nibble (prefix - i) lr.1 lr.2 node).

(** [Hash(node.Internals[0], node.Internals[1])]. *)
Definition topHash (node : TreeNode) : option slice :=
  l ← index (Internals node) 0;
  r ← index (Internals node) 1;
  Some (Hasher_Hash (hasher node) l r).

Definition SetChildren (node : TreeNode) (child : option TreeNode) (nibble : Z)
    (version : Version) : option TreeNode :=
  cs ← store (Children node) nibble child;
  let node := set_Children node cs in
  let nil := nilChildHash node in
  lr ← (if Z.rem nibble 2 =? 0 then
          c ← index (Children node) nibble;
          s ← index (Children node) (Z.lxor nibble 1);
          Some (rootOr nil c, rootOr nil s)
        else if Z.rem nibble 2 =? 1 then
          c ← index (Children node) nibble;
          s ← index (Children node) (Z.lxor nibble 1);
          Some (rootOr nil s, rootOr nil c)
        else Some (nil, nil));
  s ← for_loop 4 (fun i => 1 <=? i) (fun i => Z.shiftr i 1) SetChildren_body 4
        (mkClimb nibble 6 lr.1 lr.2 node);
  h ← topHash (c_node s);
  Some (newVersion (c_node s) (mkVersionInfo version h)).

(** ** Full rebuild of the packed cache *)

Definition ComputeInternalHash (node : TreeNode) : option TreeNode :=
  node ← for_loop 9 (fun i => i <? 15) (fun i => i + 2)
           (fun i node =>
              l ← index (Children node) i;
              r ← index (Children node) (i + 1);
              ins ← store (Internals node) (6 + Z.quot i 2)
                    (Hasher_Hash (hasher node)
                       (rootOr (nilChildHash node) l)
                       (rootOr (nilChildHash node) r));
              Some (set_Internals node ins))
           0 node;
  for_loop 7 (fun i => 1 <? i) (fun i => i - 2)
    (fun i node =>
       l ← index (Internals node) (i - 1);
       r ← index (Internals node) i;
       ins ← store (Internals node) (Z.quot i 2 - 1)
             (Hasher_Hash (hasher node) l r);
       Some (set_Internals node ins))
    13 node.

(** ** Invalidation *)

Definition leafInternalMap (nibble : Z) : list Z :=
  match nibble with
  | 0 | 1 => [0; 2; 6]
  | 2 | 3 => [0; 2; 7]
  | 4 | 5 => [0; 3; 8]
  | 6 | 7 => [0; 3; 9]
  | 8 | 9 => [1; 4; 10]
  | 10 | 11 => [1; 4; 11]
  | 12 | 13 => [1; 5; 12]
  | 14 | 15 => [1; 5; 13]
  | _ => []
  end.

Definition mark (node : TreeNode) (nibble : Z) : option TreeNode :=
  for_range (fun i node =>
               ins ← store (Internals node) i None;
               Some (set_Internals node ins))
    (leafInternalMap nibble) node.

(** ** Pruning and rollback of the ledger *)

Fixpoint Prune_loop (fuel : nat) (vs : list VersionInfo) (oldestVersion : Version)
    (i : Z) : option Z :=
  match fuel with
  | O => None
  | S fuel =>
      if i <? len vs - 1 then
        v ← index vs i;
        if Ver v >=? oldestVersion then Some i
        else Prune_loop fuel vs oldestVersion (i + 1)
      else Some i
  end.

Definition Prune (node : TreeNode) (oldestVersion : Version) : option (TreeNode * Z) :=
  if len (Versions node) <=? 1 then Some (node, 0)
  else
    i ← Prune_loop (S (length (Versions node))) (Versions node) oldestVersion 0;
    let originSize := int (len (Versions node) * versionSize) in
    b ← (if 0 <? i
         then v ← index (Versions node) i; Some (Ver v >? oldestVersion)
         else Some false);
    if (b : bool) then
      let node' := set_Versions node (drop (Z.to_nat (i - 1)) (Versions node)) in
      Some (node', uint64 (int (originSize - int (len (Versions node') * versionSize))))
    else
      let node' := set_Versions node (drop (Z.to_nat i) (Versions node)) in
      Some (node', uint64 (int (originSize - int (len (Versions node') * versionSize)))).

Fixpoint Rollback_loop (fuel : nat) (vs : list VersionInfo) (targetVersion : Version)
    (i : Z) (next : bool) : option (Z * bool) :=
  match fuel with
  | O => None
  | S fuel =>
      if 0 <=? i then
        v ← index vs i;
        if Ver v <=? targetVersion then Some (i, next)
        else Rollback_loop fuel vs targetVersion (i - 1) true
      else Some (i, next)
  end.

Definition Rollback (node : TreeNode) (targetVersion : Version)
    : option (TreeNode * (bool * Z)) :=
  if len (Versions node) =? 0 then Some (node, (false, 0))
  else
    let originSize := int (len (Versions node) * versionSize) in
    r ← Rollback_loop (S (length (Versions node))) (Versions node) targetVersion
          (len (Versions node) - 1) false;
    let node' := set_Versions node (take (Z.to_nat (r.1 + 1)) (Versions node)) in
    Some (node', (r.2, uint64 (int (originSize - int (len (Versions node') * versionSize))))).

(** ** Archival *)

Definition archive (node : TreeNode) : TreeNode :=
  mkTreeNode (replicate (length (Children node)) None)
    (replicate (length (Internals node)) None)
    (Versions node) (nilHash node) (nilChildHash node) (path node)
    (depth node) (hasher node) true (internalMu node) (internalVer node).

Definition Size (node : TreeNode) : Z :=
  if temporary node then uint64 (int (len (Versions node) * versionSize))
  else uint64 (int (int (len (Versions node) * versionSize)
                    + int (hashSize * len (Internals node)))).

Definition IsTemporary (node : TreeNode) : bool := temporary node.

(** ** The persisted projection *)

Record StorageLeafNode : Type := mkStorageLeafNode {
  LeafVersions : list VersionInfo
}.

Record StorageTreeNode : Type := mkStorageTreeNode {
  StorageChildren : list (option StorageLeafNode);
  StorageInternals : list InternalNode;
  StorageVersions : list VersionInfo;
  StoragePath : Z
}.

(** The body of the loop of [ToStorageTreeNode], over the local array
    [children]. *)
Definition ToStorageTreeNode_body (node : TreeNode) (i : Z)
    (children : list (option StorageLeafNode)) : option (list (option StorageLeafNode)) :=
  c ← index (Children node) i;
  match c with
  | Some c => store children i (Some (mkStorageLeafNode (Versions c)))
  | None => Some children
  end.

Definition ToStorageTreeNode (node : TreeNode) : option StorageTreeNode :=
  children ← for_loop 17 (fun i => i <? 16) (fun i => i + 1)
               (ToStorageTreeNode_body node) 0 (replicate 16 None);
  Some (mkStorageTreeNode children (Internals node) (Versions node) (path node)).

(** The child [ToTreeNode] builds from a persisted ledger. *)
Definition temporaryChild (versions : list VersionInfo) (depth : Z)
    (nh : nilHashes) (hasher : Hasher) : TreeNode :=
  mkTreeNode (replicate 16 None) (replicate 14 None) versions
    (nilHashes_Get nh (uint8 (depth + 4)))
    (nilHashes_Get nh (uint8 (depth + 8)))
    0 0 hasher true [] [].

Definition ToTreeNode_body (node : StorageTreeNode) (depth : Z) (nh : nilHashes)
    (hasher : Hasher) (i : Z) (treeNode : TreeNode) : option TreeNode :=
  c ← index (StorageChildren node) i;
  match c with
  | Some c =>
      if 0 <? len (LeafVersions c) then
        cs ← store (Children treeNode) i
              (Some (temporaryChild (LeafVersions c) depth nh hasher));
        Some (set_Children treeNode cs)
      else Some treeNode
  | None => Some treeNode
  end.

Definition ToTreeNode (node : StorageTreeNode) (depth : Z) (nh : nilHashes)
    (hasher : Hasher) : option TreeNode :=
  let treeNode :=
    mkTreeNode (replicate 16 None) (StorageInternals node) (StorageVersions node)
      (nilHashes_Get nh depth) (nilHashes_Get nh (uint8 (depth + 4)))
      (StoragePath node) depth hasher false [] [] in
  for_loop 17 (fun i => i <? 16) (fun i => i + 1)
    (ToTreeNode_body node depth nh hasher) 0 treeNode.

(** ** Batch recomputation of dirty slots *)

Definition childrenHash (node : TreeNode) (nibble : Z) : option (slice * slice) :=
  if 6 <=? nibble then
    let nibble := uint64 (Z.shiftl nibble 1) in
    let nibble := uint64 (nibble + 2 - 14) in
    l ← index (Children node) nibble;
    r ← index (Children node) (Z.lxor nibble 1);
    Some (rootOr (nilChildHash node) l, rootOr (nilChildHash node) r)
  else
    let nibble := uint64 (Z.shiftl nibble 1 + 2) in
    l ← index (Internals node) nibble;
    r ← index (Internals node) (Z.lxor nibble 1);
    Some (l, r).

(** The descending order [sort.Slice] puts the dirty slots in. *)
Definition descending (a b : Z) : Prop := b <= a.

#[local] Instance descending_dec (a b : Z) : Decision (descending a b) :=
  Z_le_dec b a.

(** One submitted task: the slot [n], when it belongs to the level that
    starts at [prefix], is recomputed from the two hashes below it. *)
Definition computeInternal_task (prefix : Z) (n : Z) (node : TreeNode)
    : option TreeNode :=
  if (prefix <=? int n) && (int n <=? Z.shiftl prefix 1 + 1) then
    lr ← childrenHash node n;
    ins ← store (Internals node) n (Hasher_Hash (hasher node) lr.1 lr.2);
    Some (set_Internals node ins)
  else Some node.

(** [nibbles] is the Go map used as a set; [None] is the nil map.  The
    tasks of one level write distinct slots of that level and read only
    children or slots of the level below, so the pool's schedule does not
    show: they run here in the order of [nbArray]. *)
Definition computeInternal (node : TreeNode) (nibbles : option (gset Z))
    : option TreeNode :=
  match nibbles with
  | None => Some node
  | Some nibbles =>
      let nbArray := merge_sort descending (elements nibbles) in
      s ← for_loop 4 (fun i => 1 <=? i) (fun i => Z.shiftr i 1)
            (fun i (s : Z * TreeNode) =>
               let prefix := s.1 in
               node ← for_range (computeInternal_task prefix) nbArray s.2;
               Some (prefix - i, node))
            4 (6, node);
      let node := s.2 in
      h ← topHash node;
      Some (newVersion node (mkVersionInfo (latestVersion node) h))
  end.

(** ** Cooperative recomputation *)

Record journalKey : Type := mkJournalKey { key_depth : Z; key_path : Z }.

(** The journal of in-flight nodes, through its lookup: [journals.get]
    answers with the tracked node or with "not found". *)
Record journal : Type := mkJournal { journal_get : journalKey -> option TreeNode }.

Definition setInternal (node : TreeNode) (idx : Z) (left right : slice)
    (version : Version) : option (TreeNode * (slice * bool)) :=
  _ ← index (internalMu node) idx;
  cur ← index (Internals node) idx;
  match cur with
  | Some _ => Some (node, (cur, true))
  | None =>
      let hash := Hasher_Hash (hasher node) left right in
      ins ← store (Internals node) idx hash;
      let node := set_Internals node ins in
      ivs ← store (internalVer node) idx version;
      Some (set_internalVer node ivs, (hash, false))
  end.

Definition getInternal (node : TreeNode) (idx : Z) (version : Version)
    : option slice :=
  _ ← index (internalMu node) idx;
  index (Internals node) idx.

Definition getChild (node : TreeNode) (nibble : Z) : option (option TreeNode) :=
  index (Children node) nibble.

(** The climbing loop of [recompute]: [Some (node, true)] when the three
    slots were written, [Some (node, false)] at an early [return false]. *)
Fixpoint recompute_loop (fuel : nat) (i nibble prefix : Z) (left right : slice)
    (version : Version) (node : TreeNode) : option (TreeNode * bool) :=
  match fuel with
  | O => None
  | S fuel =>
      if 1 <=? i then
        let nibble := Z.quot nibble 2 in
        r ← setInternal node (prefix + nibble) left right version;
        let node := r.1 in
        let hash := r.2.1 in
        if (r.2.2 : bool) then Some (node, false)
        else if Z.rem nibble 2 =? 0 then
          let siblingNibble := Z.lxor (prefix + nibble) 1 in
          siblingHash ← getInternal node siblingNibble version;
          match siblingHash with
          | None => Some (node, false)
          | Some _ =>
              recompute_loop fuel (Z.shiftr i 1) nibble (prefix - i)
                hash siblingHash version node
          end
        else if Z.rem nibble 2 =? 1 then
          let siblingNibble := Z.lxor (prefix + nibble) 1 in
          siblingHash ← getInternal node siblingNibble version;
          match siblingHash with
          | None => Some (node, false)
          | Some _ =>
              recompute_loop fuel (Z.shiftr i 1) nibble (prefix - i)
                siblingHash hash version node
          end
        else
          recompute_loop fuel (Z.shiftr i 1) nibble (prefix - i)
            left right version node
      else Some (node, true)
  end.

(** The reading of the two leaf hashes: [None] when a tracked sibling has
    not reached [version] yet. *)
Definition recompute_leaves (node child : TreeNode) (journals : journal)
    (version : Version) (nibble : Z) : option (slice * slice) :=
  let nil := nilChildHash node in
  if Z.rem nibble 2 =? 0 then
    match journal_get journals (mkJournalKey (depth child) (Z.lxor (path child) 1)) with
    | Some sibling =>
        if latestVersionWithLock sibling <? version then None
        else Some (root child, root sibling)
    | None => Some (root child, nil)
    end
  else if Z.rem nibble 2 =? 1 then
    match journal_get journals (mkJournalKey (depth child) (Z.lxor (path child) 1)) with
    | Some sibling =>
        if latestVersionWithLock sibling <? version then None
        else Some (root sibling, root child)
    | None => Some (nil, root child)
    end
  else Some (nil, nil).

Definition recompute (node child : TreeNode) (journals : journal)
    (version : Version) : option (TreeNode * bool) :=
  let nibble := int (Z.land (path child) 15) in
  match recompute_leaves node child journals version nibble with
  | None => Some (node, false)
  | Some lr =>
      r ← recompute_loop 4 4 nibble 6 lr.1 lr.2 version node;
      if (r.2 : bool) then
        h ← topHash r.1;
        Some (newVersion r.1 (mkVersionInfo version h), true)
      else Some (r.1, false)
  end.

(** ** Instances used to run the model *)

Definition bytesOf (s : slice) : list byte :=
  match s with
  | Some l => l
  | None => []
  end.

(** A combiner that concatenates its inputs. *)
Definition concatHasher : Hasher :=
  mkHasher (fun l r => Some (bytesOf l ++ bytesOf r)).

(** The table folded from [concatHasher] over a one-byte hash at depth 4:
    the entry of a depth is the combination of two entries of the next. *)
Definition foldedNilHashes : nilHashes :=
  mkNilHashes (fun d => Some (replicate (Z.to_nat (2 ^ (4 - d))) x00)).

Definition emptyJournal : journal := mkJournal (fun _ => None).

(** A node at depth 0 and a leaf below it whose ledger is [(v, [b])]. *)
Definition node0 : TreeNode := NewTreeNode 0 0 foldedNilHashes concatHasher.

Definition leafAt (p : Z) (b : byte) (v : Version) : TreeNode :=
  TreeNode_Set (NewTreeNode 4 p foldedNilHashes concatHasher) (Some [b]) v.

(** [node0] after [mark] has invalidated the slots above nibble 3. *)
Definition marked3 : TreeNode :=
  set_Internals node0
    (<[7%nat := None]> (<[2%nat := None]> (<[0%nat := None]> (Internals node0)))).

(** [node0] carrying a ledger with the given versions. *)
Definition withLedger (l : list Version) : TreeNode :=
  set_Versions node0 (map (fun v => mkVersionInfo v (Some [x2a])) l).

(** ** Vocabulary of the statements *)

(** The binary level a slot of the packed cache belongs to, counted from
    the node's own depth. *)
Definition slotLevel (idx : Z) : Z :=
  if idx <? 2 then 1 else if idx <? 6 then 2 else 3.

(** The ledger invariant: versions strictly ascending, hence unique. *)
Definition ledger_sorted (vs : list VersionInfo) : Prop :=
  StronglySorted Z.lt (map Ver vs).

(** The byte size of a ledger is a Go [int]. *)
Definition ledger_fits (vs : list VersionInfo) : Prop :=
  len vs * versionSize < 2 ^ 63.

(** The entries left when every entry strictly older than the newest
    entry "at the horizon" is dropped; [at_horizon v oldestVersion] tells
    which versions count as at the horizon. *)
Definition Prune_keeps (at_horizon : Version -> Version -> bool)
    (vs : list VersionInfo) (oldestVersion : Version) : list VersionInfo :=
  match last (List.filter (fun e => at_horizon (Ver e) oldestVersion) vs) with
  | None => vs
  | Some n => List.filter (fun e => negb (Ver e <? Ver n)) vs
  end.

(** [Prune] returns and leaves exactly [Prune_keeps] in the ledger. *)
Definition Prune_leaves (at_horizon : Version -> Version -> bool)
    (node : TreeNode) (oldestVersion : Version) : Prop :=
  exists node' freed,
    Prune node oldestVersion = Some (node', freed)
    /\ Versions node' = Prune_keeps at_horizon (Versions node) oldestVersion.

(** [SetChildren] up to the minting of the new version: the child is
    attached and the three slots above its nibble are recomputed. *)
Definition SetChildren_climb (node : TreeNode) (child : option TreeNode)
    (nibble : Z) : option TreeNode :=
  cs ← store (Children node) nibble child;
  let node := set_Children node cs in
  let nil := nilChildHash node in
  lr ← (if Z.rem nibble 2 =? 0 then
          c ← index (Children node) nibble;
          s ← index (Children node) (Z.lxor nibble 1);
          Some (rootOr nil c, rootOr nil s)
        else if Z.rem nibble 2 =? 1 then
          c ← index (Children node) nibble;
          s ← index (Children node) (Z.lxor nibble 1);
          Some (rootOr nil s, rootOr nil c)
        else Some (nil, nil));
  s ← for_loop 4 (fun i => 1 <=? i) (fun i => Z.shiftr i 1) SetChildren_body 4
        (mkClimb nibble 6 lr.1 lr.2 node);
  Some (c_node s).

(** The 14 slots agree with a full rebuild from the node's 16 children. *)
Definition internals_match_children (node : TreeNode) : Prop :=
  (rebuilt ← ComputeInternalHash node; Some (Internals rebuilt))
  = Some (Internals node).

(** The hash of the latest ledger entry is
    [Hash(Internals[0], Internals[1])]. *)
Definition latest_is_topHash (node : TreeNode) : Prop :=
  exists v, last (Versions node) = Some v /\ topHash node = Some (Hash v).


Definition slot_is_set (node : TreeNode) (idx : Z) : bool :=
  match index (Internals node) idx with
  | Some (Some _) => true
  | _ => false
  end.

(** The sibling of [child] the journal tracks, if any, and whether it has
    reached [version]. *)
Definition tracked_sibling (journals : journal) (child : TreeNode) : option TreeNode :=
  journal_get journals (mkJournalKey (depth child) (Z.lxor (path child) 1)).

Definition sibling_ready (journals : journal) (child : TreeNode) (version : Version)
    : bool :=
  match tracked_sibling journals child with
  | Some sibling => negb (latestVersion sibling <? version)
  | None => true
  end.

(** The two hashes [recompute] combines at the leaf level. *)
Definition leaf_pair (node child : TreeNode) (journals : journal) (nibble : Z)
    : slice * slice :=
  let other := match tracked_sibling journals child with
               | Some sibling => root sibling
               | None => nilChildHash node
               end in
  if Z.even nibble then (root child, other) else (other, root child).





(** What [ToStorageTreeNode] stores for a child pointer, and what
    [ToTreeNode] makes of a stored child: one step of each loop. *)
Definition persistedLeaf (c : option TreeNode) : option StorageLeafNode :=
  match c with
  | Some c => Some (mkStorageLeafNode (Versions c))
  | None => None
  end.

Definition restoredChild (depth : Z) (nh : nilHashes) (hasher : Hasher)
    (c : option StorageLeafNode) : option TreeNode :=
  match c with
  | Some c =>
      if 0 <? len (LeafVersions c)
      then Some (temporaryChild (LeafVersions c) depth nh hasher)
      else None
  | None => None
  end.

(** [node0] with a child at nibble 3 that has not been written yet. *)
Definition node0_fresh_child : TreeNode :=
  set_Children node0
    (<[3%nat := Some (NewTreeNode 4 3 foldedNilHashes concatHasher)]> (Children node0)).

(** The round trip gives back every non-nil child as a temporary node
    with the child's ledger. *)
Definition round_trip_keeps_children (node : TreeNode) (nh : nilHashes)
    (hasher : Hasher) : Prop :=
  exists st back,
    ToStorageTreeNode node = Some st
    /\ ToTreeNode st (depth node) nh hasher = Some back
    /\ forall i c, index (Children node) i = Some (Some c) ->
         exists c', index (Children back) i = Some (Some c')
           /\ temporary c' = true /\ Versions c' = Versions c.

(** ** Further operations of the node *)

(** [newVersionWithLock]: the entry is appended only when it is strictly
    newer than the latest one.  The trace it prints is not modelled. *)
Definition newVersionWithLock (node : TreeNode) (version : VersionInfo) : TreeNode :=
  if (len (Versions node) =? 0) || (latestVersion node <? Ver version)
  then set_Versions node (Versions node ++ [version])
  else node.

(** [Copy]: a new struct with the same fields and a fresh whole-node lock. *)
Definition Copy (node : TreeNode) : TreeNode :=
  mkTreeNode (Children node) (Internals node) (Versions node) (nilHash node)
    (nilChildHash node) (path node) (depth node) (hasher node)
    (temporary node) (internalMu node) (internalVer node).

(** [Release]: the size of the node, plus, for each non-nil child in turn,
    the size of the child once archived when its latest version is older
    than [oldestVersion], and what [Release] returns on the child
    otherwise.  [size] is a [uint64].  Each child is owned by one slot
    only, so that archiving it shows in no other place.
    [Release_children] is the loop over the children, with the recursive
    call as [rel]. *)
Definition Release_children (rel : TreeNode -> TreeNode * Z) (oldestVersion : Version)
    : list (option TreeNode) -> Z -> list (option TreeNode) * Z :=
  fix children (cs : list (option TreeNode)) (size : Z) {struct cs}
      : list (option TreeNode) * Z :=
    match cs with
    | [] => ([], size)
    | None :: cs =>
        let r := children cs size in (None :: r.1, r.2)
    | Some c :: cs =>
        let r1 : TreeNode * Z :=
          if (0 <? len (Versions c)) && (latestVersion c <? oldestVersion)
          then (archive c, uint64 (size + Size (archive c)))
          else let r := rel c in (r.1, uint64 (size + r.2)) in
        let r := children cs r1.2 in (Some r1.1 :: r.1, r.2)
    end.

Fixpoint Release (node : TreeNode) (oldestVersion : Version) {struct node}
    : TreeNode * Z :=
  match node with
  | mkTreeNode cs ins vs nh nch p d hs t mus ivs =>
      let r := Release_children (fun c => Release c oldestVersion) oldestVersion
                 cs (Size node) in
      (mkTreeNode r.1 ins vs nh nch p d hs t mus ivs, r.2)
  end.

(** The byte size of a node is a Go [int]. *)
Definition size_fits (node : TreeNode) : Prop :=
  len (Versions node) * versionSize + hashSize * len (Internals node) < 2 ^ 63.

(** The 14 slots of the packed cache, as a set of dirty slots. *)
Definition allSlots : gset Z :=
  {[ 0; 1; 2; 3; 4; 5; 6; 7; 8; 9; 10; 11; 12; 13 ]}.

(** What a step leaves alone: children, ledger and every slot outside of
    a set of indices. *)
Definition frame (written : Z -> Prop) (node node' : TreeNode) : Prop :=
  Children node' = Children node /\ Versions node' = Versions node
  /\ forall j, ~ written j -> index (Internals node') j = index (Internals node) j.


(** ** Sizes of a tree of nodes *)

(** A child [Release] archives: it has a ledger and its latest version
    is older than [oldestVersion]. *)
Definition cold (oldestVersion : Version) (c : TreeNode) : bool :=
  (0 <? len (Versions c)) && (latestVersion c <? oldestVersion).

(** What [Release] leaves of a child. *)
Definition released (oldestVersion : Version) (c : TreeNode) : TreeNode :=
  if cold oldestVersion c then archive c else (Release c oldestVersion).1.

Definition sum_children (f : TreeNode -> Z) : list (option TreeNode) -> Z :=
  fix sum (cs : list (option TreeNode)) : Z :=
    match cs with
    | [] => 0
    | None :: cs => sum cs
    | Some c :: cs => f c + sum cs
    end.

(** The sum of [Size] over a node and all the nodes below it. *)
Fixpoint treeSize (node : TreeNode) : Z :=
  match node with
  | mkTreeNode cs _ _ _ _ _ _ _ _ _ _ => Size node + sum_children treeSize cs
  end.

(** [node0] with the leaf of ledger [(1, [07])] attached at nibble 3. *)
Definition node0_with_leaf : TreeNode :=
  set_Children node0 (<[3%nat := Some (leafAt 3 x07 1)]> (Children node0)).

(** * Properties *)

(** ** Arrays of known length *)

Lemma length_14_inv {A : Type} (l : list A) :
  length l = 14%nat ->
  exists a0 a1 a2 a3 a4 a5 a6 a7 a8 a9 a10 a11 a12 a13,
    l = [a0; a1; a2; a3; a4; a5; a6; a7; a8; a9; a10; a11; a12; a13].
Proof.
  intros H.
  do 14 (destruct l as [|? l]; [discriminate H|]).
  destruct l; [|discriminate H]. eauto 20.
Qed.

Lemma length_16_inv {A : Type} (l : list A) :
  length l = 16%nat ->
  exists a0 a1 a2 a3 a4 a5 a6 a7 a8 a9 a10 a11 a12 a13 a14 a15,
    l = [a0; a1; a2; a3; a4; a5; a6; a7; a8; a9; a10; a11; a12; a13; a14; a15].
Proof.
  intros H.
  do 16 (destruct l as [|? l]; [discriminate H|]).
  destruct l; [|discriminate H]. eauto 20.
Qed.

Lemma below_14_cases (i : Z) :
  0 <= i < 14 -> i ∈ [0; 1; 2; 3; 4; 5; 6; 7; 8; 9; 10; 11; 12; 13].
Proof.
  intros H. rewrite !elem_of_cons. lia.
Qed.

Lemma below_16_cases (i : Z) :
  0 <= i < 16 ->
  i ∈ [0; 1; 2; 3; 4; 5; 6; 7; 8; 9; 10; 11; 12; 13; 14; 15].
Proof.
  intros H. rewrite !elem_of_cons. lia.
Qed.

(** Case analysis on an index known to lie in an explicit list. *)
Ltac each_of H :=
  repeat (apply elem_of_cons in H as [-> | H]); [.. | by apply elem_of_nil in H].

(** Replace a well-formed node by its fields, with both arrays spelled out. *)
Ltac explode node Hwf :=
  let cs := fresh "cs" in
  let ins := fresh "ins" in
  destruct node as [cs ins ? ? ? ? ? [?] ? ? ?];
  destruct Hwf as [Hcs Hins]; cbn [Children Internals] in Hcs, Hins;
  apply length_16_inv in Hcs
    as (?&?&?&?&?&?&?&?&?&?&?&?&?&?&?&?&->);
  apply length_14_inv in Hins
    as (?&?&?&?&?&?&?&?&?&?&?&?&?&?&->).

(** ** The ledger *)

Lemma newVersion_last (node : TreeNode) (version : VersionInfo) :
  last (Versions (newVersion node version)) = Some version.
Proof.
  unfold newVersion.
  destruct (last (Versions node)) as [v|] eqn:E.
  - destruct (Ver v =? Ver version); cbn.
    + destruct (Versions node) as [|e vs] using rev_ind; [discriminate E|].
      rewrite length_app, Nat.add_comm. cbn.
      replace (length vs) with (length vs + 0)%nat by lia.
      rewrite insert_app_r. cbn. apply last_snoc.
    + apply last_snoc.
  - cbn. apply last_snoc.
Qed.

Lemma newVersion_fields (node : TreeNode) (version : VersionInfo) :
  Children (newVersion node version) = Children node
  /\ Internals (newVersion node version) = Internals node
  /\ hasher (newVersion node version) = hasher node
  /\ nilHash (newVersion node version) = nilHash node
  /\ nilChildHash (newVersion node version) = nilChildHash node.
Proof.
  unfold newVersion.
  destruct (last (Versions node)) as [v|]; [destruct (Ver v =? Ver version)|];
    repeat split.
Qed.

Lemma newVersion_Versions_eq (n node : TreeNode) (version : VersionInfo) :
  Versions n = Versions node ->
  Versions (newVersion n version) = Versions (newVersion node version).
Proof.
  intros E. unfold newVersion. rewrite E.
  destruct (last (Versions node)) as [v|]; [destruct (Ver v =? Ver version)|];
    cbn; rewrite ?E; reflexivity.
Qed.

Lemma topHash_newVersion (node : TreeNode) (version : VersionInfo) :
  topHash (newVersion node version) = topHash node.
Proof.
  unfold topHash.
  destruct (newVersion_fields node version) as (_ & -> & -> & _). reflexivity.
Qed.

Lemma wf_newVersion (node : TreeNode) (version : VersionInfo) :
  wf node -> wf (newVersion node version).
Proof.
  unfold wf. destruct (newVersion_fields node version) as (-> & -> & _). tauto.
Qed.

(** ** C9: the root of a node *)

(** [Rollback] touches the ledger only: the cached empty-subtree hash
    stays. *)
Lemma Rollback_nilHash (node : TreeNode) (targetVersion : Version)
    (r : TreeNode * (bool * Z)) :
  Rollback node targetVersion = Some r -> nilHash r.1 = nilHash node.
Proof.
  unfold Rollback. destruct (len (Versions node) =? 0); [by intros [= <-]|].
  destruct (Rollback_loop _ _ _ _ _) as [l|]; [|discriminate].
  cbn [mbind option_bind]. by intros [= <-].
Qed.

(** C9. [Root] answers with the node's cached field [nilHash] when the
    ledger is empty, and with the hash of the latest entry otherwise.
    [NewTreeNode] caches [nilHashes.Get(depth)] on an empty ledger, and
    [Set] and [Rollback] keep the field: a node built by [NewTreeNode]
    has the root [nilHashes.Get(depth)] while its ledger is empty, also
    when [Rollback] has emptied it again.  So a fresh node at depth 0,
    all of whose children are absent, has the root [nilHashes.Get(0)]. *)
Theorem Root_latest_or_nilHash (nh : nilHashes) (hs : Hasher) (d p : Z)
    (node : TreeNode) :
  (Versions node = [] -> Root node = nilHash node)
  /\ (forall vs v, Versions node = vs ++ [v] -> Root node = Hash v)
  /\ nilHash (NewTreeNode d p nh hs) = nilHashes_Get nh d
  /\ depth (NewTreeNode d p nh hs) = d
  /\ Versions (NewTreeNode d p nh hs) = []
  /\ Root (NewTreeNode d p nh hs) = nilHashes_Get nh d
  /\ (forall hash version targetVersion r,
        Rollback (TreeNode_Set (NewTreeNode d p nh hs) hash version) targetVersion
        = Some r ->
        Versions r.1 = [] -> Root r.1 = nilHashes_Get nh d)
  /\ Children (NewTreeNode 0 p nh hs) = replicate 16 None
  /\ Root (NewTreeNode 0 p nh hs) = nilHashes_Get nh 0.
Proof.
  split; [|split].
  - unfold Root, root. by intros ->.
  - unfold Root, root. intros vs v ->. by rewrite last_snoc.
  - repeat split. intros hash version targetVersion r HR Hempty.
    apply Rollback_nilHash in HR. unfold Root, root. rewrite Hempty. cbn [last].
    rewrite HR. unfold TreeNode_Set.
    by destruct (newVersion_fields (NewTreeNode d p nh hs)
                   (mkVersionInfo version hash)) as (_ & _ & _ & -> & _).
Qed.

Lemma Root_latest_or_nilHash_witness :
  Root (leafAt 7 x09 3) = Some [x09]
  /\ Root (NewTreeNode 0 0 foldedNilHashes concatHasher) = Some (replicate 16 x00).
Proof.
  pose proof (Root_latest_or_nilHash foldedNilHashes concatHasher 0 0
                (leafAt 7 x09 3)) as (_ & H & _ & _ & _ & _ & _ & _ & H0).
  split; [exact (H [] (mkVersionInfo 3 (Some [x09])) eq_refl) | exact H0].
Defined.

(** C9 as stated fails on a child built by [ToTreeNode]: the child
    stored under nibble 3 of a node at depth 0 comes back with the field
    [depth] left at 0 and the cached hash of depth 4.  Once [Rollback]
    has emptied its ledger, its root is the entry of the table for
    depth 4, not the entry for the child's [depth]. *)
Lemma restored_child_root_is_not_nilHash_of_depth :
  exists node c r,
    ToTreeNode
      (mkStorageTreeNode
         (replicate 3 None
          ++ [Some (mkStorageLeafNode [mkVersionInfo 1 (Some [x07])])]
          ++ replicate 12 None)
         (replicate 14 None) [] 0)
      0 foldedNilHashes concatHasher = Some node
    /\ index (Children node) 3 = Some (Some c)
    /\ Rollback c 0 = Some r
    /\ Versions r.1 = []
    /\ Root r.1 = nilHashes_Get foldedNilHashes 4
    /\ Root r.1 <> nilHashes_Get foldedNilHashes (depth r.1).
Proof.
  eexists _, _, _. split; [vm_compute; reflexivity|].
  split; [reflexivity|]. split; [vm_compute; reflexivity|].
  split; [reflexivity|]. split; [reflexivity|].
  vm_compute. discriminate.
Qed.

(** ** C10: the slots of a fresh node *)

Ltac map_value :=
  repeat match goal with
         | |- context [leafInternalMap ?k] =>
             let v := eval vm_compute in (leafInternalMap k) in
             change (leafInternalMap k) with v
         | H : context [leafInternalMap ?k] |- _ =>
             let v := eval vm_compute in (leafInternalMap k) in
             change (leafInternalMap k) with v in H
         end.

(** Membership of a number in an explicit list, and its refutation. *)
Ltac is_member :=
  map_value; repeat first [apply list_elem_of_here | apply list_elem_of_further].

Ltac not_member H :=
  exfalso; map_value;
  repeat (apply elem_of_cons in H as [H | H]; [discriminate H|]);
  by apply elem_of_nil in H.

Ltac table_level :=
  repeat match goal with
         | |- context [slotLevel ?k] =>
             let v := eval vm_compute in (slotLevel k) in
             change (slotLevel k) with v
         end.

(** C10. [NewTreeNode] fills slots 0-1 with the table's entry for
    [depth+1], slots 2-5 with the entry for [depth+2] and slots 6-13 with
    the entry for [depth+3], as the table gives them.  On a slot whose
    entry is a hash (not nil), [setInternal] answers "already set" on the
    fresh node and leaves the node as it is; on a slot whose entry is nil
    it computes and stores the hash.  After [mark] has set the three
    slots above a nibble to nil, [setInternal] computes and stores the
    hash on exactly these three slots and still answers "already set" on
    every other slot whose entry is a hash. *)
Theorem NewTreeNode_slots_already_set (nh : nilHashes) (hs : Hasher) (d p : Z) :
  (forall idx, 0 <= idx < 14 ->
     index (Internals (NewTreeNode d p nh hs)) idx
       = Some (nilHashes_Get nh (uint8 (d + slotLevel idx)))
     /\ (forall g, nilHashes_Get nh (uint8 (d + slotLevel idx)) = Some g ->
         forall left right version,
           setInternal (NewTreeNode d p nh hs) idx left right version
           = Some (NewTreeNode d p nh hs, (Some g, true)))
     /\ (nilHashes_Get nh (uint8 (d + slotLevel idx)) = None ->
         forall left right version,
         exists node',
           setInternal (NewTreeNode d p nh hs) idx left right version
           = Some (node', (Hasher_Hash hs left right, false))
           /\ index (Internals node') idx = Some (Hasher_Hash hs left right)))
  /\ (forall nibble, 0 <= nibble < 16 ->
      exists marked, mark (NewTreeNode d p nh hs) nibble = Some marked
        /\ forall idx left right version, 0 <= idx < 14 ->
             (idx ∈ leafInternalMap nibble ->
                exists node',
                  setInternal marked idx left right version
                    = Some (node', (Hasher_Hash hs left right, false))
                  /\ index (Internals node') idx = Some (Hasher_Hash hs left right))
             /\ (idx ∉ leafInternalMap nibble ->
                 forall g, nilHashes_Get nh (uint8 (d + slotLevel idx)) = Some g ->
                   setInternal marked idx left right version
                   = Some (marked, (Some g, true)))).
Proof.
  unfold NewTreeNode. destruct hs as [hash].
  remember (nilHashes_Get nh (uint8 (d + 1))) as g1 eqn:E1.
  remember (nilHashes_Get nh (uint8 (d + 2))) as g2 eqn:E2.
  remember (nilHashes_Get nh (uint8 (d + 3))) as g3 eqn:E3.
  generalize (nilHashes_Get nh d) (nilHashes_Get nh (uint8 (d + 4))).
  intros g0 g4. split.
  - intros idx Hidx. apply below_14_cases in Hidx.
    each_of Hidx; table_level; rewrite <- ?E1, <- ?E2, <- ?E3;
      (split; [reflexivity|]; split;
       [ intros g ->; reflexivity
       | intros ->; intros left right version; eexists; split;
         vm_compute; reflexivity ]).
  - intros nibble Hnib. apply below_16_cases in Hnib.
    each_of Hnib; (eexists; split; [vm_compute; reflexivity|]);
      intros idx left right version Hidx; apply below_14_cases in Hidx;
      each_of Hidx; table_level; rewrite <- ?E1, <- ?E2, <- ?E3;
      (split; intros Hin;
       [ first [ eexists; split; vm_compute; reflexivity | not_member Hin ]
       | first [ intros g ->; vm_compute; reflexivity
               | exfalso; apply Hin; is_member ] ]).
Qed.

Lemma NewTreeNode_slots_already_set_witness :
  index (Internals node0) 7 = Some (Some [x00; x00])
  /\ setInternal node0 7 None None 5 = Some (node0, (Some [x00; x00], true)).
Proof.
  destruct (NewTreeNode_slots_already_set foldedNilHashes concatHasher 0 0)
    as [Hfresh _].
  destruct (Hfresh 7 ltac:(lia)) as (Hidx & Hset & _).
  split; [exact Hidx | exact (Hset [x00; x00] eq_refl None None 5)].
Defined.

(** C10 as stated fails when the table answers nil: the slots of the
    fresh node are then nil, and [setInternal] does not answer "already
    set" but computes and stores the hash, before any [mark]. *)
Lemma NewTreeNode_nil_table_slots_unset :
  index (Internals (NewTreeNode 0 0 (mkNilHashes (fun _ => None)) concatHasher)) 7
  = Some None
  /\ (r ← setInternal (NewTreeNode 0 0 (mkNilHashes (fun _ => None)) concatHasher)
             7 (Some [x01]) (Some [x02]) 5;
      Some (index (Internals r.1) 7, r.2))
     = Some (Some (Some [x01; x02]), (Some [x01; x02], false)).
Proof. split; vm_compute; reflexivity. Qed.

(** ** Integer conversions *)

Lemma int_small (z : Z) : - 2 ^ 63 <= z < 2 ^ 63 -> int z = z.
Proof.
  intros H. unfold int.
  rewrite Z.mod_small by lia. lia.
Qed.

Lemma uint64_small (z : Z) : 0 <= z < 2 ^ 64 -> uint64 z = z.
Proof. intros H. unfold uint64. apply Z.mod_small. lia. Qed.

Lemma len_app {A : Type} (l1 l2 : list A) : len (l1 ++ l2) = len l1 + len l2.
Proof. unfold len. rewrite length_app. lia. Qed.

Lemma len_nonneg {A : Type} (l : list A) : 0 <= len l.
Proof. unfold len. lia. Qed.

(** The bytes freed when [big] shrinks to [small]. *)
Lemma freed_bytes (big small : Z) :
  0 <= small <= big -> big * versionSize < 2 ^ 63 ->
  uint64 (int (int (big * versionSize) - int (small * versionSize)))
  = (big - small) * versionSize.
Proof.
  unfold versionSize. intros H Hfit.
  rewrite (int_small (big * 40)) by lia.
  rewrite (int_small (small * 40)) by lia.
  rewrite int_small by lia.
  rewrite uint64_small by lia. lia.
Qed.

(** ** Reading a ledger by position *)

Lemma index_middle {A : Type} (l1 l2 : list A) (x : A) :
  index (l1 ++ x :: l2) (len l1) = Some x.
Proof.
  unfold index, len.
  destruct (Z.leb_spec 0 (Z.of_nat (length l1))); [|lia].
  rewrite Nat2Z.id. by apply list_lookup_middle.
Qed.

Lemma filter_all {A : Type} (p : A -> bool) (l : list A) :
  Forall (fun e => p e = true) l -> List.filter p l = l.
Proof.
  induction 1 as [|e l He _ IH]; cbn; [reflexivity|].
  rewrite He, IH. reflexivity.
Qed.

Lemma filter_none {A : Type} (p : A -> bool) (l : list A) :
  Forall (fun e => p e = false) l -> List.filter p l = [].
Proof.
  induction 1 as [|e l He _ IH]; cbn; [reflexivity|].
  rewrite He, IH. reflexivity.
Qed.

Lemma ledger_sorted_middle (l1 l2 : list VersionInfo) (n : VersionInfo) :
  ledger_sorted (l1 ++ n :: l2) ->
  Forall (fun e => Ver e < Ver n) l1 /\ Forall (fun e => Ver n < Ver e) l2.
Proof.
  unfold ledger_sorted. induction l1 as [|e l1 IH]; cbn; intros H.
  - split; [constructor|].
    apply StronglySorted_inv in H as [_ H].
    rewrite List.Forall_map in H. exact H.
  - apply StronglySorted_inv in H as [Hs Hall].
    destruct (IH Hs) as [H1 H2]. split; [|exact H2].
    constructor; [|exact H1].
    rewrite map_app, Forall_app in Hall. destruct Hall as [_ Hall].
    by apply Forall_cons in Hall as [Hn _].
Qed.

(** A sorted ledger splits at any version. *)
Lemma ledger_split (below : Version -> bool) (vs : list VersionInfo) :
  (forall a b, a < b -> below b = true -> below a = true) ->
  ledger_sorted vs ->
  exists lo hi, vs = lo ++ hi
    /\ Forall (fun e => below (Ver e) = true) lo
    /\ Forall (fun e => below (Ver e) = false) hi.
Proof.
  intros Hdown. unfold ledger_sorted.
  induction vs as [|e vs IH]; intros H.
  - exists [], []. repeat split; constructor.
  - cbn in H. apply StronglySorted_inv in H as [Hs Hall].
    destruct (below (Ver e)) eqn:E.
    + destruct (IH Hs) as (lo & hi & -> & Hlo & Hhi).
      exists (e :: lo), hi. repeat split; [by constructor | exact Hhi].
    + exists [], (e :: vs). repeat split; [constructor|].
      constructor; [exact E|].
      rewrite List.Forall_map in Hall. eapply Forall_impl; [exact Hall|].
      cbn. intros x Hx. destruct (below (Ver x)) eqn:Ex; [|reflexivity].
      rewrite (Hdown _ _ Hx Ex) in E. discriminate E.
Qed.

(** ** C4: pruning *)

Section Prune.
Variable oldestVersion : Version.

Lemma Prune_loop_skip (pre : list VersionInfo) :
  forall before suf fuel,
    Forall (fun e => Ver e < oldestVersion) pre -> suf <> [] ->
    Prune_loop (length pre + fuel) (before ++ pre ++ suf) oldestVersion (len before)
    = Prune_loop fuel (before ++ pre ++ suf) oldestVersion (len before + len pre).
Proof.
  induction pre as [|e pre IH]; intros before suf fuel Hpre Hsuf.
  - cbn. unfold len at 3. cbn. by rewrite Z.add_0_r.
  - apply Forall_cons in Hpre as [He Hpre].
    cbn [length Nat.add Prune_loop].
    replace (len before <? len (before ++ (e :: pre) ++ suf) - 1) with true.
    2:{ symmetry. apply Z.ltb_lt. rewrite !len_app.
        destruct suf; [done|]. unfold len. cbn [length]. lia. }
    change ((e :: pre) ++ suf) with (e :: pre ++ suf).
    rewrite index_middle. cbn.
    replace (Ver e >=? oldestVersion) with false
      by (symmetry; rewrite Z.geb_leb; apply Z.leb_gt; lia).
    specialize (IH (before ++ [e]) suf fuel Hpre Hsuf).
    rewrite <- app_assoc in IH. cbn [app] in IH.
    replace (len before + 1) with (len (before ++ [e]))
      by (rewrite len_app; reflexivity).
    rewrite IH. f_equal. rewrite len_app. unfold len. cbn [length]. lia.
Qed.

Lemma Prune_loop_stop (before suf : list VersionInfo) (e : VersionInfo) (fuel : nat) :
  oldestVersion <= Ver e \/ suf = [] ->
  Prune_loop (S fuel) (before ++ e :: suf) oldestVersion (len before)
  = Some (len before).
Proof.
  intros H. cbn [Prune_loop].
  destruct (Z.ltb_spec (len before) (len (before ++ e :: suf) - 1)) as [Hlt|Hge];
    [|reflexivity].
  rewrite index_middle. cbn.
  destruct H as [H | ->].
  - replace (Ver e >=? oldestVersion) with true; [reflexivity|].
    symmetry. rewrite Z.geb_leb. by apply Z.leb_le.
  - rewrite len_app in Hlt. unfold len in Hlt. cbn [length] in Hlt. lia.
Qed.

Lemma Prune_loop_result (pre suf : list VersionInfo) (e : VersionInfo) :
  Forall (fun e => Ver e < oldestVersion) pre ->
  oldestVersion <= Ver e \/ suf = [] ->
  Prune_loop (S (length (pre ++ e :: suf))) (pre ++ e :: suf) oldestVersion 0
  = Some (len pre).
Proof.
  intros Hpre He.
  replace (S (length (pre ++ e :: suf)))
    with (length pre + S (S (length suf)))%nat
    by (rewrite length_app; cbn; lia).
  pose proof (Prune_loop_skip pre [] (e :: suf) (S (S (length suf))) Hpre
                ltac:(done)) as H.
  cbn [app] in H. change (len (@nil VersionInfo)) with 0 in H.
  rewrite H, Z.add_0_l. clear H.
  by apply Prune_loop_stop.
Qed.

(** Where the scan of a sorted ledger stops. *)
Lemma Prune_scan (vs : list VersionInfo) :
  ledger_sorted vs -> vs <> [] ->
  exists pre e suf, vs = pre ++ e :: suf
    /\ Forall (fun e => Ver e < oldestVersion) pre
    /\ (oldestVersion <= Ver e \/ suf = [])
    /\ Forall (fun e => oldestVersion < Ver e) suf.
Proof.
  intros Hs Hne.
  destruct (ledger_split (fun v => v <? oldestVersion) vs) as (lo & hi & E & Hlo & Hhi);
    [intros a b Hab Hb; apply Z.ltb_lt in Hb; apply Z.ltb_lt; lia | exact Hs |].
  assert (Forall (fun e => Ver e < oldestVersion) lo) as Hlo'
    by (eapply Forall_impl; [exact Hlo | intros x Hx; by apply Z.ltb_lt in Hx]).
  destruct hi as [|h hi].
  - rewrite app_nil_r in E. subst lo.
    destruct vs as [|n pre _] using rev_ind; [done|].
    exists pre, n, []. repeat split; [| by right | constructor].
    by apply Forall_app in Hlo' as [H _].
  - subst vs. apply Forall_cons in Hhi as [Hh _].
    apply Z.ltb_ge in Hh.
    exists lo, h, hi. repeat split; [exact Hlo' | by left |].
    destruct (ledger_sorted_middle _ _ _ Hs) as [_ H].
    eapply Forall_impl; [exact H|]. cbn. intros x Hx. lia.
Qed.

Lemma Prune_keeps_none (vs : list VersionInfo) :
  Forall (fun e => oldestVersion < Ver e) vs ->
  Prune_keeps Z.leb vs oldestVersion = vs.
Proof.
  intros H. unfold Prune_keeps.
  rewrite filter_none; [reflexivity|].
  eapply Forall_impl; [exact H|]. cbn. intros x Hx. apply Z.leb_gt. lia.
Qed.

Lemma filter_at_horizon (l1 l2 : list VersionInfo) (n : VersionInfo) :
  ledger_sorted (l1 ++ n :: l2) -> Ver n <= oldestVersion ->
  Forall (fun e => oldestVersion < Ver e) l2 ->
  List.filter (fun e => Ver e <=? oldestVersion) (l1 ++ n :: l2) = l1 ++ [n].
Proof.
  intros Hs Hn Hl2.
  destruct (ledger_sorted_middle _ _ _ Hs) as [H1 _].
  rewrite List.filter_app. cbn.
  replace (Ver n <=? oldestVersion) with true by (symmetry; by apply Z.leb_le).
  rewrite filter_all, filter_none; [reflexivity | |].
  - eapply Forall_impl; [exact Hl2|]. cbn. intros x Hx. apply Z.leb_gt. lia.
  - eapply Forall_impl; [exact H1|]. cbn. intros x Hx. apply Z.leb_le. lia.
Qed.

Lemma Prune_keeps_at (l1 l2 : list VersionInfo) (n : VersionInfo) :
  ledger_sorted (l1 ++ n :: l2) -> Ver n <= oldestVersion ->
  Forall (fun e => oldestVersion < Ver e) l2 ->
  Prune_keeps Z.leb (l1 ++ n :: l2) oldestVersion = n :: l2.
Proof.
  intros Hs Hn Hl2. unfold Prune_keeps.
  rewrite filter_at_horizon by done. rewrite last_snoc.
  destruct (ledger_sorted_middle _ _ _ Hs) as [H1 H2].
  rewrite List.filter_app. cbn. rewrite Z.ltb_irrefl. cbn.
  rewrite (filter_none _ l1), (filter_all _ l2); [reflexivity | |].
  - eapply Forall_impl; [exact H2|]. cbn. intros x Hx.
    apply negb_true_iff, Z.ltb_ge. lia.
  - eapply Forall_impl; [exact H1|]. cbn. intros x Hx.
    apply negb_false_iff, Z.ltb_lt. lia.
Qed.
End Prune.

Lemma drop_len_app {A : Type} (l1 l2 : list A) :
  drop (Z.to_nat (len l1)) (l1 ++ l2) = l2.
Proof. unfold len. rewrite Nat2Z.id. apply drop_app_length. Qed.

Lemma take_len_app {A : Type} (l1 l2 : list A) :
  take (Z.to_nat (len l1)) (l1 ++ l2) = l1.
Proof. unfold len. rewrite Nat2Z.id. apply take_app_length. Qed.

(** The shape of a pruned ledger. *)
Lemma Prune_shape (node : TreeNode) (oldestVersion : Version) :
  ledger_sorted (Versions node) -> ledger_fits (Versions node) ->
  (2 <= length (Versions node))%nat ->
  exists removed kept,
    Versions node = removed ++ kept
    /\ Prune node oldestVersion
       = Some (set_Versions node kept, len removed * versionSize)
    /\ ((removed = [] /\ Forall (fun e => oldestVersion < Ver e) kept)
        \/ exists n l2, kept = n :: l2 /\ Ver n <= oldestVersion
             /\ Forall (fun e => oldestVersion < Ver e) l2).
Proof.
  intros Hs Hfit Hlen. unfold ledger_fits in Hfit.
  destruct (Prune_scan oldestVersion (Versions node) Hs) as (pre & e & suf & E & Hpre & He & Hsuf).
  { intros E. rewrite E in Hlen. cbn in Hlen. lia. }
  unfold Prune.
  replace (len (Versions node) <=? 1) with false
    by (symmetry; apply Z.leb_gt; unfold len; lia).
  rewrite E in *. rewrite Prune_loop_result by done. cbn [mbind option_bind].
  destruct pre as [|m pre _] using rev_ind.
  - change (len (@nil VersionInfo)) with 0. cbn [Z.ltb Z.compare mbind option_bind].
    cbn [Z.to_nat drop set_Versions Versions].
    exists [], (e :: suf). split; [reflexivity|]. split.
    + cbn [app] in *. do 2 f_equal.
      change (drop (Z.to_nat 0) (e :: suf)) with (e :: suf).
      pose proof (len_nonneg (e :: suf)).
      rewrite freed_bytes; [change (len (@nil VersionInfo)) with 0; lia | lia | exact Hfit].
    + destruct (Z.le_gt_cases (Ver e) oldestVersion) as [Hle|Hgt].
      * right. by exists e, suf.
      * left. split; [reflexivity|]. constructor; [lia | exact Hsuf].
  - replace (0 <? len (pre ++ [m])) with true
      by (symmetry; apply Z.ltb_lt; rewrite len_app; unfold len; cbn; lia).
    rewrite index_middle. cbn [mbind option_bind].
    apply Forall_app in Hpre as [Hpre Hm]. apply Forall_cons in Hm as [Hm _].
    rewrite Z.gtb_ltb.
    destruct (Z.ltb_spec oldestVersion (Ver e)) as [Hgt|Hle].
    + exists pre, (m :: e :: suf).
      split; [by rewrite <- app_assoc|]. split.
      * replace (len (pre ++ [m]) - 1) with (len pre)
          by (rewrite len_app; unfold len; cbn; lia).
        rewrite <- app_assoc. cbn [app]. rewrite drop_len_app.
        cbn [set_Versions Versions]. do 2 f_equal.
        rewrite <- app_assoc in Hfit. cbn [app] in Hfit.
        rewrite freed_bytes; [rewrite len_app; lia | | exact Hfit].
        rewrite len_app. pose proof (len_nonneg pre).
        pose proof (len_nonneg (m :: e :: suf)). lia.
      * right. exists m, (e :: suf).
        split; [reflexivity|]. split; [lia|]. constructor; [exact Hgt | exact Hsuf].
    + exists (pre ++ [m]), (e :: suf). split; [reflexivity|]. split.
      * rewrite drop_len_app. cbn [set_Versions Versions]. do 2 f_equal.
        rewrite freed_bytes; [rewrite (len_app (pre ++ [m])); lia | | exact Hfit].
        rewrite (len_app (pre ++ [m])). pose proof (len_nonneg (pre ++ [m])).
        pose proof (len_nonneg (e :: suf)). lia.
      * right. by exists e, suf.
Qed.

Lemma Root_set_Versions (node : TreeNode) (vs : list VersionInfo) :
  last vs = last (Versions node) -> Root (set_Versions node vs) = Root node.
Proof. unfold Root, root. cbn. by intros ->. Qed.

(** C4 (as amended). On a ledger sorted strictly ascending that holds at
    least two entries, [Prune] drops exactly the entries strictly older
    than the newest entry whose version is at or before [oldestVersion]:
    it keeps exactly one entry at or before the horizon, when there is
    one, and every later entry.  The latest entry and [Root] stay; the
    result is 40 bytes for each removed entry.  On a ledger of at most one
    entry nothing is removed and the result is 0. *)
Theorem Prune_keeps_newest_at_or_before (node : TreeNode) (oldestVersion : Version) :
  ledger_sorted (Versions node) -> ledger_fits (Versions node) ->
  ((length (Versions node) <= 1)%nat -> Prune node oldestVersion = Some (node, 0))
  /\ ((2 <= length (Versions node))%nat ->
      exists node' freed removed,
        Prune node oldestVersion = Some (node', freed)
        /\ Versions node' = Prune_keeps Z.leb (Versions node) oldestVersion
        /\ Versions node = removed ++ Versions node'
        /\ freed = len removed * versionSize
        /\ List.filter (fun e => Ver e <=? oldestVersion) (Versions node')
           = match last (List.filter (fun e => Ver e <=? oldestVersion) (Versions node)) with
             | Some n => [n]
             | None => []
             end
        /\ List.filter (fun e => oldestVersion <? Ver e) (Versions node')
           = List.filter (fun e => oldestVersion <? Ver e) (Versions node)
        /\ last (Versions node') = last (Versions node)
        /\ Root node' = Root node).
Proof.
  intros Hs Hfit. split.
  - intros Hlen. unfold Prune.
    replace (len (Versions node) <=? 1) with true; [reflexivity|].
    symmetry. apply Z.leb_le. unfold len. lia.
  - intros Hlen.
    destruct (Prune_shape node oldestVersion Hs Hfit Hlen)
      as (removed & kept & E & HP & Hshape).
    exists (set_Versions node kept), (len removed * versionSize), removed.
    rewrite (Root_set_Versions node kept)
      by (rewrite E; destruct Hshape as [[-> _] | (n & l2 & -> & _)];
          [reflexivity | rewrite last_app_cons, !last_cons; by destruct (last l2)]).
    cbn [set_Versions Versions]. rewrite E in Hs |- *.
    assert (Hgt : forall l : list VersionInfo,
              Forall (fun e => oldestVersion < Ver e) l ->
              Forall (fun e => (Ver e <=? oldestVersion) = false) l
              /\ Forall (fun e => (oldestVersion <? Ver e) = true) l).
    { intros l Hl. split; (eapply Forall_impl; [exact Hl|]); cbn; intros x Hx;
        [apply Z.leb_gt | apply Z.ltb_lt]; lia. }
    destruct Hshape as [[-> Hall] | (n & l2 & -> & Hn & Hl2)].
    + cbn [app]. destruct (Hgt _ Hall) as [Hle _].
      rewrite Prune_keeps_none by done. rewrite filter_none by done.
      repeat split; reflexivity || done.
    + destruct (Hgt _ Hl2) as [Hle Hlt].
      destruct (ledger_sorted_middle _ _ _ Hs) as [H1 _].
      rewrite Prune_keeps_at by done.
      rewrite filter_at_horizon, last_snoc by done.
      rewrite List.filter_app. cbn [List.filter].
      replace (Ver n <=? oldestVersion) with true by (symmetry; by apply Z.leb_le).
      replace (oldestVersion <? Ver n) with false by (symmetry; apply Z.ltb_ge; lia).
      rewrite (filter_none _ l2) by done.
      rewrite (filter_none _ removed).
      2:{ eapply Forall_impl; [exact H1|]. cbn. intros x Hx. apply Z.ltb_ge. lia. }
      rewrite (last_app_cons removed), !last_cons.
      repeat split; try reflexivity; try done.
Qed.

Lemma Prune_keeps_newest_at_or_before_witness :
  exists node' freed,
    Prune (withLedger [1; 3; 5]) 4 = Some (node', freed)
    /\ freed = 40
    /\ map Ver (Versions node') = [3; 5].
Proof.
  assert (ledger_sorted (Versions (withLedger [1; 3; 5]))) as Hs
    by (unfold ledger_sorted; cbn; repeat constructor).
  assert (ledger_fits (Versions (withLedger [1; 3; 5]))) as Hfit
    by (vm_compute; reflexivity).
  destruct (Prune_keeps_newest_at_or_before (withLedger [1; 3; 5]) 4 Hs Hfit)
    as [_ H].
  destruct (H ltac:(cbn; lia)) as (node' & freed & removed & HP & HV & E & Hf & _).
  exists node', freed. split; [exact HP|].
  apply (f_equal len) in E. rewrite len_app, HV in E.
  change (len (Versions (withLedger [1; 3; 5]))) with 3 in E.
  change (len (Prune_keeps Z.leb (Versions (withLedger [1; 3; 5])) 4)) with 2 in E.
  split; [unfold versionSize in Hf; lia | rewrite HV; reflexivity].
Defined.

(** C4 as stated fails when an entry sits exactly at [oldestVersion]:
    pruning the ledger 1, 2, 3 at 2 leaves 2, 3.  Entry 1, the newest
    entry still below 2, is dropped although it is not strictly older
    than itself. *)
Lemma Prune_drops_newest_below_horizon :
  (r ← Prune (withLedger [1; 2; 3]) 2; Some (map Ver (Versions r.1), r.2))
    = Some ([2; 3], 40)
  /\ map Ver (Prune_keeps Z.ltb (Versions (withLedger [1; 2; 3])) 2) = [1; 2; 3]
  /\ ledger_sorted (Versions (withLedger [1; 2; 3]))
  /\ ~ Prune_leaves Z.ltb (withLedger [1; 2; 3]) 2.
Proof.
  split; [reflexivity|]. split; [reflexivity|].
  split; [unfold ledger_sorted; cbn; repeat constructor|].
  intros (node' & freed & HP & HV).
  vm_compute in HP. injection HP as <- <-.
  vm_compute in HV. discriminate HV.
Qed.

(** ** C5: rollback *)

Section Rollback.
Variable targetVersion : Version.

Lemma Rollback_loop_skip (keep rem : list VersionInfo) :
  forall after fuel next,
    Forall (fun e => targetVersion < Ver e) rem ->
    Rollback_loop (length rem + fuel) (keep ++ rem ++ after) targetVersion
      (len keep + len rem - 1) next
    = Rollback_loop fuel (keep ++ rem ++ after) targetVersion
        (len keep - 1) (next || (0 <? len rem)).
Proof.
  induction rem as [|e rem IH] using rev_ind; intros after fuel next Hrem.
  - cbn [length Nat.add]. change (len (@nil VersionInfo)) with 0.
    rewrite Z.add_0_r, orb_false_r. reflexivity.
  - apply Forall_app in Hrem as [Hrem He]. apply Forall_cons in He as [He _].
    replace (length (rem ++ [e]) + fuel)%nat with (S (length rem + fuel))
      by (rewrite length_app; cbn; lia).
    cbn [Rollback_loop].
    pose proof (len_nonneg keep). pose proof (len_nonneg rem).
    rewrite len_app. change (len [e]) with 1.
    replace (0 <=? len keep + (len rem + 1) - 1) with true
      by (symmetry; apply Z.leb_le; lia).
    replace (len keep + (len rem + 1) - 1) with (len (keep ++ rem))
      by (rewrite len_app; lia).
    rewrite <- (app_assoc rem). cbn [app].
    rewrite (app_assoc keep rem), index_middle, <- (app_assoc keep rem).
    cbn [mbind option_bind].
    replace (Ver e <=? targetVersion) with false by (symmetry; apply Z.leb_gt; lia).
    replace (len (keep ++ rem) - 1) with (len keep + len rem - 1)
      by (rewrite len_app; lia).
    rewrite IH by done.
    replace (0 <? len rem + 1) with true by (symmetry; apply Z.ltb_lt; lia).
    by rewrite orb_true_r.
Qed.

Lemma Rollback_loop_stop (keep after : list VersionInfo) (fuel : nat) (next : bool) :
  Forall (fun e => Ver e <= targetVersion) keep ->
  Rollback_loop (S fuel) (keep ++ after) targetVersion (len keep - 1) next
  = Some (len keep - 1, next).
Proof.
  intros Hkeep. cbn [Rollback_loop].
  destruct keep as [|k keep _] using rev_ind; [reflexivity|].
  apply Forall_app in Hkeep as [_ Hk]. apply Forall_cons in Hk as [Hk _].
  pose proof (len_nonneg keep). rewrite len_app. change (len [k]) with 1.
  replace (0 <=? len keep + 1 - 1) with true by (symmetry; apply Z.leb_le; lia).
  replace (len keep + 1 - 1) with (len keep) by lia.
  rewrite <- app_assoc. cbn [app]. rewrite index_middle. cbn [mbind option_bind].
  replace (Ver k <=? targetVersion) with true by (symmetry; by apply Z.leb_le).
  reflexivity.
Qed.

(** The shape of a rolled-back ledger. *)
Lemma Rollback_shape (node : TreeNode) :
  ledger_sorted (Versions node) -> ledger_fits (Versions node) ->
  Versions node <> [] ->
  exists keep rem,
    Versions node = keep ++ rem
    /\ Forall (fun e => Ver e <= targetVersion) keep
    /\ Forall (fun e => targetVersion < Ver e) rem
    /\ Rollback node targetVersion
       = Some (set_Versions node keep, (0 <? len rem, len rem * versionSize)).
Proof.
  intros Hs Hfit Hne. unfold ledger_fits in Hfit.
  destruct (ledger_split (fun v => v <=? targetVersion) (Versions node))
    as (keep & rem & E & Hkeep & Hrem);
    [intros a b Hab Hb; apply Z.leb_le in Hb; apply Z.leb_le; lia | exact Hs |].
  assert (Forall (fun e => Ver e <= targetVersion) keep) as Hkeep'
    by (eapply Forall_impl; [exact Hkeep | intros x Hx; by apply Z.leb_le in Hx]).
  assert (Forall (fun e => targetVersion < Ver e) rem) as Hrem'
    by (eapply Forall_impl; [exact Hrem | intros x Hx; by apply Z.leb_gt in Hx]).
  exists keep, rem. repeat split; try done.
  unfold Rollback.
  pose proof (len_nonneg keep). pose proof (len_nonneg rem).
  replace (len (Versions node) =? 0) with false.
  2:{ symmetry. apply Z.eqb_neq. unfold len.
      destruct (Versions node); [done | cbn; lia]. }
  rewrite E in *. rewrite len_app in *.
  replace (S (length (keep ++ rem))) with (length rem + S (length keep))%nat
    by (rewrite length_app; lia).
  rewrite <- (app_nil_r rem) at 2 4 5.
  rewrite Rollback_loop_skip by done.
  rewrite (app_nil_r rem), Rollback_loop_stop by done.
  cbn [mbind option_bind fst snd orb].
  replace (len keep - 1 + 1) with (len keep) by lia.
  rewrite take_len_app. cbn [set_Versions Versions].
  rewrite <- len_app, freed_bytes; rewrite ?len_app; [| lia | done].
  do 4 f_equal. lia.
Qed.
End Rollback.

(** C5. On a ledger satisfying its invariant (versions strictly
    ascending), [Rollback] removes exactly the entries whose version is
    strictly greater than [targetVersion]; it answers [true] iff at least
    one entry was removed, together with 40 bytes for each removed entry;
    on an empty ledger it leaves the node as it is and answers
    [(false, 0)]. *)
Theorem Rollback_removes_newer (node : TreeNode) (targetVersion : Version) :
  ledger_sorted (Versions node) -> ledger_fits (Versions node) ->
  exists node' changed freed,
    Rollback node targetVersion = Some (node', (changed, freed))
    /\ Versions node' = List.filter (fun e => Ver e <=? targetVersion) (Versions node)
    /\ Versions node
       = Versions node' ++ List.filter (fun e => targetVersion <? Ver e) (Versions node)
    /\ freed
       = len (List.filter (fun e => targetVersion <? Ver e) (Versions node)) * versionSize
    /\ (changed = true
        <-> List.filter (fun e => targetVersion <? Ver e) (Versions node) <> [])
    /\ (Versions node = [] -> node' = node /\ changed = false /\ freed = 0).
Proof.
  intros Hs Hfit.
  destruct (Versions node) as [|v0 vs0] eqn:Evs.
  - exists node, false, 0. unfold Rollback. rewrite Evs. cbn.
    repeat split; try done.
  - destruct (Rollback_shape targetVersion node) as (keep & rem & E & Hkeep & Hrem & HR);
      rewrite ?Evs; try done.
    rewrite Evs in E. rewrite E.
    exists (set_Versions node keep), (0 <? len rem), (len rem * versionSize).
    cbn [set_Versions Versions].
    assert (List.filter (fun e => Ver e <=? targetVersion) (keep ++ rem) = keep) as ->.
    { rewrite List.filter_app, filter_all, filter_none, app_nil_r; [done | |].
      - eapply Forall_impl; [exact Hrem|]. cbn. intros x Hx. apply Z.leb_gt. lia.
      - eapply Forall_impl; [exact Hkeep|]. cbn. intros x Hx. by apply Z.leb_le. }
    assert (List.filter (fun e => targetVersion <? Ver e) (keep ++ rem) = rem) as ->.
    { rewrite List.filter_app, filter_none, filter_all; [done | |].
      - eapply Forall_impl; [exact Hrem|]. cbn. intros x Hx. by apply Z.ltb_lt.
      - eapply Forall_impl; [exact Hkeep|]. cbn. intros x Hx. apply Z.ltb_ge. lia. }
    repeat split; try done.
    + intros H. apply Z.ltb_lt in H. intros ->. unfold len in H. cbn in H. lia.
    + intros H. apply Z.ltb_lt. unfold len. destruct rem; [done | cbn; lia].
    + match goal with H : _ ++ _ = [] |- _ => rewrite <- E in H; discriminate H end.
    + match goal with H : _ ++ _ = [] |- _ => rewrite <- E in H; discriminate H end.
    + match goal with H : _ ++ _ = [] |- _ => rewrite <- E in H; discriminate H end.
Qed.

Lemma Rollback_removes_newer_witness :
  exists node',
    Rollback (withLedger [1; 3; 5]) 3 = Some (node', (true, 40))
    /\ map Ver (Versions node') = [1; 3].
Proof.
  assert (ledger_sorted (Versions (withLedger [1; 3; 5]))) as Hs
    by (unfold ledger_sorted; cbn; repeat constructor).
  assert (ledger_fits (Versions (withLedger [1; 3; 5]))) as Hfit
    by (vm_compute; reflexivity).
  destruct (Rollback_removes_newer (withLedger [1; 3; 5]) 3 Hs Hfit)
    as (node' & changed & freed & HR & HV & _ & Hf & [_ Hc] & _).
  exists node'. rewrite HR, HV, Hf. split; [|reflexivity].
  rewrite Hc by (vm_compute; discriminate). reflexivity.
Defined.

(** C5 as stated fails on a ledger that is not ascending, which [Set]
    builds since [newVersion] checks no order: after [Set] at version 5
    and [Set] at version 1 the ledger is 5, 1.  [Rollback] to 3 stops at
    the last entry, removes nothing and answers [(false, 0)]: entry 5
    stays although it is greater than 3. *)
Lemma Rollback_keeps_newer_before_older :
  TreeNode_Set (TreeNode_Set node0 (Some [x2a]) 5) (Some [x2a]) 1 = withLedger [5; 1]
  /\ (r ← Rollback (withLedger [5; 1]) 3; Some (map Ver (Versions r.1), r.2))
     = Some ([5; 1], (false, 0))
  /\ map Ver (List.filter (fun e => Ver e <=? 3) (Versions (withLedger [5; 1]))) = [1]
  /\ ~ (exists node' changed freed,
          Rollback (withLedger [5; 1]) 3 = Some (node', (changed, freed))
          /\ Versions node'
             = List.filter (fun e => Ver e <=? 3) (Versions (withLedger [5; 1]))).
Proof.
  split; [reflexivity|]. split; [reflexivity|]. split; [reflexivity|].
  intros (node' & changed & freed & HR & HV).
  vm_compute in HR. injection HR as <- <- <-.
  vm_compute in HV. discriminate HV.
Qed.

(** ** The sequential update *)

Lemma SetChildren_split (node : TreeNode) (child : option TreeNode) (nibble : Z)
    (version : Version) :
  SetChildren node child nibble version
  = (n ← SetChildren_climb node child nibble;
     h ← topHash n;
     Some (newVersion n (mkVersionInfo version h))).
Proof.
  unfold SetChildren, SetChildren_climb.
  destruct (store (Children node) nibble child) as [cs|]; [|reflexivity].
  cbn [mbind option_bind].
  repeat match goal with
         | |- (?x ≫= _) = _ => destruct x; cbn [mbind option_bind]; [|reflexivity]
         end.
  reflexivity.
Qed.

Lemma topHash_wf (node : TreeNode) : wf node -> exists h, topHash node = Some h.
Proof. intros Hwf. explode node Hwf. eexists. reflexivity. Qed.

(** The climb succeeds on every nibble and only rewrites slots. *)
Lemma SetChildren_climb_ok (node : TreeNode) (child : option TreeNode) (nibble : Z) :
  wf node -> 0 <= nibble < 16 ->
  exists ins,
    length ins = 14%nat
    /\ SetChildren_climb node child nibble
       = Some (set_Internals
                 (set_Children node (<[Z.to_nat nibble := child]> (Children node)))
                 ins).
Proof.
  intros Hwf Hnib. explode node Hwf. apply below_16_cases in Hnib.
  each_of Hnib; (eexists; split; [|vm_compute; reflexivity]); reflexivity.
Qed.

Lemma SetChildren_ok (node : TreeNode) (child : option TreeNode) (nibble : Z)
    (version : Version) :
  wf node -> 0 <= nibble < 16 ->
  exists n h,
    SetChildren_climb node child nibble = Some n
    /\ wf n /\ Versions n = Versions node
    /\ topHash n = Some h
    /\ SetChildren node child nibble version
       = Some (newVersion n (mkVersionInfo version h)).
Proof.
  intros Hwf Hnib.
  destruct (SetChildren_climb_ok node child nibble Hwf Hnib) as (ins & Hins & Hc).
  assert (wf (set_Internals
                (set_Children node (<[Z.to_nat nibble := child]> (Children node)))
                ins)) as Hwf'.
  { split; cbn; [rewrite length_insert; apply Hwf | exact Hins]. }
  destruct (topHash_wf _ Hwf') as [h Hh].
  eexists _, h. split; [exact Hc|]. split; [exact Hwf'|].
  split; [reflexivity|]. split; [exact Hh|].
  rewrite SetChildren_split, Hc. cbn [mbind option_bind]. rewrite Hh. reflexivity.
Qed.

(** ** The batch recomputation *)

Lemma int_of_uint64 (n : Z) : 0 <= n < 2 ^ 64 -> 0 <= int n -> int n = n.
Proof.
  unfold int. intros Hn Hpos.
  destruct (Z.lt_ge_cases n (2 ^ 63)) as [Hlt|Hge].
  - rewrite Z.mod_small by lia. lia.
  - exfalso.
    replace (n + 2 ^ 63) with (n - 2 ^ 63 + 1 * 2 ^ 64) in Hpos by lia.
    rewrite Z.mod_add in Hpos by lia.
    rewrite Z.mod_small in Hpos by lia. lia.
Qed.

Lemma computeInternal_task_ok (prefix n : Z) (node : TreeNode) :
  wf node -> 0 <= n < 2 ^ 64 -> prefix ∈ [6; 2; 0] ->
  exists node',
    computeInternal_task prefix n node = Some node'
    /\ wf node' /\ Versions node' = Versions node.
Proof.
  intros Hwf Hn Hp. unfold computeInternal_task.
  destruct ((prefix <=? int n) && (int n <=? Z.shiftl prefix 1 + 1)) eqn:E;
    [|by exists node].
  apply andb_true_iff in E as [E1 E2].
  apply Z.leb_le in E1, E2.
  assert (0 <= n < 14) as Hn14.
  { assert (0 <= prefix /\ Z.shiftl prefix 1 + 1 <= 13) as [? ?]
      by (each_of Hp; rewrite Z.shiftl_mul_pow2 by lia; lia).
    assert (int n = n) as Hi by (apply int_of_uint64; lia).
    rewrite Hi in E1, E2. lia. }
  clear E1 E2 Hp Hn. explode node Hwf. apply below_14_cases in Hn14.
  each_of Hn14; (eexists; split; [vm_compute; reflexivity|]); by split.
Qed.

Lemma computeInternal_level_ok (prefix : Z) (l : list Z) :
  prefix ∈ [6; 2; 0] -> Forall (fun n => 0 <= n < 2 ^ 64) l ->
  forall node, wf node ->
  exists node',
    for_range (computeInternal_task prefix) l node = Some node'
    /\ wf node' /\ Versions node' = Versions node.
Proof.
  intros Hp. induction 1 as [|n l Hn _ IH]; intros node Hwf.
  - by exists node.
  - destruct (computeInternal_task_ok prefix n node Hwf Hn Hp) as (n1 & E1 & Hwf1 & V1).
    destruct (IH n1 Hwf1) as (n2 & E2 & Hwf2 & V2).
    exists n2. cbn [for_range]. rewrite E1. cbn [mbind option_bind].
    split; [exact E2|]. split; [exact Hwf2 | congruence].
Qed.

Lemma computeInternal_ok (node : TreeNode) (nibbles : gset Z) :
  wf node -> (forall n, n ∈ nibbles -> 0 <= n < 2 ^ 64) ->
  exists n h,
    wf n /\ Versions n = Versions node /\ topHash n = Some h
    /\ computeInternal node (Some nibbles)
       = Some (newVersion n (mkVersionInfo (latestVersion n) h)).
Proof.
  intros Hwf Hkeys. unfold computeInternal.
  set (nbArray := merge_sort descending (elements nibbles)).
  assert (Forall (fun n => 0 <= n < 2 ^ 64) nbArray) as Hall.
  { apply Forall_forall. intros n Hn. apply Hkeys.
    unfold nbArray in Hn. rewrite merge_sort_Permutation in Hn.
    by apply elem_of_elements in Hn. }
  destruct (computeInternal_level_ok 6 nbArray ltac:(is_member) Hall node Hwf)
    as (n1 & E1 & Hwf1 & V1).
  destruct (computeInternal_level_ok 2 nbArray ltac:(is_member) Hall n1 Hwf1)
    as (n2 & E2 & Hwf2 & V2).
  destruct (computeInternal_level_ok 0 nbArray ltac:(is_member) Hall n2 Hwf2)
    as (n3 & E3 & Hwf3 & V3).
  destruct (topHash_wf n3 Hwf3) as [h Hh].
  exists n3, h. split; [exact Hwf3|]. split; [congruence|]. split; [exact Hh|].
  cbn [for_loop fst snd]. change (1 <=? 4) with true. cbn match.
  rewrite E1. cbn [mbind option_bind fst snd].
  change (Z.shiftr 4 1) with 2. change (6 - 4) with 2. change (1 <=? 2) with true.
  cbn match. rewrite E2. cbn [mbind option_bind fst snd].
  change (Z.shiftr 2 1) with 1. change (2 - 2) with 0. change (1 <=? 1) with true.
  cbn match. rewrite E3. cbn [mbind option_bind fst snd].
  change (Z.shiftr 1 1) with 0. change (1 <=? 0) with false. cbn match.
  cbn [mbind option_bind fst snd]. rewrite Hh. reflexivity.
Qed.

(** ** C1: the latest entry is the hash of the two top slots *)

Lemma latest_is_topHash_newVersion (n : TreeNode) (version : Version) (h : slice) :
  topHash n = Some h ->
  latest_is_topHash (newVersion n (mkVersionInfo version h)).
Proof.
  intros Hh. exists (mkVersionInfo version h).
  split; [apply newVersion_last | by rewrite topHash_newVersion].
Qed.

(** C1 (as amended). After [SetChildren] returns, after [computeInternal]
    returns from a call with a non-nil set of dirty slots, and after a
    [recompute] that answers [true], the latest ledger entry carries
    [Hash(Internals[0], Internals[1])].  The first two calls do return:
    [SetChildren] for every nibble of a node, [computeInternal] for every
    set of [uint64] keys. *)
Theorem latest_entry_is_topHash (node : TreeNode) (child : option TreeNode)
    (nibble : Z) (version : Version) (nibbles : gset Z)
    (updated : TreeNode) (journals : journal) :
  wf node -> 0 <= nibble < 16 ->
  (forall n, n ∈ nibbles -> 0 <= n < 2 ^ 64) ->
  (exists node', SetChildren node child nibble version = Some node'
                 /\ latest_is_topHash node')
  /\ (exists node', computeInternal node (Some nibbles) = Some node'
                    /\ latest_is_topHash node')
  /\ (forall node', recompute node updated journals version = Some (node', true) ->
                    latest_is_topHash node').
Proof.
  intros Hwf Hnib Hkeys. split; [|split].
  - destruct (SetChildren_ok node child nibble version Hwf Hnib)
      as (n & h & _ & _ & _ & Hh & HS).
    eexists. split; [exact HS|]. by apply latest_is_topHash_newVersion.
  - destruct (computeInternal_ok node nibbles Hwf Hkeys) as (n & h & _ & _ & Hh & HC).
    eexists. split; [exact HC|]. by apply latest_is_topHash_newVersion.
  - intros node'. unfold recompute.
    destruct (recompute_leaves _ _ _ _ _) as [lr|]; [|discriminate].
    destruct (recompute_loop _ _ _ _ _ _ _ _) as [[n b]|]; [|discriminate].
    cbn [mbind option_bind fst snd]. destruct b; [|discriminate].
    destruct (topHash n) as [h|] eqn:Hh; [|discriminate].
    cbn [mbind option_bind]. intros [= <-].
    by apply latest_is_topHash_newVersion.
Qed.

Lemma latest_entry_is_topHash_witness :
  (exists node', SetChildren node0 (Some (leafAt 3 x07 1)) 3 1 = Some node'
                 /\ latest_is_topHash node')
  /\ (exists node', computeInternal node0 (Some {[ 7; 2; 0 ]}) = Some node'
                    /\ latest_is_topHash node')
  /\ mark node0 3 = Some marked3
  /\ (exists node',
        recompute marked3 (leafAt 3 x07 1) emptyJournal 1 = Some (node', true)
        /\ latest_is_topHash node').
Proof.
  assert (wf node0) as Hwf by (split; reflexivity).
  assert (wf marked3) as Hwf3 by (split; reflexivity).
  assert (forall n : Z, n ∈ ({[ 7; 2; 0 ]} : gset Z) -> 0 <= n < 2 ^ 64) as Hkeys.
  { intros n Hn. rewrite !elem_of_union, !elem_of_singleton in Hn. lia. }
  destruct (latest_entry_is_topHash node0 (Some (leafAt 3 x07 1)) 3 1
              {[ 7; 2; 0 ]} (leafAt 3 x07 1) emptyJournal Hwf ltac:(lia) Hkeys)
    as (HS & HC & _).
  destruct (latest_entry_is_topHash marked3 (Some (leafAt 3 x07 1)) 3 1
              {[ 7; 2; 0 ]} (leafAt 3 x07 1) emptyJournal Hwf3 ltac:(lia) Hkeys)
    as (_ & _ & HR).
  split; [exact HS|]. split; [exact HC|]. split; [reflexivity|].
  eexists. split; [vm_compute; reflexivity|].
  apply HR. vm_compute. reflexivity.
Defined.

(** C1 as stated fails for [computeInternal]: called with the nil map it
    returns at once.  A fresh node then still has no ledger entry at all,
    and a node whose only entry was written by [Set] keeps that entry,
    whose hash is not the hash of the two top slots. *)
Lemma computeInternal_nil_mints_nothing :
  computeInternal node0 None = Some node0
  /\ ~ latest_is_topHash node0
  /\ computeInternal (TreeNode_Set node0 (Some [x2a]) 1) None
     = Some (TreeNode_Set node0 (Some [x2a]) 1)
  /\ ~ latest_is_topHash (TreeNode_Set node0 (Some [x2a]) 1).
Proof.
  split; [reflexivity|]. split; [|split; [reflexivity|]].
  - intros (v & Hv & _). discriminate Hv.
  - intros (v & Hv & Hh). vm_compute in Hv. injection Hv as <-.
    vm_compute in Hh. discriminate Hh.
Qed.

(** ** C3: the cooperative recomputation *)

Ltac explode_slots node Hwf Hsl :=
  let cs := fresh "cs" in
  let ins := fresh "ins" in
  let mus := fresh "mus" in
  let ivs := fresh "ivs" in
  destruct node as [cs ins ? ? ? ? ? [?] ? mus ivs];
  destruct Hwf as [Hcs Hins]; destruct Hsl as [Hmu Hiv];
  cbn [Children Internals internalMu internalVer] in Hcs, Hins, Hmu, Hiv;
  apply length_16_inv in Hcs
    as (?&?&?&?&?&?&?&?&?&?&?&?&?&?&?&?&->);
  apply length_14_inv in Hins
    as (?&?&?&?&?&?&?&?&?&?&?&?&?&?&->);
  apply length_14_inv in Hmu
    as (?&?&?&?&?&?&?&?&?&?&?&?&?&?&->);
  apply length_14_inv in Hiv
    as (?&?&?&?&?&?&?&?&?&?&?&?&?&?&->).

Ltac split_slots :=
  repeat match goal with
         | |- context [match ?x with _ => _ end] =>
             is_var x; destruct x; cbv beta iota
         end.


Lemma recompute_leaves_spec (node child : TreeNode) (journals : journal)
    (version : Version) (nibble : Z) :
  0 <= nibble < 16 ->
  recompute_leaves node child journals version nibble
  = if sibling_ready journals child version
    then Some (leaf_pair node child journals nibble)
    else None.
Proof.
  intros Hnib. apply below_16_cases in Hnib.
  unfold recompute_leaves, sibling_ready, leaf_pair, tracked_sibling,
    latestVersionWithLock.
  each_of Hnib;
    (destruct (journal_get journals _) as [s|];
     [destruct (latestVersion s <? version)|]; reflexivity).
Qed.

Lemma nibble_of_path (p : Z) : 0 <= Z.land p 15 < 16 /\ int (Z.land p 15) = Z.land p 15.
Proof.
  assert (0 <= Z.land p 15 < 16) as H.
  { change 15 with (Z.ones 4). rewrite Z.land_ones by lia.
    apply Z.mod_pos_bound. lia. }
  split; [exact H|]. apply int_small. lia.
Qed.



(** ** C2: the sequential update agrees with a full rebuild *)

(** Attached to a node whose slots agree with its children, a child
    leaves exactly the node a full rebuild would produce. *)
Lemma SetChildren_climb_is_rebuild (node : TreeNode) (child : option TreeNode)
    (nibble : Z) (version : Version) :
  wf node -> internals_match_children node -> 0 <= nibble < 16 ->
  SetChildren_climb node child nibble
  = (attached ← SetChildrenOnly node child nibble version;
     ComputeInternalHash attached).
Proof.
  intros Hwf Hm Hnib. explode node Hwf. unfold internals_match_children in Hm.
  vm_compute in Hm. injection Hm as <- <- <- <- <- <- <- <- <- <- <- <- <- <-.
  apply below_16_cases in Hnib.
  each_of Hnib; vm_compute; reflexivity.
Qed.

Lemma store_ok {A : Type} (l : list A) (i : Z) (x : A) :
  0 <= i < len l -> store l i x = Some (<[Z.to_nat i := x]> l).
Proof.
  intros H. unfold store, len in *.
  destruct (Z.leb_spec 0 i); [|lia].
  destruct (Z.ltb_spec i (Z.of_nat (length l))); [reflexivity | lia].
Qed.

Lemma SetChildrenOnly_ok (node : TreeNode) (child : option TreeNode) (nibble : Z)
    (version : Version) :
  wf node -> 0 <= nibble < 16 ->
  SetChildrenOnly node child nibble version
  = Some (set_Children node (<[Z.to_nat nibble := child]> (Children node)))
  /\ wf (set_Children node (<[Z.to_nat nibble := child]> (Children node))).
Proof.
  intros [Hc Hi] Hnib. unfold SetChildrenOnly.
  rewrite store_ok by (unfold len; rewrite Hc; lia).
  split; [reflexivity|]. split; cbn; [by rewrite length_insert | exact Hi].
Qed.

Lemma newVersion_set (n : TreeNode) (version : VersionInfo) :
  newVersion n version = set_Versions n (Versions (newVersion n version)).
Proof.
  unfold newVersion.
  destruct (last (Versions n)) as [v|]; [destruct (Ver v =? Ver version)|];
    reflexivity.
Qed.

Lemma internals_match_set_Versions (n : TreeNode) (vs : list VersionInfo) :
  wf n -> internals_match_children n -> internals_match_children (set_Versions n vs).
Proof.
  intros Hwf Hm. explode n Hwf. unfold internals_match_children in *.
  vm_compute in Hm. vm_compute. exact Hm.
Qed.

(** A rebuild is a fixed point of the rebuild. *)
Lemma ComputeInternalHash_match (node rebuilt : TreeNode) :
  wf node -> ComputeInternalHash node = Some rebuilt ->
  wf rebuilt /\ internals_match_children rebuilt.
Proof.
  intros Hwf H. explode node Hwf. vm_compute in H. injection H as <-.
  split; [split; reflexivity|]. vm_compute. reflexivity.
Qed.

(** C2. On a node whose 14 slots are those a full [ComputeInternalHash]
    rebuild computes from its 16 children, [SetChildren] of a child at any
    nibble of the node returns a node whose 14 slots are those the rebuild
    computes once the child is attached, and mints as root the hash the
    rebuild's two top slots combine to.  The slots of the result agree
    with its children again. *)
Theorem SetChildren_agrees_with_rebuild (node : TreeNode) (child : option TreeNode)
    (nibble : Z) (version : Version) :
  wf node -> internals_match_children node -> 0 <= nibble < 16 ->
  exists node' attached rebuilt h,
    SetChildren node child nibble version = Some node'
    /\ SetChildrenOnly node child nibble version = Some attached
    /\ ComputeInternalHash attached = Some rebuilt
    /\ Internals node' = Internals rebuilt
    /\ topHash rebuilt = Some h
    /\ Root node' = h
    /\ last (Versions node') = Some (mkVersionInfo version h)
    /\ wf node' /\ internals_match_children node'.
Proof.
  intros Hwf Hm Hnib.
  destruct (SetChildren_ok node child nibble version Hwf Hnib)
    as (n & h & Hc & Hwfn & HV & Hh & HS).
  destruct (SetChildrenOnly_ok node child nibble version Hwf Hnib) as [HO Hwfa].
  pose proof (SetChildren_climb_is_rebuild node child nibble version Hwf Hm Hnib) as E.
  rewrite Hc, HO in E. cbn [mbind option_bind] in E. symmetry in E.
  destruct (ComputeInternalHash_match _ _ Hwfa E) as [_ Hmn].
  eexists (newVersion n (mkVersionInfo version h)), _, n, h.
  split; [exact HS|]. split; [exact HO|]. split; [exact E|].
  destruct (newVersion_fields n (mkVersionInfo version h)) as (_ & -> & _).
  split; [reflexivity|]. split; [exact Hh|].
  unfold Root, root. rewrite newVersion_last.
  split; [reflexivity|]. split; [reflexivity|].
  split; [by apply wf_newVersion|].
  rewrite newVersion_set. by apply internals_match_set_Versions.
Qed.

Lemma SetChildren_agrees_with_rebuild_witness :
  exists node' attached rebuilt,
    SetChildren node0 (Some (leafAt 3 x07 1)) 3 1 = Some node'
    /\ SetChildrenOnly node0 (Some (leafAt 3 x07 1)) 3 1 = Some attached
    /\ ComputeInternalHash attached = Some rebuilt
    /\ Internals node' = Internals rebuilt
    /\ Root node' = Some (replicate 3 x00 ++ [x07] ++ replicate 12 x00).
Proof.
  assert (wf node0) as Hwf by (split; reflexivity).
  assert (internals_match_children node0) as Hm by (vm_compute; reflexivity).
  destruct (SetChildren_agrees_with_rebuild node0 (Some (leafAt 3 x07 1)) 3 1
              Hwf Hm ltac:(lia))
    as (node' & attached & rebuilt & h & HS & HO & HC & HI & Hh & HR & _).
  exists node', attached, rebuilt.
  split; [exact HS|]. split; [exact HO|]. split; [exact HC|]. split; [exact HI|].
  rewrite HR. vm_compute in HO. injection HO as <-.
  vm_compute in HC. injection HC as <-.
  vm_compute in Hh. injection Hh as <-. reflexivity.
Defined.

(** ** C6: the ledger stays sorted *)

Lemma insert_last {A : Type} (pre : list A) (old x : A) :
  <[Nat.pred (length (pre ++ [old])) := x]> (pre ++ [old]) = pre ++ [x].
Proof.
  rewrite length_app, Nat.add_comm. cbn.
  replace (length pre) with (length pre + 0)%nat by lia.
  by rewrite insert_app_r.
Qed.

Lemma ledger_sorted_snoc (pre : list VersionInfo) (x : VersionInfo) :
  ledger_sorted pre -> Forall (fun e => Ver e < Ver x) pre ->
  ledger_sorted (pre ++ [x]).
Proof.
  unfold ledger_sorted. induction pre as [|e pre IH]; cbn; intros Hs Hall.
  - repeat constructor.
  - apply StronglySorted_inv in Hs as [Hs He].
    apply Forall_cons in Hall as [Hex Hall].
    constructor; [by apply IH|].
    rewrite map_app, Forall_app. split; [exact He | by repeat constructor].
Qed.

Lemma ledger_sorted_app_l (l1 l2 : list VersionInfo) :
  ledger_sorted (l1 ++ l2) -> ledger_sorted l1.
Proof.
  unfold ledger_sorted. induction l1 as [|e l1 IH]; cbn; intros Hs.
  - constructor.
  - apply StronglySorted_inv in Hs as [Hs He].
    rewrite map_app, Forall_app in He.
    constructor; [by apply IH | apply He].
Qed.

(** Minting at a version that is not below any entry of a sorted ledger
    keeps the entries below it and ends the ledger with the new entry. *)
Lemma newVersion_ledger (node : TreeNode) (version : Version) (h : slice) :
  ledger_sorted (Versions node) ->
  Forall (fun e => Ver e <= version) (Versions node) ->
  Versions (newVersion node (mkVersionInfo version h))
  = List.filter (fun e => Ver e <? version) (Versions node)
    ++ [mkVersionInfo version h]
  /\ Forall (fun e => Ver e < version)
       (List.filter (fun e => Ver e <? version) (Versions node))
  /\ ledger_sorted (Versions (newVersion node (mkVersionInfo version h)))
  /\ Forall (fun e => Ver e <= version)
       (Versions (newVersion node (mkVersionInfo version h))).
Proof.
  intros Hs Hle.
  assert (Forall (fun e => Ver e < version)
            (List.filter (fun e => Ver e <? version) (Versions node))) as Hlt.
  { apply Forall_forall. intros e He.
    apply list_elem_of_In, filter_In in He as [_ He]. by apply Z.ltb_lt. }
  assert (Versions (newVersion node (mkVersionInfo version h))
          = List.filter (fun e => Ver e <? version) (Versions node)
            ++ [mkVersionInfo version h]) as E.
  { unfold newVersion.
    destruct (Versions node) as [|old pre _] using rev_ind; [reflexivity|].
    rewrite last_snoc. cbn [Ver].
    destruct (ledger_sorted_middle _ _ _ Hs) as [Hpre _].
    apply Forall_app in Hle as [_ Hold]. apply Forall_cons in Hold as [Hold _].
    rewrite List.filter_app. cbn [List.filter].
    destruct (Z.eqb_spec (Ver old) version) as [Heq|Hne]; cbn [set_Versions Versions].
    - rewrite insert_last.
      replace (Ver old <? version) with false by (symmetry; apply Z.ltb_ge; lia).
      rewrite filter_all, app_nil_r; [reflexivity|].
      eapply Forall_impl; [exact Hpre|]. cbn. intros x Hx. apply Z.ltb_lt. lia.
    - replace (Ver old <? version) with true by (symmetry; apply Z.ltb_lt; lia).
      rewrite filter_all; [reflexivity|].
      eapply Forall_impl; [exact Hpre|]. cbn. intros x Hx. apply Z.ltb_lt. lia. }
  split; [exact E|]. split; [exact Hlt|]. rewrite E. split.
  - apply ledger_sorted_snoc; [|exact Hlt].
    destruct (Versions node) as [|old pre _] using rev_ind; [constructor|].
    clear E Hlt Hle. induction (pre ++ [old]) as [|e l IH]; [constructor|].
    unfold ledger_sorted in *. cbn in Hs. apply StronglySorted_inv in Hs as [Hs He].
    cbn [List.filter]. destruct (Ver e <? version); [|by apply IH].
    cbn. constructor; [by apply IH|].
    rewrite List.Forall_map in He |- *.
    apply Forall_forall. intros x Hx. apply list_elem_of_In, filter_In in Hx as [Hx _].
    rewrite Forall_forall in He. by apply He, list_elem_of_In.
  - apply Forall_app. split; [|repeat constructor; cbn; lia].
    eapply Forall_impl; [exact Hlt|]. cbn. intros x Hx. lia.
Qed.






(** ** C7: repeated and same-version updates *)

Lemma newVersion_idem (n : TreeNode) (version : VersionInfo) :
  newVersion (newVersion n version) version = newVersion n version.
Proof.
  pose proof (newVersion_last n version) as Hlast.
  rewrite (newVersion_set n version) in *.
  set (vs := Versions (newVersion n version)) in *. cbn [Versions set_Versions] in Hlast.
  unfold newVersion at 1. cbn [Versions set_Versions]. rewrite Hlast, Z.eqb_refl.
  destruct vs as [|old pre _] using rev_ind; [discriminate Hlast|].
  rewrite last_snoc in Hlast. injection Hlast as ->.
  by rewrite insert_last.
Qed.

Lemma SetChildren_climb_idem (node n : TreeNode) (child : option TreeNode)
    (nibble : Z) :
  wf node -> 0 <= nibble < 16 ->
  SetChildren_climb node child nibble = Some n ->
  SetChildren_climb n child nibble = Some n.
Proof.
  intros Hwf Hnib. explode node Hwf. apply below_16_cases in Hnib.
  each_of Hnib; intros H; vm_compute in H; injection H as <-;
    vm_compute; reflexivity.
Qed.

Lemma SetChildren_climb_set_Versions (node n : TreeNode) (child : option TreeNode)
    (nibble : Z) (vs : list VersionInfo) :
  wf node -> 0 <= nibble < 16 ->
  SetChildren_climb node child nibble = Some n ->
  SetChildren_climb (set_Versions node vs) child nibble = Some (set_Versions n vs).
Proof.
  intros Hwf Hnib. explode node Hwf. apply below_16_cases in Hnib.
  each_of Hnib; intros H; vm_compute in H; injection H as <-;
    vm_compute; reflexivity.
Qed.

(** A rebuild reads the children, the hasher and the empty-child hash,
    and nothing else. *)
Lemma ComputeInternalHash_children_only (x y rx ry : TreeNode) :
  wf x -> wf y ->
  Children x = Children y -> hasher x = hasher y ->
  nilChildHash x = nilChildHash y ->
  ComputeInternalHash x = Some rx -> ComputeInternalHash y = Some ry ->
  Internals rx = Internals ry /\ topHash rx = topHash ry.
Proof.
  intros Hx Hy. explode x Hx. explode y Hy. simpl.
  intros [= -> -> -> -> -> -> -> -> -> -> -> -> -> -> -> ->] [= ->] ->.
  intros H1 H2. vm_compute in H1, H2. injection H1 as <-. injection H2 as <-.
  split; reflexivity.
Qed.

Lemma ComputeInternalHash_ok (node : TreeNode) :
  wf node -> exists rebuilt, ComputeInternalHash node = Some rebuilt.
Proof. intros Hwf. explode node Hwf. eexists. vm_compute. reflexivity. Qed.

(** [SetChildren] on a node whose slots agree with its children, with
    the fields of the node it returns. *)
Lemma SetChildren_rebuild (node : TreeNode) (child : option TreeNode) (nibble : Z)
    (version : Version) :
  wf node -> internals_match_children node -> 0 <= nibble < 16 ->
  exists rebuilt h,
    ComputeInternalHash
      (set_Children node (<[Z.to_nat nibble := child]> (Children node)))
    = Some rebuilt
    /\ topHash rebuilt = Some h
    /\ SetChildren node child nibble version
       = Some (newVersion rebuilt (mkVersionInfo version h))
    /\ wf rebuilt /\ internals_match_children rebuilt
    /\ Versions rebuilt = Versions node
    /\ Children rebuilt = <[Z.to_nat nibble := child]> (Children node)
    /\ hasher rebuilt = hasher node
    /\ nilChildHash rebuilt = nilChildHash node.
Proof.
  intros Hwf Hm Hnib.
  destruct (SetChildren_ok node child nibble version Hwf Hnib)
    as (n & h & Hc & Hwfn & HV & Hh & HS).
  destruct (SetChildrenOnly_ok node child nibble version Hwf Hnib) as [HO Hwfa].
  pose proof (SetChildren_climb_is_rebuild node child nibble version Hwf Hm Hnib) as E.
  rewrite Hc, HO in E. cbn [mbind option_bind] in E. symmetry in E.
  destruct (ComputeInternalHash_match _ _ Hwfa E) as [_ Hmn].
  destruct (SetChildren_climb_ok node child nibble Hwf Hnib) as (ins & _ & Hc').
  rewrite Hc in Hc'. injection Hc' as Hn.
  exists n, h. repeat split; try done; try apply Hwfn; by rewrite Hn.
Qed.

(** C7. A second [SetChildren] with the same child, nibble and version
    returns the very node the first one returned: the same ledger, the
    same root.  Two [SetChildren] at one version, on any two nibbles of a
    node whose slots agree with its children and whose sorted ledger holds
    no later version, leave one ledger entry for that version; it is the
    latest, and its hash is the root a full rebuild computes with both
    children attached. *)
Theorem SetChildren_same_version (node : TreeNode) (child child' : option TreeNode)
    (nibble nibble' : Z) (version : Version) :
  wf node -> 0 <= nibble < 16 -> 0 <= nibble' < 16 ->
  (exists once,
     SetChildren node child nibble version = Some once
     /\ SetChildren once child nibble version = Some once)
  /\ (internals_match_children node ->
      ledger_sorted (Versions node) ->
      Forall (fun e => Ver e <= version) (Versions node) ->
      exists first second attached both rebuilt h,
        SetChildren node child nibble version = Some first
        /\ SetChildren first child' nibble' version = Some second
        /\ SetChildrenOnly node child nibble version = Some attached
        /\ SetChildrenOnly attached child' nibble' version = Some both
        /\ ComputeInternalHash both = Some rebuilt
        /\ topHash rebuilt = Some h
        /\ Internals second = Internals rebuilt
        /\ List.filter (fun e => Ver e =? version) (Versions second)
           = [mkVersionInfo version h]
        /\ last (Versions second) = Some (mkVersionInfo version h)
        /\ Root second = h
        /\ length (Versions second) = length (Versions first)).
Proof.
  intros Hwf Hnib Hnib'. split.
  - destruct (SetChildren_ok node child nibble version Hwf Hnib)
      as (n & h & Hc & Hwfn & HV & Hh & HS).
    exists (newVersion n (mkVersionInfo version h)). split; [exact HS|].
    pose proof (SetChildren_climb_idem node n child nibble Hwf Hnib Hc) as Hidem.
    rewrite SetChildren_split, (newVersion_set n) at 1.
    rewrite (SetChildren_climb_set_Versions n n child nibble _ Hwfn Hnib Hidem).
    cbn [mbind option_bind]. rewrite <- newVersion_set, topHash_newVersion, Hh.
    cbn [mbind option_bind]. by rewrite newVersion_idem.
  - intros Hm Hs Hle.
    destruct (SetChildren_rebuild node child nibble version Hwf Hm Hnib)
      as (r1 & h1 & HC1 & Hh1 & HS1 & Hwf1 & Hm1 & HV1 & Hch1 & Hha1 & Hnc1).
    assert (wf (newVersion r1 (mkVersionInfo version h1))) as Hwff by (by apply wf_newVersion).
    assert (internals_match_children (newVersion r1 (mkVersionInfo version h1))) as Hmf
      by (rewrite newVersion_set; by apply internals_match_set_Versions).
    destruct (newVersion_fields r1 (mkVersionInfo version h1)) as (Fch & _ & Fha & _ & Fnc).
    destruct (SetChildren_rebuild (newVersion r1 (mkVersionInfo version h1)) child' nibble' version
                Hwff Hmf Hnib')
      as (r2 & h2 & HC2 & Hh2 & HS2 & Hwf2 & Hm2 & HV2 & Hch2 & Hha2 & Hnc2).
    destruct (SetChildrenOnly_ok node child nibble version Hwf Hnib) as [HO1 Hwfa].
    destruct (SetChildrenOnly_ok _ child' nibble' version Hwfa Hnib') as [HO2 Hwfb].
    destruct (ComputeInternalHash_ok _ Hwfb) as [rebuilt HCb].
    destruct (SetChildrenOnly_ok _ child' nibble' version Hwff Hnib') as [_ Hwfa2].
    destruct (ComputeInternalHash_children_only _ _ r2 rebuilt Hwfa2 Hwfb)
      as [HI Htop]; try done.
    { cbn [set_Children Children]. by rewrite Fch, Hch1. }
    { cbn [set_Children hasher]. by rewrite Fha, Hha1. }
    { cbn [set_Children nilChildHash]. by rewrite Fnc, Hnc1. }
    destruct (newVersion_ledger node version h1 Hs Hle) as (E1 & Hlt & Hs1 & Hle1).
    rewrite <- (newVersion_Versions_eq r1 node (mkVersionInfo version h1) HV1) in E1, Hs1, Hle1.
    destruct (newVersion_ledger (newVersion r1 (mkVersionInfo version h1)) version h2 Hs1 Hle1)
      as (E2 & _ & _ & _).
    rewrite <- (newVersion_Versions_eq r2 _ (mkVersionInfo version h2) HV2) in E2.
    rewrite E1, List.filter_app in E2. cbn [List.filter Ver] in E2.
    rewrite Z.ltb_irrefl, app_nil_r in E2.
    rewrite filter_all in E2
      by (eapply Forall_impl; [exact Hlt|]; cbn; intros x Hx; by apply Z.ltb_lt).
    eexists _, (newVersion r2 (mkVersionInfo version h2)), _, _, rebuilt, h2.
    split; [exact HS1|]. split; [exact HS2|]. split; [exact HO1|].
    split; [exact HO2|]. split; [exact HCb|]. split; [by rewrite <- Htop|].
    destruct (newVersion_fields r2 (mkVersionInfo version h2)) as (_ & -> & _).
    split; [exact HI|]. unfold Root, root. rewrite E2, E1, last_snoc.
    rewrite List.filter_app. cbn [List.filter Ver]. rewrite Z.eqb_refl.
    rewrite filter_none
      by (eapply Forall_impl; [exact Hlt|]; cbn; intros x Hx; apply Z.eqb_neq; lia).
    rewrite !length_app. repeat split.
Qed.

Lemma SetChildren_same_version_witness :
  (exists once,
     SetChildren node0 (Some (leafAt 3 x07 1)) 3 1 = Some once
     /\ SetChildren once (Some (leafAt 3 x07 1)) 3 1 = Some once)
  /\ (exists first second,
        SetChildren node0 (Some (leafAt 3 x07 1)) 3 1 = Some first
        /\ SetChildren first (Some (leafAt 12 x09 1)) 12 1 = Some second
        /\ Versions second
           = [mkVersionInfo 1
                (Some (replicate 3 x00 ++ [x07] ++ replicate 8 x00
                       ++ [x09] ++ replicate 3 x00))]).
Proof.
  assert (wf node0) as Hwf by (split; reflexivity).
  destruct (SetChildren_same_version node0 (Some (leafAt 3 x07 1))
              (Some (leafAt 12 x09 1)) 3 12 1 Hwf ltac:(lia) ltac:(lia))
    as [Honce Htwo].
  split; [exact Honce|].
  destruct Htwo as (first & second & attached & both & rebuilt & h
                    & HS1 & HS2 & _ & _ & _ & _ & _ & _ & _ & _ & _).
  - vm_compute. reflexivity.
  - constructor.
  - constructor.
  - exists first, second. split; [exact HS1|]. split; [exact HS2|].
    vm_compute in HS1. injection HS1 as <-.
    vm_compute in HS2. injection HS2 as <-. reflexivity.
Defined.

(** C7 as stated fails in its second half without the conditions on the
    node.  On the ledger 3, 5 two [SetChildren] at version 3 leave
    3, 5, 3: two entries for that version, since [newVersion] appends when
    the last version differs.  And on a node with a stale slot (slot 0
    reads nil) the hash minted by two [SetChildren] under slot 1 is not
    the root a full rebuild computes with both children attached. *)
Lemma SetChildren_same_version_needs_conditions :
  (first ← SetChildren (withLedger [3; 5]) (Some (leafAt 3 x07 3)) 3 3;
   second ← SetChildren first (Some (leafAt 12 x09 3)) 12 3;
   Some (map Ver (Versions second))) = Some [3; 5; 3]
  /\ (first ← SetChildren (withLedger [3; 5]) (Some (leafAt 3 x07 3)) 3 3;
      second ← SetChildren first (Some (leafAt 12 x09 3)) 12 3;
      Some (length (List.filter (fun e => Ver e =? 3) (Versions second))))
     = Some 2%nat
  /\ (first ← SetChildren marked3 (Some (leafAt 12 x07 1)) 12 1;
      second ← SetChildren first (Some (leafAt 14 x09 1)) 14 1;
      attached ← SetChildrenOnly marked3 (Some (leafAt 12 x07 1)) 12 1;
      both ← SetChildrenOnly attached (Some (leafAt 14 x09 1)) 14 1;
      rebuilt ← ComputeInternalHash both;
      h ← topHash rebuilt;
      Some (Root second, h))
     = Some (Some [x00; x00; x00; x00; x07; x00; x09; x00],
             Some [x00; x00; x00; x00; x00; x00; x00; x00;
                   x00; x00; x00; x00; x07; x00; x09; x00]).
Proof. repeat split; vm_compute; reflexivity. Qed.

(** ** C8: the persisted projection and back *)

Lemma index_Some_range {A : Type} (l : list A) (i : Z) (x : A) :
  index l i = Some x -> 0 <= i < len l /\ l !! Z.to_nat i = Some x.
Proof.
  unfold index, len. destruct (Z.leb_spec 0 i) as [Hi|Hi]; [|discriminate].
  intros Hl. split; [|exact Hl]. apply lookup_lt_Some in Hl. lia.
Qed.

Lemma ToStorageTreeNode_body_spec (node : TreeNode) (i : Z) (c : option TreeNode)
    (children : list (option StorageLeafNode)) :
  index (Children node) i = Some c -> index children i = Some None ->
  ToStorageTreeNode_body node i children
  = Some (<[Z.to_nat i := persistedLeaf c]> children).
Proof.
  intros Hc Hi. unfold ToStorageTreeNode_body. rewrite Hc. cbn [mbind option_bind].
  apply index_Some_range in Hi as [Hr Hi].
  destruct c as [c|]; cbn [persistedLeaf].
  - by apply store_ok.
  - by rewrite list_insert_id.
Qed.

Lemma ToTreeNode_body_spec (node : StorageTreeNode) (depth : Z) (nh : nilHashes)
    (hs : Hasher) (i : Z) (c : option StorageLeafNode) (treeNode : TreeNode) :
  index (StorageChildren node) i = Some c ->
  index (Children treeNode) i = Some None ->
  ToTreeNode_body node depth nh hs i treeNode
  = Some (set_Children treeNode
            (<[Z.to_nat i := restoredChild depth nh hs c]> (Children treeNode))).
Proof.
  intros Hc Hi. unfold ToTreeNode_body. rewrite Hc. cbn [mbind option_bind].
  apply index_Some_range in Hi as [Hr Hi].
  destruct c as [leaf|]; cbn [restoredChild].
  - destruct (0 <? len (LeafVersions leaf)).
    + by rewrite store_ok.
    + rewrite list_insert_id by done. by destruct treeNode.
  - rewrite list_insert_id by done. by destruct treeNode.
Qed.

Lemma for_loop_step {S : Type} (fuel : nat) (cond : Z -> bool) (next : Z -> Z)
    (body : Z -> S -> option S) (i : Z) (s : S) :
  for_loop (Datatypes.S fuel) cond next body i s
  = if cond i then s' ← body i s; for_loop fuel cond next body (next i) s'
    else Some s.
Proof. reflexivity. Qed.

(** Filling an array of nil pointers from the left, one slot a step. *)
Lemma fill_step {A B : Type} (F : A -> option B) (cs : list A) (k : nat) (c : A) :
  cs !! k = Some c ->
  <[k := F c]> ((F <$> take k cs) ++ replicate (length cs - k) None)
  = (F <$> take (S k) cs) ++ replicate (length cs - S k) None.
Proof.
  intros Hc. pose proof (lookup_lt_Some _ _ _ Hc) as Hlt.
  rewrite (take_S_r _ _ _ Hc), fmap_app, <- app_assoc. cbn [fmap list_fmap app].
  replace (length cs - k)%nat with (S (length cs - S k)) by lia.
  cbn [replicate].
  assert (length (F <$> take k cs) = k) as Hlen
    by (rewrite length_fmap, length_take; lia).
  rewrite <- Hlen at 1. replace (length (F <$> take k cs))
    with (length (F <$> take k cs) + 0)%nat by lia.
  by rewrite insert_app_r.
Qed.

Lemma fill_lookup {A B : Type} (F : A -> option B) (cs : list A) (k : nat) :
  (k < length cs)%nat ->
  ((F <$> take k cs) ++ replicate (length cs - k) None) !! k = Some None.
Proof.
  intros Hlt.
  assert (length (F <$> take k cs) = k) as Hlen
    by (rewrite length_fmap, length_take; lia).
  rewrite lookup_app_r by lia. rewrite Hlen, Nat.sub_diag.
  replace (length cs - k)%nat with (S (length cs - S k)) by lia. reflexivity.
Qed.

Lemma index_nat {A : Type} (l : list A) (k : nat) : index l (Z.of_nat k) = l !! k.
Proof.
  unfold index. destruct (Z.leb_spec 0 (Z.of_nat k)); [|lia]. by rewrite Nat2Z.id.
Qed.

Lemma ToStorageTreeNode_loop (node : TreeNode) (m : nat) :
  forall k, (k + m = length (Children node))%nat -> length (Children node) = 16%nat ->
    for_loop (S m) (fun i => i <? 16) (fun i => i + 1)
      (ToStorageTreeNode_body node) (Z.of_nat k)
      ((persistedLeaf <$> take k (Children node))
       ++ replicate (length (Children node) - k) None)
    = Some (persistedLeaf <$> Children node).
Proof.
  induction m as [|m IH]; intros k Hk Hlen; rewrite for_loop_step.
  - replace (Z.of_nat k <? 16) with false by (symmetry; apply Z.ltb_ge; lia).
    rewrite take_ge by lia. replace (length (Children node) - k)%nat with 0%nat by lia.
    by rewrite app_nil_r.
  - replace (Z.of_nat k <? 16) with true by (symmetry; apply Z.ltb_lt; lia).
    destruct (lookup_lt_is_Some_2 (Children node) k ltac:(lia)) as [c Hc].
    erewrite ToStorageTreeNode_body_spec;
      [| rewrite index_nat; exact Hc | rewrite index_nat; apply fill_lookup; lia].
    cbn [mbind option_bind]. rewrite Nat2Z.id, fill_step by exact Hc.
    replace (Z.of_nat k + 1) with (Z.of_nat (S k)) by lia.
    apply IH; lia.
Qed.

Lemma ToTreeNode_loop (node : StorageTreeNode) (depth : Z) (nh : nilHashes)
    (hs : Hasher) (treeNode : TreeNode) (m : nat) :
  forall k, (k + m = length (StorageChildren node))%nat ->
    length (StorageChildren node) = 16%nat ->
    for_loop (S m) (fun i => i <? 16) (fun i => i + 1)
      (ToTreeNode_body node depth nh hs) (Z.of_nat k)
      (set_Children treeNode
         ((restoredChild depth nh hs <$> take k (StorageChildren node))
          ++ replicate (length (StorageChildren node) - k) None))
    = Some (set_Children treeNode
              (restoredChild depth nh hs <$> StorageChildren node)).
Proof.
  induction m as [|m IH]; intros k Hk Hlen; rewrite for_loop_step.
  - replace (Z.of_nat k <? 16) with false by (symmetry; apply Z.ltb_ge; lia).
    rewrite take_ge by lia.
    replace (length (StorageChildren node) - k)%nat with 0%nat by lia.
    by rewrite app_nil_r.
  - replace (Z.of_nat k <? 16) with true by (symmetry; apply Z.ltb_lt; lia).
    destruct (lookup_lt_is_Some_2 (StorageChildren node) k ltac:(lia)) as [c Hc].
    erewrite ToTreeNode_body_spec;
      [| rewrite index_nat; exact Hc
       | rewrite index_nat; cbn [set_Children Children]; apply fill_lookup; lia].
    cbn [mbind option_bind set_Children Children].
    rewrite Nat2Z.id, fill_step by exact Hc.
    replace (Z.of_nat k + 1) with (Z.of_nat (S k)) by lia.
    apply (IH (S k)); lia.
Qed.

Lemma ToStorageTreeNode_eq (node : TreeNode) :
  wf node ->
  ToStorageTreeNode node
  = Some (mkStorageTreeNode (persistedLeaf <$> Children node) (Internals node)
            (Versions node) (path node)).
Proof.
  intros [Hc _]. unfold ToStorageTreeNode.
  pose proof (ToStorageTreeNode_loop node 16 0%nat) as H.
  rewrite Hc in H. specialize (H eq_refl eq_refl).
  change (for_loop 17 (fun i => i <? 16) (fun i => i + 1)
            (ToStorageTreeNode_body node) 0 (replicate 16 None)
          = Some (persistedLeaf <$> Children node)) in H.
  rewrite H. reflexivity.
Qed.

Lemma ToTreeNode_eq (st : StorageTreeNode) (depth : Z) (nh : nilHashes) (hs : Hasher) :
  length (StorageChildren st) = 16%nat ->
  ToTreeNode st depth nh hs
  = Some (mkTreeNode (restoredChild depth nh hs <$> StorageChildren st)
            (StorageInternals st) (StorageVersions st)
            (nilHashes_Get nh depth) (nilHashes_Get nh (uint8 (depth + 4)))
            (StoragePath st) depth hs false [] []).
Proof.
  intros Hc. unfold ToTreeNode.
  pose proof (ToTreeNode_loop st depth nh hs
                (mkTreeNode (replicate 16 None) (StorageInternals st)
                   (StorageVersions st) (nilHashes_Get nh depth)
                   (nilHashes_Get nh (uint8 (depth + 4))) (StoragePath st)
                   depth hs false [] []) 16 0%nat) as H.
  rewrite Hc in H. specialize (H eq_refl eq_refl).
  exact H.
Qed.

(** C8 (as amended). The round trip through [ToStorageTreeNode] and
    [ToTreeNode], at the node's own depth, returns a node with the same
    path, the same 14 slots and the same ledger.  A non-nil child whose
    ledger is not empty comes back as a temporary node that carries this
    ledger and has neither children nor slots; a non-nil child whose
    ledger is empty comes back as nil, and so does a nil child. *)
Theorem storage_round_trip (node : TreeNode) (nh : nilHashes) (hs : Hasher) :
  wf node ->
  exists st back,
    ToStorageTreeNode node = Some st
    /\ ToTreeNode st (depth node) nh hs = Some back
    /\ path back = path node
    /\ Internals back = Internals node
    /\ Versions back = Versions node
    /\ forall i, 0 <= i < 16 ->
         (forall c, index (Children node) i = Some (Some c) -> Versions c <> [] ->
            exists c', index (Children back) i = Some (Some c')
              /\ Versions c' = Versions c /\ temporary c' = true
              /\ Children c' = replicate 16 None
              /\ Internals c' = replicate 14 None)
         /\ (forall c, index (Children node) i = Some (Some c) -> Versions c = [] ->
               index (Children back) i = Some None)
         /\ (index (Children node) i = Some None ->
               index (Children back) i = Some None).
Proof.
  intros Hwf. eexists. eexists.
  split; [by apply ToStorageTreeNode_eq|].
  split; [apply ToTreeNode_eq; cbn; rewrite length_fmap; apply Hwf|].
  cbn [path Internals Versions Children StoragePath StorageInternals
         StorageVersions StorageChildren].
  repeat split.
  - intros c Hc Hne. apply index_Some_range in Hc as [_ Hc].
    unfold index. destruct (Z.leb_spec 0 i); [|lia].
    rewrite !list_lookup_fmap, Hc. cbn.
    destruct (Z.ltb_spec 0 (len (Versions c))) as [_|Hle].
    + eexists. repeat split.
    + unfold len in Hle. destruct (Versions c); [done | cbn in Hle; lia].
  - intros c Hc He. apply index_Some_range in Hc as [_ Hc].
    unfold index. destruct (Z.leb_spec 0 i); [|lia].
    rewrite !list_lookup_fmap, Hc. cbn. by rewrite He.
  - intros Hc. apply index_Some_range in Hc as [_ Hc].
    unfold index. destruct (Z.leb_spec 0 i); [|lia].
    by rewrite !list_lookup_fmap, Hc.
Qed.

Lemma storage_round_trip_witness :
  exists first st back c',
    SetChildren node0 (Some (leafAt 3 x07 1)) 3 1 = Some first
    /\ ToStorageTreeNode first = Some st
    /\ ToTreeNode st 0 foldedNilHashes concatHasher = Some back
    /\ Versions back = Versions first
    /\ index (Children back) 3 = Some (Some c')
    /\ Versions c' = [mkVersionInfo 1 (Some [x07])]
    /\ temporary c' = true.
Proof.
  destruct (SetChildren node0 (Some (leafAt 3 x07 1)) 3 1) as [first|] eqn:HS;
    [|vm_compute in HS; discriminate HS].
  assert (wf first) as Hwf
    by (vm_compute in HS; injection HS as <-; split; reflexivity).
  assert (index (Children first) 3 = Some (Some (leafAt 3 x07 1))) as Hc
    by (vm_compute in HS; injection HS as <-; reflexivity).
  assert (depth first = 0) as Hd
    by (vm_compute in HS; injection HS as <-; reflexivity).
  destruct (storage_round_trip first foldedNilHashes concatHasher Hwf)
    as (st & back & Hst & Hback & _ & _ & HV & Hch).
  destruct (Hch 3 ltac:(lia)) as [Hkeep _].
  destruct (Hkeep _ Hc ltac:(discriminate)) as (c' & Hc' & HVc & Ht & _).
  rewrite Hd in Hback.
  exists first, st, back, c'. repeat split; try done.
Defined.

(** C8 as stated fails for a child that has no ledger entry yet: it is
    persisted with an empty ledger and [ToTreeNode] leaves its pointer
    nil. *)
Lemma round_trip_drops_child_without_versions :
  index (Children node0_fresh_child) 3
    = Some (Some (NewTreeNode 4 3 foldedNilHashes concatHasher))
  /\ (st ← ToStorageTreeNode node0_fresh_child;
      back ← ToTreeNode st 0 foldedNilHashes concatHasher;
      index (Children back) 3) = Some None
  /\ ~ round_trip_keeps_children node0_fresh_child foldedNilHashes concatHasher.
Proof.
  split; [reflexivity|]. split; [vm_compute; reflexivity|].
  intros (st & back & Hst & Hback & Hall).
  destruct (Hall 3 _ eq_refl) as (c' & Hc' & _).
  vm_compute in Hst. injection Hst as <-.
  vm_compute in Hback. injection Hback as <-.
  vm_compute in Hc'. discriminate Hc'.
Qed.

(** * Further properties of the code *)

(** ** The ledger on its own: any ledger, sorted or not *)

Lemma set_Versions_id (node : TreeNode) : set_Versions node (Versions node) = node.
Proof. by destruct node. Qed.

Lemma Prune_scan_any (oldestVersion : Version) (vs : list VersionInfo) :
  vs <> [] ->
  exists pre e suf, vs = pre ++ e :: suf
    /\ Forall (fun e => Ver e < oldestVersion) pre
    /\ (oldestVersion <= Ver e \/ suf = []).
Proof.
  induction vs as [|e vs IH]; [done|]. intros _.
  destruct vs as [|e' vs].
  - exists [], e, []. repeat split; [constructor | by right].
  - destruct (Z.le_gt_cases oldestVersion (Ver e)) as [Hle|Hgt].
    + exists [], e, (e' :: vs). repeat split; [constructor | by left].
    + destruct (IH ltac:(done)) as (pre & x & suf & E & Hpre & Hx).
      exists (e :: pre), x, suf. rewrite E. repeat split; [by constructor | exact Hx].
Qed.

(** What [Prune] makes of a ledger of two entries or more. *)
Lemma Prune_any_shape (node : TreeNode) (oldestVersion : Version) :
  ledger_fits (Versions node) -> (2 <= length (Versions node))%nat ->
  exists removed k kept,
    Versions node = removed ++ k :: kept
    /\ Prune node oldestVersion
       = Some (set_Versions node (k :: kept), len removed * versionSize)
    /\ Forall (fun e => Ver e < oldestVersion) removed
    /\ (removed <> [] -> Ver k <= oldestVersion).
Proof.
  intros Hfit Hlen. unfold ledger_fits in Hfit.
  destruct (Prune_scan_any oldestVersion (Versions node)) as (pre & e & suf & E & Hpre & He).
  { intros E. rewrite E in Hlen. cbn in Hlen. lia. }
  unfold Prune.
  replace (len (Versions node) <=? 1) with false
    by (symmetry; apply Z.leb_gt; unfold len; lia).
  rewrite E in *. rewrite Prune_loop_result by done. cbn [mbind option_bind].
  destruct pre as [|m pre _] using rev_ind.
  - change (len (@nil VersionInfo)) with 0. cbn [Z.ltb Z.compare mbind option_bind].
    exists [], e, suf. split; [reflexivity|]. split; [|split; [constructor | done]].
    cbn [app] in *. do 2 f_equal.
    change (drop (Z.to_nat 0) (e :: suf)) with (e :: suf).
    cbn [set_Versions Versions].
    pose proof (len_nonneg (e :: suf)).
    rewrite freed_bytes; [change (len (@nil VersionInfo)) with 0; lia | lia | exact Hfit].
  - replace (0 <? len (pre ++ [m])) with true
      by (symmetry; apply Z.ltb_lt; rewrite len_app; unfold len; cbn; lia).
    rewrite index_middle. cbn [mbind option_bind].
    apply Forall_app in Hpre as [Hpre Hm]. apply Forall_cons in Hm as [Hm _].
    rewrite Z.gtb_ltb.
    destruct (Z.ltb_spec oldestVersion (Ver e)) as [Hgt|Hle].
    + exists pre, m, (e :: suf).
      split; [by rewrite <- app_assoc|]. split; [|split; [exact Hpre | lia]].
      replace (len (pre ++ [m]) - 1) with (len pre)
        by (rewrite len_app; unfold len; cbn; lia).
      rewrite <- app_assoc. cbn [app]. rewrite drop_len_app.
      cbn [set_Versions Versions]. do 2 f_equal.
      rewrite <- app_assoc in Hfit. cbn [app] in Hfit.
      rewrite freed_bytes; [rewrite len_app; lia | | exact Hfit].
      rewrite len_app. pose proof (len_nonneg pre).
      pose proof (len_nonneg (m :: e :: suf)). lia.
    + exists (pre ++ [m]), e, suf. split; [reflexivity|]. split.
      * rewrite drop_len_app. cbn [set_Versions Versions]. do 2 f_equal.
        rewrite freed_bytes; [rewrite (len_app (pre ++ [m])); lia | | exact Hfit].
        rewrite (len_app (pre ++ [m])). pose proof (len_nonneg (pre ++ [m])).
        pose proof (len_nonneg (e :: suf)). lia.
      * split; [|done]. apply Forall_app. split; [exact Hpre | by constructor].
Qed.

(** X1. On any ledger, sorted or not, [Prune] removes a prefix made of
    entries older than [oldestVersion] only, and answers 40 bytes for each
    of them.  It never removes the latest entry, nor empties a ledger, and
    [Root] stays.  When it removes anything, the first entry it keeps is
    at or before [oldestVersion]. *)
Theorem Prune_removes_only_older (node : TreeNode) (oldestVersion : Version) :
  ledger_fits (Versions node) ->
  exists node' freed removed,
    Prune node oldestVersion = Some (node', freed)
    /\ Versions node = removed ++ Versions node'
    /\ Forall (fun e => Ver e < oldestVersion) removed
    /\ freed = len removed * versionSize
    /\ (Versions node <> [] -> Versions node' <> [])
    /\ last (Versions node') = last (Versions node)
    /\ Root node' = Root node
    /\ (removed <> [] ->
        exists k kept, Versions node' = k :: kept /\ Ver k <= oldestVersion)
    /\ Children node' = Children node /\ Internals node' = Internals node.
Proof.
  intros Hfit.
  destruct (Nat.le_gt_cases (length (Versions node)) 1) as [Hle|Hgt].
  - exists node, 0, []. unfold Prune.
    replace (len (Versions node) <=? 1) with true
      by (symmetry; apply Z.leb_le; unfold len; lia).
    repeat split; try done.
  - destruct (Prune_any_shape node oldestVersion Hfit ltac:(lia))
      as (removed & k & kept & E & HP & Hold & Hk).
    exists (set_Versions node (k :: kept)), (len removed * versionSize), removed.
    assert (last (k :: kept) = last (Versions node)) as Hlast.
    { rewrite E, last_app_cons, !last_cons. by destruct (last kept). }
    rewrite Root_set_Versions by exact Hlast. cbn [set_Versions Versions
      Children Internals].
    repeat split; try done. intros Hne. exists k, kept. split; [reflexivity | auto].
Qed.

Lemma Prune_removes_only_older_witness :
  exists node',
    Prune (withLedger [7; 1; 9; 2]) 8 = Some (node', 40)
    /\ map Ver (Versions node') = [1; 9; 2].
Proof.
  assert (ledger_fits (Versions (withLedger [7; 1; 9; 2]))) as Hfit
    by (vm_compute; reflexivity).
  destruct (Prune_removes_only_older (withLedger [7; 1; 9; 2]) 8 Hfit)
    as (node' & freed & removed & HP & _).
  exists node'. vm_compute in HP. injection HP as <- <-. split; reflexivity.
Defined.

Lemma Rollback_loop_stop_last (targetVersion : Version)
    (keep after : list VersionInfo) (fuel : nat) (next : bool) :
  (forall k, last keep = Some k -> Ver k <= targetVersion) ->
  Rollback_loop (S fuel) (keep ++ after) targetVersion (len keep - 1) next
  = Some (len keep - 1, next).
Proof.
  intros Hkeep. cbn [Rollback_loop].
  destruct keep as [|k keep _] using rev_ind; [reflexivity|].
  specialize (Hkeep k (last_snoc _ _)).
  pose proof (len_nonneg keep). rewrite len_app. change (len [k]) with 1.
  replace (0 <=? len keep + 1 - 1) with true by (symmetry; apply Z.leb_le; lia).
  replace (len keep + 1 - 1) with (len keep) by lia.
  rewrite <- app_assoc. cbn [app]. rewrite index_middle. cbn [mbind option_bind].
  replace (Ver k <=? targetVersion) with true by (symmetry; by apply Z.leb_le).
  reflexivity.
Qed.

(** Any ledger ends in a longest run of entries newer than a version. *)
Lemma newest_run (targetVersion : Version) (vs : list VersionInfo) :
  exists keep rem, vs = keep ++ rem
    /\ Forall (fun e => targetVersion < Ver e) rem
    /\ (forall k, last keep = Some k -> Ver k <= targetVersion).
Proof.
  induction vs as [|x vs IH] using rev_ind.
  - exists [], []. repeat split; [constructor | discriminate].
  - destruct (Z.le_gt_cases (Ver x) targetVersion) as [Hle|Hgt].
    + exists (vs ++ [x]), []. rewrite app_nil_r. repeat split; [constructor|].
      intros k Hk. rewrite last_snoc in Hk. by injection Hk as <-.
    + destruct IH as (keep & rem & -> & Hrem & Hkeep).
      exists keep, (rem ++ [x]). rewrite app_assoc. repeat split; [|exact Hkeep].
      apply Forall_app. split; [exact Hrem | by constructor].
Qed.

(** [Rollback] on a ledger split at its newest run. *)
Lemma Rollback_at (node : TreeNode) (targetVersion : Version)
    (keep rem : list VersionInfo) :
  Versions node = keep ++ rem ->
  Forall (fun e => targetVersion < Ver e) rem ->
  (forall k, last keep = Some k -> Ver k <= targetVersion) ->
  Rollback node targetVersion
  = Some (set_Versions node keep,
          (0 <? len rem,
           uint64 (int (int (len (keep ++ rem) * versionSize)
                        - int (len keep * versionSize))))).
Proof.
  intros E Hrem Hkeep.
  unfold Rollback. pose proof (len_nonneg keep). pose proof (len_nonneg rem).
  destruct (Z.eqb_spec (len (Versions node)) 0) as [Hz|Hne].
  - rewrite E, len_app in Hz.
    assert (keep = [] /\ rem = []) as [-> ->]
      by (unfold len in *; split; [destruct keep | destruct rem]; cbn in *; done || lia).
    rewrite <- (set_Versions_id node) at 1. rewrite E. reflexivity.
  - rewrite E.
    replace (S (length (keep ++ rem))) with (length rem + S (length keep))%nat
      by (rewrite length_app; lia).
    rewrite len_app.
    rewrite <- (app_nil_r rem) at 2 4.
    rewrite Rollback_loop_skip by done.
    rewrite (app_nil_r rem), Rollback_loop_stop_last by done.
    cbn [mbind option_bind fst snd orb].
    replace (len keep - 1 + 1) with (len keep) by lia.
    rewrite take_len_app. cbn [set_Versions Versions]. reflexivity.
Qed.

Lemma Rollback_any_shape (node : TreeNode) (targetVersion : Version) :
  exists keep rem,
    Versions node = keep ++ rem
    /\ Forall (fun e => targetVersion < Ver e) rem
    /\ (forall k, last keep = Some k -> Ver k <= targetVersion)
    /\ Rollback node targetVersion
       = Some (set_Versions node keep,
               (0 <? len rem,
                uint64 (int (int (len (keep ++ rem) * versionSize)
                             - int (len keep * versionSize))))).
Proof.
  destruct (newest_run targetVersion (Versions node)) as (keep & rem & E & Hrem & Hkeep).
  exists keep, rem. split; [exact E|]. split; [exact Hrem|]. split; [exact Hkeep|].
  by apply Rollback_at.
Qed.

(** X2. On any ledger, sorted or not, [Rollback] removes the longest run
    of entries newer than [targetVersion] that ends the ledger, and
    nothing else: the entry it stops at is the latest one left.  It
    answers [true] iff the run is not empty, with 40 bytes for each entry
    of the run, and leaves children and slots alone. *)
Theorem Rollback_removes_newest_run (node : TreeNode) (targetVersion : Version) :
  ledger_fits (Versions node) ->
  exists node' changed freed rem,
    Rollback node targetVersion = Some (node', (changed, freed))
    /\ Versions node = Versions node' ++ rem
    /\ Forall (fun e => targetVersion < Ver e) rem
    /\ (forall k, last (Versions node') = Some k -> Ver k <= targetVersion)
    /\ (changed = true <-> rem <> [])
    /\ freed = len rem * versionSize
    /\ Children node' = Children node /\ Internals node' = Internals node.
Proof.
  intros Hfit.
  destruct (Rollback_any_shape node targetVersion) as (keep & rem & E & Hrem & Hkeep & HR).
  exists (set_Versions node keep), (0 <? len rem), (len rem * versionSize), rem.
  unfold ledger_fits in Hfit. rewrite E in Hfit.
  pose proof (len_nonneg keep). pose proof (len_nonneg rem).
  split.
  { rewrite HR. do 3 f_equal. rewrite freed_bytes; rewrite ?len_app; try lia.
    by rewrite <- len_app. }
  cbn [set_Versions Versions Children Internals]. repeat split; try done.
  - intros Hc. apply Z.ltb_lt in Hc. intros ->. unfold len in Hc. cbn in Hc. lia.
  - intros Hne. apply Z.ltb_lt. unfold len. destruct rem; [done | cbn; lia].
Qed.

Lemma Rollback_removes_newest_run_witness :
  exists node',
    Rollback (withLedger [9; 1; 7; 8]) 5 = Some (node', (true, 80))
    /\ map Ver (Versions node') = [9; 1].
Proof.
  assert (ledger_fits (Versions (withLedger [9; 1; 7; 8]))) as Hfit
    by (vm_compute; reflexivity).
  destruct (Rollback_removes_newest_run (withLedger [9; 1; 7; 8]) 5 Hfit)
    as (node' & changed & freed & rem & HR & _).
  exists node'. vm_compute in HR. injection HR as <- <- <-. split; reflexivity.
Defined.

(** X3. [Rollback] to a version that is not below the latest entry
    changes nothing and answers [(false, 0)]; so does a second [Rollback]
    to the same version, whatever the first one removed. *)
Theorem Rollback_is_stable (node first : TreeNode) (targetVersion : Version)
    (changed : bool) (freed : Z) :
  ((forall k, last (Versions node) = Some k -> Ver k <= targetVersion) ->
   Rollback node targetVersion = Some (node, (false, 0)))
  /\ (Rollback node targetVersion = Some (first, (changed, freed)) ->
      Rollback first targetVersion = Some (first, (false, 0))).
Proof.
  assert (forall n : TreeNode,
            (forall k, last (Versions n) = Some k -> Ver k <= targetVersion) ->
            Rollback n targetVersion = Some (n, (false, 0))) as Hstable.
  { intros n Hlast.
    destruct (Rollback_any_shape n targetVersion) as (keep & rem & E & Hrem & _ & HR).
    assert (rem = []) as ->.
    { destruct rem as [|x rem _] using rev_ind; [reflexivity|].
      rewrite E, app_assoc, last_snoc in Hlast. specialize (Hlast x eq_refl).
      apply Forall_app in Hrem as [_ Hx]. apply Forall_cons in Hx as [Hx _]. lia. }
    rewrite app_nil_r in *. rewrite HR, <- E, set_Versions_id.
    replace (int (len (Versions n) * versionSize) - int (len (Versions n) * versionSize))
      with 0 by lia.
    reflexivity. }
  split; [apply Hstable|].
  destruct (Rollback_any_shape node targetVersion) as (keep & rem & E & _ & Hkeep & HR).
  rewrite HR. intros [= <- _ _]. by apply Hstable.
Qed.

Lemma Rollback_is_stable_witness :
  Rollback (withLedger [1; 3]) 3 = Some (withLedger [1; 3], (false, 0))
  /\ Rollback (withLedger [1]) 2 = Some (withLedger [1], (false, 0)).
Proof.
  destruct (Rollback_is_stable (withLedger [1; 3]) (withLedger [1; 3]) 3 false 0)
    as [H1 _].
  destruct (Rollback_is_stable (withLedger [1; 5]) (withLedger [1]) 2 true 40)
    as [_ H2].
  split; [apply H1 | apply H2; reflexivity].
  intros k Hk. vm_compute in Hk. injection Hk as <-. cbn. lia.
Defined.

(** X4. [Rollback] undoes a [Set]: when no entry of the ledger is the
    latest one above [targetVersion], a [Set] at a version above
    [targetVersion] followed by [Rollback] to [targetVersion] gives the
    node back as it was, answering [true] and the 40 bytes of the entry. *)
Theorem Rollback_undoes_Set (node : TreeNode) (hash : slice)
    (version targetVersion : Version) :
  (forall k, last (Versions node) = Some k -> Ver k <= targetVersion) ->
  targetVersion < version ->
  (len (Versions node) + 1) * versionSize < 2 ^ 63 ->
  Rollback (TreeNode_Set node hash version) targetVersion = Some (node, (true, 40)).
Proof.
  intros Hlast Hlt Hfit.
  assert (TreeNode_Set node hash version
          = set_Versions node (Versions node ++ [mkVersionInfo version hash])) as ->.
  { unfold TreeNode_Set, newVersion.
    destruct (last (Versions node)) as [k|] eqn:Ek; [|reflexivity].
    specialize (Hlast k eq_refl). cbn [Ver].
    destruct (Z.eqb_spec (Ver k) version); [lia | reflexivity]. }
  rewrite (Rollback_at _ targetVersion (Versions node) [mkVersionInfo version hash]);
    [| reflexivity | by repeat constructor | exact Hlast].
  pose proof (len_nonneg (Versions node)).
  rewrite freed_bytes; rewrite ?len_app; change (len [mkVersionInfo version hash]) with 1;
    [| lia | lia].
  replace (len (Versions node) + 1 - len (Versions node)) with 1 by lia.
  change (set_Versions (set_Versions node _) (Versions node))
    with (set_Versions node (Versions node)).
  by rewrite set_Versions_id.
Qed.

Lemma Rollback_undoes_Set_witness :
  Rollback (TreeNode_Set (withLedger [1; 3]) (Some [x09]) 7) 4
  = Some (withLedger [1; 3], (true, 40)).
Proof.
  apply Rollback_undoes_Set.
  - intros k Hk. vm_compute in Hk. injection Hk as <-. cbn. lia.
  - lia.
  - vm_compute. reflexivity.
Defined.

Lemma ledger_sorted_app_r (l1 l2 : list VersionInfo) :
  ledger_sorted (l1 ++ l2) -> ledger_sorted l2.
Proof.
  unfold ledger_sorted. induction l1 as [|e l1 IH]; cbn; intros Hs; [exact Hs|].
  apply StronglySorted_inv in Hs as [Hs _]. by apply IH.
Qed.

(** X5. On a sorted ledger, what [Prune] leaves is sorted, and pruning it
    again at the same version removes nothing more. *)
Theorem Prune_is_idempotent (node first : TreeNode) (oldestVersion : Version)
    (freed : Z) :
  ledger_sorted (Versions node) -> ledger_fits (Versions node) ->
  Prune node oldestVersion = Some (first, freed) ->
  ledger_sorted (Versions first)
  /\ Prune first oldestVersion = Some (first, 0).
Proof.
  intros Hs Hfit HP.
  assert (forall n : TreeNode, (length (Versions n) <= 1)%nat ->
            Prune n oldestVersion = Some (n, 0)) as Hshort.
  { intros n Hn. unfold Prune.
    replace (len (Versions n) <=? 1) with true; [reflexivity|].
    symmetry. apply Z.leb_le. unfold len. lia. }
  destruct (Nat.le_gt_cases (length (Versions node)) 1) as [Hle|Hgt].
  { rewrite (Hshort node Hle) in HP. injection HP as <- _.
    split; [exact Hs | by apply Hshort]. }
  destruct (Prune_shape node oldestVersion Hs Hfit ltac:(lia))
    as (removed & kept & E & HP' & Hshape).
  rewrite HP' in HP. injection HP as <- _. cbn [set_Versions Versions].
  assert (ledger_sorted kept) as Hsk by (rewrite E in Hs; by apply ledger_sorted_app_r in Hs).
  split; [exact Hsk|].
  destruct (Nat.le_gt_cases (length kept) 1) as [Hle|Hgt2]; [by apply Hshort|].
  assert (ledger_fits kept) as Hfk.
  { unfold ledger_fits in *. rewrite E, len_app in Hfit.
    pose proof (len_nonneg removed). unfold versionSize in *. lia. }
  destruct (Prune_shape (set_Versions node kept) oldestVersion Hsk Hfk ltac:(cbn; lia))
    as (removed' & kept' & E' & HP2 & Hshape').
  cbn [set_Versions Versions] in E', HP2.
  assert (removed' = []) as ->.
  { destruct Hshape' as [[-> _] | (n' & l2' & -> & Hn' & _)]; [reflexivity|].
    assert (n' ∈ kept) as Hin
      by (rewrite E'; apply elem_of_app; right; apply list_elem_of_here).
    destruct Hshape as [[_ Hall] | (n & l2 & -> & Hn & Hl2)].
    - rewrite Forall_forall in Hall. specialize (Hall n' Hin). lia.
    - destruct removed' as [|r removed']; [reflexivity|].
      injection E' as <- ->. rewrite Forall_forall in Hl2.
      assert (oldestVersion < Ver n') as Hgt'; [|lia].
      apply Hl2, elem_of_app. right. apply list_elem_of_here. }
  cbn [app] in E'. subst kept'. rewrite HP2. reflexivity.
Qed.

Lemma Prune_is_idempotent_witness :
  exists first,
    Prune (withLedger [1; 3; 5; 7]) 4 = Some (first, 40)
    /\ Prune first 4 = Some (first, 0).
Proof.
  assert (ledger_sorted (Versions (withLedger [1; 3; 5; 7]))) as Hs
    by (unfold ledger_sorted; cbn; repeat constructor).
  assert (ledger_fits (Versions (withLedger [1; 3; 5; 7]))) as Hfit
    by (vm_compute; reflexivity).
  eexists. split; [vm_compute; reflexivity|].
  eapply (Prune_is_idempotent (withLedger [1; 3; 5; 7]) _ 4 40 Hs Hfit).
  vm_compute. reflexivity.
Defined.

Lemma Prune_any_result (node : TreeNode) (oldestVersion : Version) :
  ledger_fits (Versions node) ->
  exists removed kept,
    Versions node = removed ++ kept
    /\ Prune node oldestVersion
       = Some (set_Versions node kept, len removed * versionSize).
Proof.
  intros Hfit.
  destruct (Nat.le_gt_cases (length (Versions node)) 1) as [Hle|Hgt].
  - exists [], (Versions node). split; [reflexivity|]. unfold Prune.
    replace (len (Versions node) <=? 1) with true
      by (symmetry; apply Z.leb_le; unfold len; lia).
    by rewrite set_Versions_id.
  - destruct (Prune_any_shape node oldestVersion Hfit ltac:(lia))
      as (removed & k & kept & E & HP & _).
    by exists removed, (k :: kept).
Qed.

Lemma Size_value (node : TreeNode) :
  size_fits node ->
  Size node
  = len (Versions node) * versionSize
    + (if temporary node then 0 else hashSize * len (Internals node)).
Proof.
  unfold size_fits, Size, versionSize, hashSize. intros Hfit.
  pose proof (len_nonneg (Versions node)). pose proof (len_nonneg (Internals node)).
  destruct (temporary node).
  - rewrite int_small, uint64_small by lia. lia.
  - rewrite (int_small (len (Versions node) * 40)) by lia.
    rewrite (int_small (32 * len (Internals node))) by lia.
    rewrite int_small, uint64_small by lia. reflexivity.
Qed.

(** X6. The bytes [Prune] and [Rollback] answer are what [Size] goes down
    by, on any ledger and whether the node is archived or not. *)
Theorem freed_is_Size_decrease (node node' : TreeNode) (version : Version)
    (changed : bool) (freed : Z) :
  size_fits node ->
  (Prune node version = Some (node', freed) -> Size node = Size node' + freed)
  /\ (Rollback node version = Some (node', (changed, freed)) ->
      Size node = Size node' + freed).
Proof.
  intros Hfit.
  assert (ledger_fits (Versions node)) as Hl.
  { unfold size_fits, ledger_fits, hashSize in *.
    pose proof (len_nonneg (Internals node)). lia. }
  assert (forall kept other : list VersionInfo,
            Versions node = kept ++ other \/ Versions node = other ++ kept ->
            Size node = Size (set_Versions node kept) + len other * versionSize) as Hsize.
  { intros kept other E.
    assert (len (Versions node) = len kept + len other) as El
      by (destruct E as [-> | ->]; rewrite len_app; lia).
    pose proof (len_nonneg other).
    rewrite (Size_value node Hfit), Size_value.
    - cbn [set_Versions Versions temporary Internals]. rewrite El. lia.
    - unfold size_fits, versionSize in *.
      cbn [set_Versions Versions temporary Internals]. lia. }
  split.
  - destruct (Prune_any_result node version Hl) as (removed & kept & E & HP).
    rewrite HP. intros [= <- <-]. apply Hsize. by right.
  - destruct (Rollback_any_shape node version) as (keep & rem & E & _ & _ & HR).
    rewrite HR. intros [= <- _ <-].
    unfold ledger_fits in Hl. rewrite E in Hl.
    pose proof (len_nonneg keep). pose proof (len_nonneg rem).
    rewrite len_app in Hl.
    rewrite freed_bytes; rewrite ?len_app; [| lia | exact Hl].
    replace (len keep + len rem - len keep) with (len rem) by lia.
    apply Hsize. by left.
Qed.

Lemma freed_is_Size_decrease_witness :
  Prune (withLedger [1; 3; 5]) 4 = Some (withLedger [3; 5], 40)
  /\ Size (withLedger [1; 3; 5]) = Size (withLedger [3; 5]) + 40
  /\ Rollback (withLedger [1; 3; 5]) 1 = Some (withLedger [1], (true, 80))
  /\ Size (withLedger [1; 3; 5]) = Size (withLedger [1]) + 80.
Proof.
  assert (size_fits (withLedger [1; 3; 5])) as Hfit by (vm_compute; reflexivity).
  destruct (freed_is_Size_decrease (withLedger [1; 3; 5]) (withLedger [3; 5])
              4 true 40 Hfit) as [HP _].
  destruct (freed_is_Size_decrease (withLedger [1; 3; 5]) (withLedger [1])
              1 true 80 Hfit) as [_ HR].
  split; [reflexivity|]. split; [apply HP; reflexivity|].
  split; [reflexivity|]. apply HR. reflexivity.
Defined.

(** ** Minting versions *)

Lemma latestVersion_snoc (node : TreeNode) (pre : list VersionInfo) (l : VersionInfo) :
  Versions node = pre ++ [l] -> latestVersion node = Ver l.
Proof. intros E. unfold latestVersion. by rewrite E, last_snoc. Qed.

(** X7. [newVersionWithLock] appends an entry only on an empty ledger or
    above the latest version, and leaves the node untouched otherwise: it
    keeps a sorted ledger sorted whatever the version it is given. *)
Theorem newVersionWithLock_keeps_sorted (node : TreeNode) (version : VersionInfo) :
  ledger_sorted (Versions node) ->
  ledger_sorted (Versions (newVersionWithLock node version))
  /\ (Versions node = [] \/ latestVersion node < Ver version ->
      Versions (newVersionWithLock node version) = Versions node ++ [version])
  /\ (Versions node <> [] -> Ver version <= latestVersion node ->
      newVersionWithLock node version = node).
Proof.
  intros Hs. unfold newVersionWithLock.
  destruct (Versions node) as [|l pre _] eqn:E using rev_ind.
  - change (len (@nil VersionInfo) =? 0) with true. cbn [orb set_Versions Versions].
    split; [repeat constructor|]. split; [reflexivity | done].
  - rewrite (latestVersion_snoc node pre l E).
    replace (len (pre ++ [l]) =? 0) with false
      by (symmetry; apply Z.eqb_neq; rewrite len_app; unfold len; cbn; lia).
    cbn [orb]. destruct (Z.ltb_spec (Ver l) (Ver version)) as [Hlt|Hge].
    + cbn [set_Versions Versions]. split; [|split; [reflexivity | lia]].
      apply ledger_sorted_snoc; [exact Hs|].
      destruct (ledger_sorted_middle _ _ _ Hs) as [Hpre _].
      apply Forall_app. split; [|by repeat constructor].
      eapply Forall_impl; [exact Hpre|]. cbn. intros x Hx. lia.
    + rewrite E. split; [exact Hs|]. split; [|reflexivity].
      intros [Hnil | Hlt]; [by destruct pre | lia].
Qed.

Lemma newVersionWithLock_keeps_sorted_witness :
  map Ver (Versions (newVersionWithLock (withLedger [1; 3]) (mkVersionInfo 5 None)))
    = [1; 3; 5]
  /\ newVersionWithLock (withLedger [1; 3]) (mkVersionInfo 2 None) = withLedger [1; 3].
Proof.
  assert (ledger_sorted (Versions (withLedger [1; 3]))) as Hs
    by (unfold ledger_sorted; cbn; repeat constructor).
  destruct (newVersionWithLock_keeps_sorted (withLedger [1; 3]) (mkVersionInfo 5 None) Hs)
    as (_ & Happ & _).
  destruct (newVersionWithLock_keeps_sorted (withLedger [1; 3]) (mkVersionInfo 2 None) Hs)
    as (_ & _ & Hsame).
  split.
  - rewrite Happ; [reflexivity|]. right. cbn. lia.
  - apply Hsame; [discriminate | cbn; lia].
Defined.

(** X8. [newVersion], and so [Set] and [SetChildren], do not check the
    order of versions: minting below the latest version appends the entry
    all the same, and the ledger is no longer sorted. *)
Theorem newVersion_below_latest_unsorts (node : TreeNode) (version : VersionInfo) :
  Versions node <> [] -> Ver version < latestVersion node ->
  Versions (newVersion node version) = Versions node ++ [version]
  /\ ~ ledger_sorted (Versions (newVersion node version)).
Proof.
  intros Hne Hlt. unfold newVersion.
  destruct (Versions node) as [|l pre _] eqn:E using rev_ind; [done|].
  rewrite (latestVersion_snoc node pre l E) in Hlt. rewrite last_snoc.
  destruct (Z.eqb_spec (Ver l) (Ver version)) as [Heq|_]; [lia|].
  cbn [set_Versions Versions]. split; [reflexivity|].
  rewrite <- app_assoc. cbn [app]. intros Hs.
  destruct (ledger_sorted_middle _ _ _ Hs) as [_ Hafter].
  apply Forall_cons in Hafter as [Hafter _]. lia.
Qed.

Lemma newVersion_below_latest_unsorts_witness :
  map Ver (Versions (TreeNode_Set (withLedger [1; 5]) None 3)) = [1; 5; 3]
  /\ ~ ledger_sorted (Versions (TreeNode_Set (withLedger [1; 5]) None 3)).
Proof.
  destruct (newVersion_below_latest_unsorts (withLedger [1; 5]) (mkVersionInfo 3 None))
    as [E Hns]; [discriminate | cbn; lia |].
  split; [reflexivity | exact Hns].
Defined.

(** X9. [PreviousVersion] is 0 on a ledger of fewer than two entries.
    After a version is minted on a ledger that holds an entry, it is the
    former latest version when the new version differs from it, and it is
    what it was when the latest entry is overwritten. *)
Theorem PreviousVersion_after_newVersion (node : TreeNode) (version : VersionInfo) :
  ((length (Versions node) < 2)%nat -> PreviousVersion node = 0)
  /\ (Versions node <> [] -> Ver version <> latestVersion node ->
      PreviousVersion (newVersion node version) = latestVersion node)
  /\ (Versions node <> [] -> Ver version = latestVersion node ->
      PreviousVersion (newVersion node version) = PreviousVersion node).
Proof.
  unfold PreviousVersion. split; [|split].
  - intros Hlen. destruct (Nat.leb_spec (length (Versions node)) 1); [reflexivity | lia].
  - intros Hne Hv. unfold newVersion.
    destruct (Versions node) as [|l pre _] eqn:E using rev_ind; [done|].
    rewrite (latestVersion_snoc node pre l E) in *. rewrite last_snoc.
    destruct (Z.eqb_spec (Ver l) (Ver version)) as [Heq|_]; [congruence|].
    cbn [set_Versions Versions]. rewrite !length_app. cbn [length].
    destruct (Nat.leb_spec (length pre + 1 + 1) 1); [lia|].
    replace (length pre + 1 + 1 - 2)%nat with (length pre) by lia.
    rewrite <- app_assoc. cbn [app]. by rewrite list_lookup_middle.
  - intros Hne Hv. unfold newVersion.
    destruct (Versions node) as [|l pre _] eqn:E using rev_ind; [done|].
    rewrite (latestVersion_snoc node pre l E) in *. rewrite last_snoc.
    rewrite <- Hv, Z.eqb_refl. cbn [set_Versions Versions].
    rewrite insert_last, !length_app. cbn [length].
    destruct (Nat.leb_spec (length pre + 1) 1); [reflexivity|].
    replace (length pre + 1 - 2)%nat with (length pre - 1)%nat by lia.
    rewrite !lookup_app_l by lia. reflexivity.
Qed.

Lemma PreviousVersion_after_newVersion_witness :
  PreviousVersion (TreeNode_Set (withLedger [1; 3]) None 7) = 3
  /\ PreviousVersion (TreeNode_Set (withLedger [1; 3]) None 3) = 1.
Proof.
  destruct (PreviousVersion_after_newVersion (withLedger [1; 3]) (mkVersionInfo 7 None))
    as (_ & Hnew & _).
  destruct (PreviousVersion_after_newVersion (withLedger [1; 3]) (mkVersionInfo 3 None))
    as (_ & _ & Hsame).
  split.
  - apply Hnew; [discriminate | cbn; lia].
  - unfold TreeNode_Set. rewrite Hsame; [reflexivity | discriminate | reflexivity].
Defined.

(** ** The packed cache *)

Lemma leafInternalMap_outside (nibble : Z) :
  ~ 0 <= nibble < 16 -> leafInternalMap nibble = [].
Proof.
  intros Hout. destruct nibble as [|p|p]; [lia | | reflexivity].
  do 5 (destruct p as [p|p|]; try reflexivity; try lia).
Qed.

(** X10. [mark] sets to nil the three slots [leafInternalMap] lists for
    the nibble, which are the slots [nibble/8], [2 + nibble/4] and
    [6 + nibble/2], and touches nothing else; for a number that is no key
    of the map it does nothing. *)
Theorem mark_invalidates_exactly (node : TreeNode) (nibble : Z) :
  wf node ->
  (0 <= nibble < 16 ->
   leafInternalMap nibble = [nibble / 8; 2 + nibble / 4; 6 + nibble / 2]
   /\ exists node',
        mark node nibble = Some node'
        /\ Children node' = Children node /\ Versions node' = Versions node
        /\ forall idx, 0 <= idx < 14 ->
             (idx ∈ leafInternalMap nibble -> index (Internals node') idx = Some None)
             /\ (idx ∉ leafInternalMap nibble ->
                 index (Internals node') idx = index (Internals node) idx))
  /\ (~ 0 <= nibble < 16 -> mark node nibble = Some node).
Proof.
  intros Hwf. split.
  - intros Hnib. explode node Hwf. apply below_16_cases in Hnib.
    each_of Hnib; (split; [reflexivity|]);
      (eexists; split; [vm_compute; reflexivity|]);
      (split; [reflexivity|]); (split; [reflexivity|]);
      intros idx Hidx; apply below_14_cases in Hidx;
      each_of Hidx;
      (split; intros Hin;
       [ first [ reflexivity | not_member Hin ]
       | first [ reflexivity | exfalso; apply Hin; is_member ] ]).
  - intros Hout. unfold mark. by rewrite leafInternalMap_outside.
Qed.

Lemma mark_invalidates_exactly_witness :
  leafInternalMap 11 = [1; 4; 11]
  /\ (exists node', mark node0 11 = Some node'
        /\ index (Internals node') 4 = Some None
        /\ index (Internals node') 5 = index (Internals node0) 5)
  /\ mark node0 16 = Some node0.
Proof.
  assert (wf node0) as Hwf by (split; reflexivity).
  destruct (mark_invalidates_exactly node0 11 Hwf) as [Hin _].
  destruct (mark_invalidates_exactly node0 16 Hwf) as [_ Hout].
  destruct (Hin ltac:(lia)) as (Hmap & node' & Hm & _ & _ & Hslots).
  split; [exact Hmap|]. split; [|apply Hout; lia].
  exists node'. split; [exact Hm|].
  destruct (Hslots 4 ltac:(lia)) as [H4 _].
  destruct (Hslots 5 ltac:(lia)) as [_ H5].
  split; [apply H4; is_member | apply H5; intros Hin'; not_member Hin'].
Defined.

Lemma SetChildren_climb_footprint (node n : TreeNode) (child : option TreeNode)
    (nibble : Z) :
  wf node -> 0 <= nibble < 16 ->
  SetChildren_climb node child nibble = Some n ->
  (forall idx, 0 <= idx < 14 -> idx ∉ leafInternalMap nibble ->
     index (Internals n) idx = index (Internals node) idx)
  /\ (forall t, t ∈ leafInternalMap nibble ->
        exists l r, childrenHash n t = Some (l, r)
          /\ index (Internals n) t = Some (Hasher_Hash (hasher n) l r)).
Proof.
  intros Hwf Hnib. explode node Hwf. apply below_16_cases in Hnib.
  each_of Hnib; intros H; vm_compute in H; injection H as <-; split.
  all: try (intros idx Hidx Hout; apply below_14_cases in Hidx;
            each_of Hidx;
            first [ reflexivity | exfalso; apply Hout; is_member ]).
  all: intros t Ht; map_value; each_of Ht;
       (eexists _, _; split; vm_compute; reflexivity).
Qed.

Lemma childrenHash_newVersion (n : TreeNode) (version : VersionInfo) (t : Z) :
  childrenHash (newVersion n version) t = childrenHash n t.
Proof. rewrite newVersion_set. reflexivity. Qed.

(** X11. [SetChildren] attaches the child and rewrites the three slots of
    [leafInternalMap] for the nibble, no other: the slots [mark]
    invalidates for that nibble.  Each of the three then holds the hash of
    the pair [childrenHash] reads below it. *)
Theorem SetChildren_writes_three_slots (node : TreeNode) (child : option TreeNode)
    (nibble : Z) (version : Version) :
  wf node -> 0 <= nibble < 16 ->
  exists node',
    SetChildren node child nibble version = Some node'
    /\ Children node' = <[Z.to_nat nibble := child]> (Children node)
    /\ (forall idx, 0 <= idx < 14 -> idx ∉ leafInternalMap nibble ->
          index (Internals node') idx = index (Internals node) idx)
    /\ (forall t, t ∈ leafInternalMap nibble ->
          exists l r, childrenHash node' t = Some (l, r)
            /\ index (Internals node') t = Some (Hasher_Hash (hasher node') l r)).
Proof.
  intros Hwf Hnib.
  destruct (SetChildren_ok node child nibble version Hwf Hnib)
    as (n & h & Hc & _ & _ & _ & HS).
  destruct (SetChildren_climb_ok node child nibble Hwf Hnib) as (ins & _ & Hc').
  destruct (SetChildren_climb_footprint node n child nibble Hwf Hnib Hc) as [Hout Hin].
  exists (newVersion n (mkVersionInfo version h)). split; [exact HS|].
  destruct (newVersion_fields n (mkVersionInfo version h)) as (-> & -> & -> & _).
  split; [|split; [exact Hout|]].
  - rewrite Hc in Hc'. by injection Hc' as ->.
  - intros t Ht. rewrite childrenHash_newVersion. by apply Hin.
Qed.

Lemma SetChildren_writes_three_slots_witness :
  exists node',
    SetChildren node0 (Some (leafAt 3 x07 1)) 3 1 = Some node'
    /\ index (Internals node') 7 = Some (Some [x00; x07])
    /\ index (Internals node') 8 = index (Internals node0) 8.
Proof.
  assert (wf node0) as Hwf by (split; reflexivity).
  destruct (SetChildren_writes_three_slots node0 (Some (leafAt 3 x07 1)) 3 1
              Hwf ltac:(lia)) as (node' & HS & _ & Hout & Hin).
  exists node'. split; [exact HS|]. split.
  - destruct (Hin 7 ltac:(is_member)) as (l & r & Hlr & ->).
    vm_compute in HS. injection HS as <-.
    vm_compute in Hlr. injection Hlr as <- <-. reflexivity.
  - apply Hout; [lia|]. intros Hm. not_member Hm.
Defined.

(** X12. On a node, [SetChildren] and [SetChildrenOnly] panic with an
    index out of range exactly when the nibble is outside [0, 16). *)
Theorem SetChildren_panics_iff_out_of_range (node : TreeNode)
    (child : option TreeNode) (nibble : Z) (version : Version) :
  wf node ->
  (SetChildren node child nibble version = None <-> ~ 0 <= nibble < 16)
  /\ (SetChildrenOnly node child nibble version = None <-> ~ 0 <= nibble < 16).
Proof.
  intros Hwf.
  assert (~ 0 <= nibble < 16 -> store (Children node) nibble child = None) as Hstore.
  { intros Hout. unfold store. destruct Hwf as [-> _].
    destruct (Z.leb_spec 0 nibble); [|reflexivity].
    destruct (Z.ltb_spec nibble (Z.of_nat 16)); [lia | reflexivity]. }
  split; split.
  - intros HN Hin.
    destruct (SetChildren_ok node child nibble version Hwf Hin) as (? & ? & _ & _ & _ & _ & HS).
    congruence.
  - intros Hout. unfold SetChildren. by rewrite Hstore.
  - intros HN Hin.
    destruct (SetChildrenOnly_ok node child nibble version Hwf Hin) as [HS _].
    congruence.
  - intros Hout. unfold SetChildrenOnly. by rewrite Hstore.
Qed.

Lemma SetChildren_panics_iff_out_of_range_witness :
  SetChildren node0 None 16 1 = None /\ SetChildrenOnly node0 None (-1) 1 = None.
Proof.
  assert (wf node0) as Hwf by (split; reflexivity).
  destruct (SetChildren_panics_iff_out_of_range node0 None 16 1 Hwf) as [[_ H1] _].
  destruct (SetChildren_panics_iff_out_of_range node0 None (-1) 1 Hwf) as [_ [_ H2]].
  split; [apply H1 | apply H2]; lia.
Defined.

(** X13. [ComputeInternalHash] returns on every node and touches neither
    the ledger nor the children, so that [Root] stays.  Each of the 14
    slots then holds the hash of the pair [childrenHash] reads below it;
    what the slots held before does not show, and a second rebuild
    changes nothing. *)
Theorem ComputeInternalHash_rebuilds_all (node : TreeNode) (before : list InternalNode) :
  wf node -> length before = 14%nat ->
  exists rebuilt,
    ComputeInternalHash node = Some rebuilt
    /\ Versions rebuilt = Versions node /\ Children rebuilt = Children node
    /\ Root rebuilt = Root node
    /\ (forall t, 0 <= t < 14 ->
          exists l r, childrenHash rebuilt t = Some (l, r)
            /\ index (Internals rebuilt) t = Some (Hasher_Hash (hasher rebuilt) l r))
    /\ ComputeInternalHash (set_Internals node before) = Some rebuilt
    /\ ComputeInternalHash rebuilt = Some rebuilt.
Proof.
  intros Hwf Hb. explode node Hwf.
  apply length_14_inv in Hb as (?&?&?&?&?&?&?&?&?&?&?&?&?&?&->).
  eexists. split; [vm_compute; reflexivity|].
  split; [reflexivity|]. split; [reflexivity|]. split; [reflexivity|].
  split; [|split; vm_compute; reflexivity].
  intros t Ht. apply below_14_cases in Ht.
  each_of Ht; (eexists _, _; split; vm_compute; reflexivity).
Qed.

Lemma ComputeInternalHash_rebuilds_all_witness :
  exists rebuilt,
    ComputeInternalHash marked3 = Some rebuilt
    /\ Internals rebuilt = Internals node0
    /\ ComputeInternalHash rebuilt = Some rebuilt.
Proof.
  assert (wf marked3) as Hwf by (split; reflexivity).
  destruct (ComputeInternalHash_rebuilds_all marked3 (Internals node0) Hwf eq_refl)
    as (rebuilt & HC & _ & _ & _ & _ & _ & Hidem).
  exists rebuilt. split; [exact HC|]. split; [|exact Hidem].
  vm_compute in HC. injection HC as <-. reflexivity.
Defined.

(** ** The batch recomputation, slot by slot *)

Lemma index_store_ne {A : Type} (l l' : list A) (i j : Z) (x : A) :
  store l i x = Some l' -> j <> i -> index l' j = index l j.
Proof.
  unfold store, index. destruct (Z.leb_spec 0 i) as [Hi|Hi]; [|discriminate].
  destruct (i <? Z.of_nat (length l)); [|discriminate]. cbn. intros [= <-] Hne.
  destruct (Z.leb_spec 0 j); [|reflexivity].
  apply list_lookup_insert_ne. lia.
Qed.

Lemma index_store_eq {A : Type} (l l' : list A) (i : Z) (x : A) :
  store l i x = Some l' -> index l' i = Some x.
Proof.
  unfold store, index. destruct (Z.leb_spec 0 i) as [Hi|Hi]; [|discriminate].
  destruct (Z.ltb_spec i (Z.of_nat (length l))) as [Hlt|]; [|discriminate].
  cbn. intros [= <-]. apply list_lookup_insert_eq. lia.
Qed.

Lemma frame_refl (written : Z -> Prop) (node : TreeNode) : frame written node node.
Proof. by repeat split. Qed.

Lemma frame_trans (written : Z -> Prop) (a b c : TreeNode) :
  frame written a b -> frame written b c -> frame written a c.
Proof.
  intros (C1 & V1 & I1) (C2 & V2 & I2). repeat split; try congruence.
  intros j Hj. rewrite I2, I1; done.
Qed.

Lemma computeInternal_task_frame (prefix n : Z) (node node' : TreeNode) :
  computeInternal_task prefix n node = Some node' ->
  frame (fun j => j = n) node node'.
Proof.
  unfold computeInternal_task.
  destruct ((prefix <=? int n) && (int n <=? Z.shiftl prefix 1 + 1));
    [|intros [= <-]; apply frame_refl].
  destruct (childrenHash node n) as [lr|]; [|discriminate]. cbn [mbind option_bind].
  destruct (store (Internals node) n _) as [ins|] eqn:Es; [|discriminate].
  cbn [mbind option_bind]. intros [= <-]. repeat split.
  cbn [set_Internals Internals]. intros j Hj. by eapply index_store_ne.
Qed.

Lemma computeInternal_level_frame (prefix : Z) (l : list Z) :
  forall node node',
    for_range (computeInternal_task prefix) l node = Some node' ->
    frame (fun j => j ∈ l) node node'.
Proof.
  induction l as [|n l IH]; intros node node'; cbn [for_range].
  - intros [= <-]. apply frame_refl.
  - destruct (computeInternal_task prefix n node) as [n1|] eqn:E1; [|discriminate].
    cbn [mbind option_bind]. intros E2.
    apply computeInternal_task_frame in E1 as (C1 & V1 & I1).
    apply IH in E2 as (C2 & V2 & I2). repeat split; try congruence.
    intros j Hj. rewrite I2, I1; [done | |]; intros Hin; apply Hj.
    + subst. left.
    + by right.
Qed.

(** The three levels of [computeInternal], one after the other. *)
Lemma computeInternal_levels (node node' : TreeNode) (nibbles : gset Z) :
  computeInternal node (Some nibbles) = Some node' ->
  exists n h,
    frame (fun j => j ∈ nibbles) node n
    /\ topHash n = Some h
    /\ node' = newVersion n (mkVersionInfo (latestVersion n) h).
Proof.
  unfold computeInternal.
  set (nbArray := merge_sort descending (elements nibbles)).
  assert (forall a b, frame (fun j => j ∈ nbArray) a b ->
                      frame (fun j => j ∈ nibbles) a b) as Hset.
  { intros a b (C & V & I). repeat split; try done. intros j Hj. apply I.
    intros Hin. apply Hj. unfold nbArray in Hin.
    rewrite merge_sort_Permutation in Hin. by apply elem_of_elements in Hin. }
  cbn [for_loop fst snd]. change (1 <=? 4) with true. cbn match.
  destruct (for_range (computeInternal_task 6) nbArray node) as [n1|] eqn:E1;
    [|discriminate].
  cbn [mbind option_bind fst snd].
  change (Z.shiftr 4 1) with 2. change (6 - 4) with 2. change (1 <=? 2) with true.
  cbn match.
  destruct (for_range (computeInternal_task 2) nbArray n1) as [n2|] eqn:E2;
    [|discriminate].
  cbn [mbind option_bind fst snd].
  change (Z.shiftr 2 1) with 1. change (2 - 2) with 0. change (1 <=? 1) with true.
  cbn match.
  destruct (for_range (computeInternal_task 0) nbArray n2) as [n3|] eqn:E3;
    [|discriminate].
  cbn [mbind option_bind fst snd].
  change (Z.shiftr 1 1) with 0. change (1 <=? 0) with false. cbn match.
  cbn [mbind option_bind fst snd].
  destruct (topHash n3) as [h|] eqn:Hh; [|discriminate].
  cbn [mbind option_bind]. intros [= <-].
  exists n3, h. split; [|by split].
  apply Hset. apply computeInternal_level_frame in E1, E2, E3.
  eapply frame_trans; [|exact E3]. eapply frame_trans; [exact E1 | exact E2].
Qed.

(** X14. [computeInternal] called with a non-nil set mints at the node's
    own latest version: on a ledger that holds an entry it overwrites the
    hash of the latest entry and adds none; on an empty ledger it appends
    an entry at version 0.  The earlier entries stay. *)
Theorem computeInternal_mints_at_latest (node : TreeNode) (nibbles : gset Z) :
  wf node -> (forall n, n ∈ nibbles -> 0 <= n < 2 ^ 64) ->
  exists node' h,
    computeInternal node (Some nibbles) = Some node'
    /\ topHash node' = Some h
    /\ (Versions node = [] -> Versions node' = [mkVersionInfo 0 h])
    /\ (forall pre l, Versions node = pre ++ [l] ->
          Versions node' = pre ++ [mkVersionInfo (Ver l) h]).
Proof.
  intros Hwf Hkeys.
  destruct (computeInternal_ok node nibbles Hwf Hkeys) as (n & h & _ & HV & Hh & HC).
  eexists _, h. split; [exact HC|]. rewrite topHash_newVersion.
  split; [exact Hh|].
  rewrite (newVersion_Versions_eq n node _ HV).
  unfold newVersion, latestVersion. rewrite HV. split.
  - intros E. rewrite E. reflexivity.
  - intros pre l E. rewrite E, last_snoc. cbn [Ver]. rewrite Z.eqb_refl.
    cbn [set_Versions Versions]. apply insert_last.
Qed.

Lemma computeInternal_mints_at_latest_witness :
  (exists node', computeInternal node0 (Some ∅) = Some node'
     /\ map Ver (Versions node') = [0])
  /\ (exists node', computeInternal (withLedger [1; 3]) (Some {[ 7 ]}) = Some node'
        /\ map Ver (Versions node') = [1; 3]).
Proof.
  split.
  - destruct (computeInternal_mints_at_latest node0 ∅) as (node' & h & HC & _ & He & _).
    + split; reflexivity.
    + intros n Hn. by apply not_elem_of_empty in Hn.
    + exists node'. split; [exact HC|]. by rewrite He.
  - destruct (computeInternal_mints_at_latest (withLedger [1; 3]) {[ 7 ]})
      as (node' & h & HC & _ & _ & Hl).
    + split; reflexivity.
    + intros n Hn. apply elem_of_singleton in Hn as ->. lia.
    + exists node'. split; [exact HC|].
      rewrite (Hl [mkVersionInfo 1 (Some [x2a])] (mkVersionInfo 3 (Some [x2a])) eq_refl).
      reflexivity.
Defined.

(** X15. Whenever [computeInternal] returns, the children are as before
    and so is every slot that is not in the set of dirty slots; a key that
    is no slot of the node is passed over. *)
Theorem computeInternal_keeps_clean_slots (node node' : TreeNode)
    (nibbles : option (gset Z)) :
  computeInternal node nibbles = Some node' ->
  Children node' = Children node
  /\ forall j, (forall s, nibbles = Some s -> j ∉ s) ->
       index (Internals node') j = index (Internals node) j.
Proof.
  destruct nibbles as [s|]; [|by intros [= <-]].
  intros HC. apply computeInternal_levels in HC as (n & h & (C & _ & I) & _ & ->).
  destruct (newVersion_fields n (mkVersionInfo (latestVersion n) h)) as (-> & -> & _).
  split; [exact C|]. intros j Hj. apply I. by apply Hj.
Qed.

Lemma computeInternal_keeps_clean_slots_witness :
  exists node',
    computeInternal marked3 (Some {[ 7; 99 ]}) = Some node'
    /\ index (Internals node') 2 = Some None
    /\ index (Internals node') 7 = Some (Some [x00; x00]).
Proof.
  destruct (computeInternal marked3 (Some {[ 7; 99 ]})) as [node'|] eqn:HC;
    [|vm_compute in HC; discriminate HC].
  exists node'. split; [reflexivity|].
  destruct (computeInternal_keeps_clean_slots _ _ _ HC) as [_ Hclean].
  split.
  - rewrite Hclean; [reflexivity|]. intros s [= <-].
    rewrite elem_of_union, !elem_of_singleton. lia.
  - vm_compute in HC. injection HC as <-. reflexivity.
Defined.

(** X16. With all 14 slots dirty, [computeInternal] computes the slots
    [ComputeInternalHash] computes, and then mints at the latest
    version. *)
Theorem computeInternal_all_is_rebuild (node : TreeNode) :
  wf node ->
  computeInternal node (Some allSlots)
  = (rebuilt ← ComputeInternalHash node;
     h ← topHash rebuilt;
     Some (newVersion rebuilt (mkVersionInfo (latestVersion rebuilt) h))).
Proof.
  intros Hwf. explode node Hwf.
  unfold computeInternal.
  replace (merge_sort descending (elements allSlots))
    with [13; 12; 11; 10; 9; 8; 7; 6; 5; 4; 3; 2; 1; 0] by (vm_compute; reflexivity).
  match goal with
  | |- (?a ≫= ?k) = (?b ≫= ?k') =>
      let va := eval vm_compute in a in
      let vb := eval vm_compute in b in
      change ((va ≫= k) = (vb ≫= k'))
  end.
  reflexivity.
Qed.

Lemma computeInternal_all_is_rebuild_witness :
  exists node' rebuilt,
    computeInternal marked3 (Some allSlots) = Some node'
    /\ ComputeInternalHash marked3 = Some rebuilt
    /\ Internals node' = Internals rebuilt.
Proof.
  assert (wf marked3) as Hwf by (split; reflexivity).
  pose proof (computeInternal_all_is_rebuild marked3 Hwf) as E.
  destruct (ComputeInternalHash marked3) as [rebuilt|] eqn:HC;
    [|vm_compute in HC; discriminate HC].
  cbn [mbind option_bind] in E.
  destruct (topHash rebuilt) as [h|] eqn:Hh;
    [|vm_compute in HC; injection HC as <-; vm_compute in Hh; discriminate Hh].
  cbn [mbind option_bind] in E.
  eexists _, rebuilt. split; [exact E|]. split; [reflexivity|].
  by destruct (newVersion_fields rebuilt (mkVersionInfo (latestVersion rebuilt) h))
    as (_ & -> & _).
Defined.

(** ** Order of sequential updates *)

Lemma SetChildren_climb_commute_lt (node : TreeNode) (ca cb : option TreeNode)
    (a b : Z) :
  wf node -> 0 <= a < 16 -> 0 <= b < 16 -> a < b ->
  exists n1 m1 n2,
    SetChildren_climb node ca a = Some n1
    /\ SetChildren_climb n1 cb b = Some n2
    /\ SetChildren_climb node cb b = Some m1
    /\ SetChildren_climb m1 ca a = Some n2.
Proof.
  intros Hwf Ha Hb Hab. explode node Hwf.
  apply below_16_cases in Ha. apply below_16_cases in Hb.
  each_of Ha; each_of Hb; try (exfalso; clear -Hab; lia);
    (eexists _, _, _; split; [vm_compute; reflexivity|];
     split; [vm_compute; reflexivity|];
     split; vm_compute; reflexivity).
Qed.

(** Two climbs above different nibbles give the same children and slots
    in either order. *)
Lemma SetChildren_climb_commute (node : TreeNode) (ca cb : option TreeNode)
    (a b : Z) :
  wf node -> 0 <= a < 16 -> 0 <= b < 16 -> a <> b ->
  exists n1 m1 n2,
    SetChildren_climb node ca a = Some n1
    /\ SetChildren_climb n1 cb b = Some n2
    /\ SetChildren_climb node cb b = Some m1
    /\ SetChildren_climb m1 ca a = Some n2.
Proof.
  intros Hwf Ha Hb Hab.
  destruct (Z.lt_ge_cases a b) as [Hlt | Hge].
  - by apply SetChildren_climb_commute_lt.
  - destruct (SetChildren_climb_commute_lt node cb ca b a Hwf Hb Ha ltac:(lia))
      as (m1 & n1 & n2 & H1 & H2 & H3 & H4).
    by exists n1, m1, n2.
Qed.

(** ** What [recompute] writes *)

Lemma recompute_loop_frame (node : TreeNode) (nibble : Z) (left right : slice)
    (version : Version) :
  wf node -> wf_slots node -> 0 <= nibble < 16 ->
  exists n ok,
    recompute_loop 4 4 nibble 6 left right version node = Some (n, ok)
    /\ wf n /\ wf_slots n /\ Children n = Children node
    /\ (forall idx, 0 <= idx < 14 -> idx ∉ leafInternalMap nibble ->
          index (Internals n) idx = index (Internals node) idx)
    /\ (forall t, 0 <= t < 14 -> slot_is_set node t = true ->
          index (Internals n) t = index (Internals node) t)
    /\ (slot_is_set node (6 + nibble / 2) = true -> n = node /\ ok = false).
Proof.
  intros Hwf Hsl Hnib. explode_slots node Hwf Hsl. apply below_16_cases in Hnib.
  each_of Hnib; vm_compute; split_slots;
    (eexists _, _; split; [reflexivity|];
     split; [split; reflexivity|]; split; [split; reflexivity|];
     split; [reflexivity|]; split; [|split]).
  all: try (intros idx Hidx Hout; apply below_14_cases in Hidx; each_of Hidx;
            first [ reflexivity | exfalso; apply Hout; is_member ]).
  all: try (intros t Ht Hs; apply below_14_cases in Ht; each_of Ht;
            first [ reflexivity | discriminate Hs ]).
  all: intros Hs; first [ split; reflexivity | discriminate Hs ].
Qed.

Lemma newVersion_overwrite (n : TreeNode) (v : Version) (h h' : slice) :
  newVersion (newVersion n (mkVersionInfo v h)) (mkVersionInfo v h')
  = newVersion n (mkVersionInfo v h').
Proof.
  destruct n as [cs ins vs nh nch p d hs t mus ivs].
  unfold newVersion. cbn [Versions set_Versions Ver].
  destruct vs as [|old pre _] using rev_ind.
  - cbn. by rewrite Z.eqb_refl.
  - rewrite last_snoc. cbv beta iota. destruct (Ver old =? v) eqn:E.
    + cbn [Versions set_Versions]. rewrite !insert_last, last_snoc.
      cbn [Ver]. by rewrite Z.eqb_refl.
    + cbn [Versions set_Versions]. rewrite last_snoc.
      cbn [Ver]. by rewrite Z.eqb_refl, insert_last.
Qed.

Lemma SetChildren_climb_newVersion (node n : TreeNode) (child : option TreeNode)
    (nibble : Z) (version : VersionInfo) :
  wf node -> 0 <= nibble < 16 ->
  SetChildren_climb node child nibble = Some n ->
  SetChildren_climb (newVersion node version) child nibble
  = Some (newVersion n version).
Proof.
  intros Hwf Hnib Hc.
  destruct (SetChildren_ok node child nibble 0 Hwf Hnib)
    as (n' & h & Hc' & _ & HV & _).
  rewrite Hc in Hc'. injection Hc' as <-.
  rewrite (newVersion_set node version), (newVersion_set n version).
  rewrite (newVersion_Versions_eq n node version HV).
  by apply SetChildren_climb_set_Versions.
Qed.

(** X17. Two [SetChildren] at the same version on different nibbles
    commute: children, slots, ledger and root come out the same in either
    order, whatever the slots held before. *)
Theorem SetChildren_commute (node : TreeNode) (ca cb : option TreeNode)
    (a b : Z) (version : Version) :
  wf node -> 0 <= a < 16 -> 0 <= b < 16 -> a <> b ->
  exists n1 m1 n2,
    SetChildren node ca a version = Some n1
    /\ SetChildren n1 cb b version = Some n2
    /\ SetChildren node cb b version = Some m1
    /\ SetChildren m1 ca a version = Some n2.
Proof.
  intros Hwf Ha Hb Hab.
  destruct (SetChildren_climb_commute node ca cb a b Hwf Ha Hb Hab)
    as (n1 & m1 & n2 & Hn1 & Hn2 & Hm1 & Hm2).
  destruct (SetChildren_ok node ca a version Hwf Ha)
    as (n1' & h1 & Hn1' & Hwf1 & _ & Hh1 & HS1).
  rewrite Hn1 in Hn1'. injection Hn1' as <-.
  destruct (SetChildren_ok node cb b version Hwf Hb)
    as (m1' & g1 & Hm1' & Hwfm & _ & Hg1 & HT1).
  rewrite Hm1 in Hm1'. injection Hm1' as <-.
  destruct (SetChildren_ok n1 cb b version Hwf1 Hb)
    as (n2' & h2 & Hn2' & _ & _ & Hh2 & _).
  rewrite Hn2 in Hn2'. injection Hn2' as <-.
  exists (newVersion n1 (mkVersionInfo version h1)),
         (newVersion m1 (mkVersionInfo version g1)),
         (newVersion n2 (mkVersionInfo version h2)).
  split; [exact HS1|]. split; [|split; [exact HT1|]].
  - rewrite SetChildren_split.
    rewrite (SetChildren_climb_newVersion n1 n2 cb b _ Hwf1 Hb Hn2).
    cbn [mbind option_bind]. rewrite topHash_newVersion, Hh2.
    cbn [mbind option_bind]. by rewrite newVersion_overwrite.
  - rewrite SetChildren_split.
    rewrite (SetChildren_climb_newVersion m1 n2 ca a _ Hwfm Ha Hm2).
    cbn [mbind option_bind]. rewrite topHash_newVersion, Hh2.
    cbn [mbind option_bind]. by rewrite newVersion_overwrite.
Qed.

Lemma SetChildren_commute_witness :
  exists n1 m1 n2,
    SetChildren node0 (Some (leafAt 3 x07 1)) 3 1 = Some n1
    /\ SetChildren n1 (Some (leafAt 2 x09 1)) 2 1 = Some n2
    /\ SetChildren node0 (Some (leafAt 2 x09 1)) 2 1 = Some m1
    /\ SetChildren m1 (Some (leafAt 3 x07 1)) 3 1 = Some n2.
Proof.
  apply (SetChildren_commute node0 (Some (leafAt 3 x07 1)) (Some (leafAt 2 x09 1))
           3 2 1).
  - split; reflexivity.
  - lia.
  - lia.
  - lia.
Defined.

(** ** The cooperative climb against the sequential one *)






(** X19. [recompute] writes only slots of [leafInternalMap] for the
    child's nibble and only where the slot read nil: a slot that holds a
    hash is never overwritten.  The children are left as they were; the
    child is not attached. *)
Theorem recompute_writes_nil_slots_only (node child : TreeNode) (journals : journal)
    (version : Version) :
  wf node -> wf_slots node ->
  exists node' ok,
    recompute node child journals version = Some (node', ok)
    /\ Children node' = Children node
    /\ (forall idx, 0 <= idx < 14 -> idx ∉ leafInternalMap (Z.land (path child) 15) ->
          index (Internals node') idx = index (Internals node) idx)
    /\ (forall t, 0 <= t < 14 -> slot_is_set node t = true ->
          index (Internals node') t = index (Internals node) t).
Proof.
  intros Hwf Hsl.
  destruct (nibble_of_path (path child)) as [Hnib Hint].
  set (nib := Z.land (path child) 15) in *.
  unfold recompute. fold nib. rewrite Hint.
  destruct (recompute_leaves node child journals version nib) as [lr|].
  - destruct (recompute_loop_frame node nib lr.1 lr.2 version Hwf Hsl Hnib)
      as (n & ok & HL & Hwfn & _ & HC & Hout & Hkeep & _).
    rewrite HL. cbn [mbind option_bind fst snd].
    destruct ok.
    + destruct (topHash_wf n Hwfn) as [h ->]. cbn [mbind option_bind].
      eexists _, _. split; [reflexivity|].
      destruct (newVersion_fields n (mkVersionInfo version h)) as (-> & -> & _).
      by repeat split.
    + eexists _, _. split; [reflexivity|]. by repeat split.
  - eexists _, _. split; [reflexivity|]. by repeat split.
Qed.

Lemma recompute_writes_nil_slots_only_witness :
  exists node' ok,
    recompute marked3 (leafAt 3 x07 1) emptyJournal 1 = Some (node', ok)
    /\ Children node' = Children marked3
    /\ index (Internals node') 8 = index (Internals marked3) 8.
Proof.
  destruct (recompute_writes_nil_slots_only marked3 (leafAt 3 x07 1) emptyJournal 1
              ltac:(split; reflexivity) ltac:(split; reflexivity))
    as (node' & ok & HR & HC & Hout & _).
  exists node', ok. split; [exact HR|]. split; [exact HC|].
  apply Hout; [lia|]. intros H. not_member H.
Defined.




(** ** Nodes restored from storage *)

Lemma index_nil {A : Type} (i : Z) : index (@nil A) i = None.
Proof. unfold index. by destruct (0 <=? i). Qed.

Lemma setInternal_no_locks (node : TreeNode) (idx : Z) (left right : slice)
    (version : Version) :
  internalMu node = [] -> setInternal node idx left right version = None.
Proof. intros H. unfold setInternal. by rewrite H, index_nil. Qed.

Lemma getInternal_no_locks (node : TreeNode) (idx : Z) (version : Version) :
  internalMu node = [] -> getInternal node idx version = None.
Proof. intros H. unfold getInternal. by rewrite H, index_nil. Qed.

Lemma recompute_loop_no_locks (node : TreeNode) (fuel : nat) (nibble : Z)
    (left right : slice) (version : Version) :
  internalMu node = [] ->
  recompute_loop (S fuel) 4 nibble 6 left right version node = None.
Proof.
  intros H. cbn [recompute_loop]. change (1 <=? 4) with true. cbv iota.
  by rewrite setInternal_no_locks.
Qed.

(** X21. A node built by [ToTreeNode] carries no per-slot locks and no
    per-slot versions.  On such a node [setInternal] and [getInternal]
    panic for every index, and [recompute] panics as soon as the sibling
    check lets it through; only when a tracked sibling lags behind does it
    return (false, node untouched). *)
Theorem restored_node_has_no_slot_locks (st : StorageTreeNode) (depth : Z)
    (nh : nilHashes) (hs : Hasher) :
  length (StorageChildren st) = 16%nat ->
  exists node,
    ToTreeNode st depth nh hs = Some node
    /\ internalMu node = [] /\ internalVer node = []
    /\ (forall idx left right version,
          setInternal node idx left right version = None)
    /\ (forall idx version, getInternal node idx version = None)
    /\ (forall child journals version,
          recompute node child journals version
          = if sibling_ready journals child version then None
            else Some (node, false)).
Proof.
  intros Hlen. eexists. split; [by apply ToTreeNode_eq|].
  split; [reflexivity|]. split; [reflexivity|].
  split; [intros; by apply setInternal_no_locks|].
  split; [intros; by apply getInternal_no_locks|].
  intros child journals version.
  destruct (nibble_of_path (path child)) as [Hnib Hint].
  unfold recompute. rewrite Hint.
  rewrite recompute_leaves_spec by exact Hnib.
  destruct (sibling_ready journals child version); [|reflexivity].
  by rewrite recompute_loop_no_locks.
Qed.

Lemma restored_node_has_no_slot_locks_witness :
  exists st node,
    ToStorageTreeNode node0 = Some st
    /\ ToTreeNode st 0 foldedNilHashes concatHasher = Some node
    /\ recompute node (leafAt 3 x07 1) emptyJournal 1 = None.
Proof.
  assert (exists st, ToStorageTreeNode node0 = Some st) as [st Hst].
  { eexists. vm_compute. reflexivity. }
  assert (length (StorageChildren st) = 16%nat) as Hlen.
  { vm_compute in Hst. injection Hst as <-. reflexivity. }
  destruct (restored_node_has_no_slot_locks st 0 foldedNilHashes concatHasher Hlen)
    as (node & HT & _ & _ & _ & _ & HR).
  exists st, node. split; [exact Hst|]. split; [exact HT|].
  rewrite HR. reflexivity.
Defined.

(** X22. Decoding then encoding: [ToStorageTreeNode] of the node
    [ToTreeNode] builds gives back the stored slots, ledger and path, and
    every stored child with a non-empty ledger; a stored child with an
    empty ledger comes back as nil.  When no stored child has an empty
    ledger the stored node comes back as it was. *)
Theorem storage_decode_encode (st : StorageTreeNode) (depth : Z)
    (nh : nilHashes) (hs : Hasher) :
  length (StorageChildren st) = 16%nat ->
  length (StorageInternals st) = 14%nat ->
  exists node st',
    ToTreeNode st depth nh hs = Some node
    /\ ToStorageTreeNode node = Some st'
    /\ StorageInternals st' = StorageInternals st
    /\ StorageVersions st' = StorageVersions st
    /\ StoragePath st' = StoragePath st
    /\ (forall i c, StorageChildren st !! i = Some c ->
          StorageChildren st' !! i
          = Some match c with
                 | Some l => if 0 <? len (LeafVersions l) then Some l else None
                 | None => None
                 end)
    /\ ((forall l, Some l ∈ StorageChildren st -> LeafVersions l <> []) ->
        st' = st).
Proof.
  intros Hcs Hins.
  eexists _, _. split; [by apply ToTreeNode_eq|]. split.
  { apply ToStorageTreeNode_eq. split; cbn [Children Internals].
    - by rewrite length_fmap.
    - exact Hins. }
  cbn [StorageInternals StorageVersions StoragePath StorageChildren
       Children Internals Versions path].
  split; [reflexivity|]. split; [reflexivity|]. split; [reflexivity|].
  assert (forall c, persistedLeaf (restoredChild depth nh hs c)
                    = match c with
                      | Some l => if 0 <? len (LeafVersions l) then Some l else None
                      | None => None
                      end) as Hone.
  { intros [[vs]|]; [|reflexivity]. cbn. by destruct (0 <? len vs). }
  split.
  - intros i c Hi. rewrite !list_lookup_fmap, Hi. cbn. by rewrite Hone.
  - intros Hfull. destruct st as [cs ins vs p]. cbn in *. f_equal.
    rewrite <- list_fmap_compose. rewrite <- (list_fmap_id cs) at 2.
    apply list_fmap_ext. intros i c Hi. cbn. rewrite Hone.
    destruct c as [l|]; [|reflexivity].
    assert (LeafVersions l <> []) as Hne.
    { apply Hfull. by eapply list_elem_of_lookup_2. }
    destruct (LeafVersions l) as [|v vs'] eqn:E; [done|].
    destruct (Z.ltb_spec 0 (len (v :: vs'))) as [_|Hle]; [reflexivity|].
    unfold len in Hle. cbn [length] in Hle. lia.
Qed.

Lemma storage_decode_encode_witness :
  exists node,
    ToTreeNode
      (mkStorageTreeNode
         (replicate 3 None
          ++ [Some (mkStorageLeafNode [mkVersionInfo 1 (Some [x07])])]
          ++ replicate 12 None)
         (replicate 14 None) [mkVersionInfo 1 None] 0)
      0 foldedNilHashes concatHasher = Some node
    /\ ToStorageTreeNode node
       = Some (mkStorageTreeNode
                 (replicate 3 None
                  ++ [Some (mkStorageLeafNode [mkVersionInfo 1 (Some [x07])])]
                  ++ replicate 12 None)
                 (replicate 14 None) [mkVersionInfo 1 None] 0).
Proof.
  destruct (storage_decode_encode
              (mkStorageTreeNode
                 (replicate 3 None
                  ++ [Some (mkStorageLeafNode [mkVersionInfo 1 (Some [x07])])]
                  ++ replicate 12 None)
                 (replicate 14 None) [mkVersionInfo 1 None] 0)
              0 foldedNilHashes concatHasher eq_refl eq_refl)
    as (node & st' & HT & HS & _ & _ & _ & _ & Hfull).
  exists node. split; [exact HT|]. rewrite HS. f_equal. apply Hfull.
  intros l Hl. cbn in Hl.
  repeat (apply elem_of_cons in Hl as [Hl | Hl];
          [try discriminate Hl; injection Hl as ->; discriminate|]).
  by apply elem_of_nil in Hl.
Defined.

(** ** The slots, one at a time *)

Lemma index_None_iff {A : Type} (l : list A) (i : Z) :
  index l i = None <-> ~ 0 <= i < len l.
Proof.
  unfold index, len. destruct (Z.leb_spec 0 i) as [Hi|Hi]; [|split; [lia|done]].
  rewrite lookup_ge_None. lia.
Qed.

Lemma index_in_range {A : Type} (l : list A) (i : Z) :
  0 <= i < len l -> exists x, index l i = Some x.
Proof.
  intros Hi. destruct (index l i) as [x|] eqn:E; [by exists x|].
  by apply index_None_iff in E.
Qed.

(** X23. [setInternal] and [getInternal] on any node with its 14 slots
    and 14 slot locks: both panic exactly when the index is outside
    [0,14).  On a slot that holds a hash [setInternal] changes nothing
    and answers that hash with [true].  On a slot that reads nil it
    stores [Hash(left, right)] and the version at that index only,
    answers the hash with [false], and [getInternal] then reads the hash
    back; when that hash is not nil every later [setInternal] on the slot
    answers it with [true] and changes nothing. *)
Theorem setInternal_fills_nil_slot_once (node : TreeNode) (idx : Z)
    (left right : slice) (version : Version) :
  wf node -> wf_slots node ->
  (setInternal node idx left right version = None <-> ~ 0 <= idx < 14)
  /\ (getInternal node idx version = None <-> ~ 0 <= idx < 14)
  /\ (forall stored, index (Internals node) idx = Some (Some stored) ->
        setInternal node idx left right version
        = Some (node, (Some stored, true)))
  /\ (index (Internals node) idx = Some None ->
      exists node',
        setInternal node idx left right version
        = Some (node', (Hasher_Hash (hasher node) left right, false))
        /\ getInternal node' idx version
           = Some (Hasher_Hash (hasher node) left right)
        /\ index (internalVer node') idx = Some version
        /\ (forall j, j <> idx ->
              index (Internals node') j = index (Internals node) j
              /\ index (internalVer node') j = index (internalVer node) j)
        /\ Children node' = Children node /\ Versions node' = Versions node
        /\ (Hasher_Hash (hasher node) left right <> None ->
            forall left' right' version',
              setInternal node' idx left' right' version'
              = Some (node', (Hasher_Hash (hasher node) left right, true)))).
Proof.
  intros [Hcs Hins] [Hmu Hiv].
  assert (len (Internals node) = 14) as Hins' by (unfold len; lia).
  assert (len (internalMu node) = 14) as Hmu' by (unfold len; lia).
  assert (len (internalVer node) = 14) as Hiv' by (unfold len; lia).
  split; [|split; [|split]].
  - split.
    + intros HN [Hlo Hhi].
      destruct (index_in_range (internalMu node) idx ltac:(lia)) as [mu Emu].
      destruct (index_in_range (Internals node) idx ltac:(lia)) as [cur Ecur].
      unfold setInternal in HN. rewrite Emu, Ecur in HN. cbn [mbind option_bind] in HN.
      destruct cur as [stored|]; [discriminate HN|].
      rewrite store_ok in HN by lia. cbn [mbind option_bind] in HN.
      rewrite store_ok in HN by (cbn [internalVer set_Internals]; lia).
      discriminate HN.
    + intros Hout. unfold setInternal.
      replace (index (internalMu node) idx) with (@None RWMutex); [reflexivity|].
      symmetry. apply index_None_iff. lia.
  - unfold getInternal. split.
    + intros HN [Hlo Hhi].
      destruct (index_in_range (internalMu node) idx ltac:(lia)) as [mu Emu].
      destruct (index_in_range (Internals node) idx ltac:(lia)) as [cur Ecur].
      rewrite Emu, Ecur in HN. discriminate HN.
    + intros Hout.
      replace (index (internalMu node) idx) with (@None RWMutex); [reflexivity|].
      symmetry. apply index_None_iff. lia.
  - intros stored Hcur.
    destruct (index_Some_range _ _ _ Hcur) as [Hr _].
    destruct (index_in_range (internalMu node) idx ltac:(lia)) as [mu Emu].
    unfold setInternal. rewrite Emu, Hcur. reflexivity.
  - intros Hcur.
    destruct (index_Some_range _ _ _ Hcur) as [Hr _].
    destruct (index_in_range (internalMu node) idx ltac:(lia)) as [mu Emu].
    set (h := Hasher_Hash (hasher node) left right).
    set (ins := <[Z.to_nat idx := h]> (Internals node)).
    set (ivs := <[Z.to_nat idx := version]> (internalVer node)).
    assert (store (Internals node) idx h = Some ins) as Hst by (apply store_ok; lia).
    assert (store (internalVer node) idx version = Some ivs) as Hsv
      by (apply store_ok; lia).
    exists (set_internalVer (set_Internals node ins) ivs).
    assert (setInternal node idx left right version
            = Some (set_internalVer (set_Internals node ins) ivs, (h, false))) as HS.
    { unfold setInternal. rewrite Emu, Hcur. cbn [mbind option_bind]. fold h.
      rewrite Hst. cbn [mbind option_bind internalVer set_Internals].
      rewrite Hsv. reflexivity. }
    split; [exact HS|].
    assert (index ins idx = Some h) as Hread by (by eapply index_store_eq).
    split.
    { unfold getInternal. cbn [internalMu Internals set_internalVer set_Internals].
      rewrite Emu. exact Hread. }
    split; [cbn [internalVer set_internalVer]; by eapply index_store_eq|].
    split.
    { intros j Hj. cbn [Internals internalVer set_internalVer set_Internals].
      split; by eapply index_store_ne. }
    split; [reflexivity|]. split; [reflexivity|].
    intros Hh left' right' version'. unfold setInternal.
    cbn [internalMu Internals set_internalVer set_Internals].
    rewrite Emu, Hread. cbn [mbind option_bind].
    destruct h as [b|] eqn:Eh; [reflexivity | done].
Qed.

Lemma setInternal_fills_nil_slot_once_witness :
  exists node',
    setInternal marked3 7 (Some [x01]) (Some [x02]) 5
    = Some (node', (Some [x01; x02], false))
    /\ getInternal node' 7 5 = Some (Some [x01; x02])
    /\ setInternal node' 7 None None 6 = Some (node', (Some [x01; x02], true)).
Proof.
  destruct (setInternal_fills_nil_slot_once marked3 7 (Some [x01]) (Some [x02]) 5
              ltac:(split; reflexivity) ltac:(split; reflexivity))
    as (_ & _ & _ & H).
  destruct (H eq_refl) as (node' & HS & HG & _ & _ & _ & _ & Hagain).
  exists node'. split; [exact HS|]. split; [exact HG|].
  apply Hagain. discriminate.
Defined.

(** ** Release *)

(** Induction on a node with the property known of every child. *)
Lemma TreeNode_children_ind (P : TreeNode -> Prop) :
  (forall node,
     (forall c, Some c ∈ Children node -> P c) -> P node) ->
  forall node, P node.
Proof.
  intros H. fix IH 1. intros [cs ins vs nh nch p d hs t mus ivs].
  apply H. cbn [Children].
  assert (Forall (fun oc => match oc with Some c => P c | None => True end) cs)
    as Hall.
  { induction cs as [|oc cs IHcs]; constructor;
      [destruct oc as [c|]; [apply IH | exact I] | exact IHcs]. }
  clear IH. intros c Hc. rewrite Forall_forall in Hall. exact (Hall (Some c) Hc).
Qed.

Lemma Release_unfold (node : TreeNode) (oldestVersion : Version) :
  Release node oldestVersion
  = let r := Release_children (fun c => Release c oldestVersion) oldestVersion
               (Children node) (Size node) in
    (set_Children node r.1, r.2).
Proof. by destruct node. Qed.

Lemma Release_children_fst (rel : TreeNode -> TreeNode * Z) (oldestVersion : Version)
    (cs : list (option TreeNode)) (size : Z) :
  (Release_children rel oldestVersion cs size).1
  = (fun oc : option TreeNode =>
       (fun c => if cold oldestVersion c then archive c else (rel c).1) <$> oc)
      <$> cs.
Proof.
  revert size. induction cs as [|[c|] cs IH]; intros size; [reflexivity| |].
  - cbn [Release_children fst fmap list_fmap]. rewrite IH. f_equal.
    cbn. unfold cold. by destruct (_ && _).
  - cbn [Release_children fst fmap list_fmap]. by rewrite IH.
Qed.

Lemma Release_children_eq (oldestVersion : Version) (node : TreeNode) :
  Children (Release node oldestVersion).1
  = (fun oc : option TreeNode => released oldestVersion <$> oc) <$> Children node.
Proof.
  rewrite Release_unfold. cbn [fst Children set_Children].
  by rewrite Release_children_fst.
Qed.

Lemma Release_own_fields (oldestVersion : Version) (node : TreeNode) :
  Versions (Release node oldestVersion).1 = Versions node
  /\ Internals (Release node oldestVersion).1 = Internals node
  /\ temporary (Release node oldestVersion).1 = temporary node
  /\ nilHash (Release node oldestVersion).1 = nilHash node.
Proof. rewrite Release_unfold. by destruct node. Qed.

Lemma released_ledger (oldestVersion : Version) (c : TreeNode) :
  Versions (released oldestVersion c) = Versions c
  /\ Root (released oldestVersion c) = Root c.
Proof.
  unfold released, Root, root. destruct (cold oldestVersion c).
  - by destruct c.
  - destruct (Release_own_fields oldestVersion c) as (-> & _ & _ & ->). done.
Qed.

(** X24. [Release] leaves the node's own ledger, slots, root and
    [temporary] flag as they are and drops no child: a nil child stays
    nil, a child with a ledger whose latest version is below
    [oldestVersion] is archived (flagged temporary, its slots and children
    set to nil), every other child is released in turn.  Every child
    keeps its ledger and its root. *)
Theorem Release_archives_cold_children (node : TreeNode) (oldestVersion : Version) :
  Versions (Release node oldestVersion).1 = Versions node
  /\ Internals (Release node oldestVersion).1 = Internals node
  /\ Root (Release node oldestVersion).1 = Root node
  /\ temporary (Release node oldestVersion).1 = temporary node
  /\ (forall i, index (Children node) i = Some None ->
        index (Children (Release node oldestVersion).1) i = Some None)
  /\ (forall i c, index (Children node) i = Some (Some c) ->
        exists c',
          index (Children (Release node oldestVersion).1) i = Some (Some c')
          /\ Versions c' = Versions c /\ Root c' = Root c
          /\ (0 < len (Versions c) -> latestVersion c < oldestVersion ->
              c' = archive c /\ temporary c' = true
              /\ Forall (fun x => x = None) (Internals c')
              /\ Forall (fun x => x = None) (Children c'))
          /\ (~ (0 < len (Versions c) /\ latestVersion c < oldestVersion) ->
              c' = (Release c oldestVersion).1)).
Proof.
  destruct (Release_own_fields oldestVersion node) as (HV & HI & HT & HN).
  split; [exact HV|]. split; [exact HI|].
  split; [unfold Root, root; by rewrite HV, HN|]. split; [exact HT|].
  rewrite Release_children_eq. unfold index. split.
  - intros i. destruct (0 <=? i); [|done]. rewrite list_lookup_fmap.
    by intros ->.
  - intros i c. destruct (0 <=? i); [|done]. rewrite list_lookup_fmap.
    intros ->. exists (released oldestVersion c). split; [reflexivity|].
    destruct (released_ledger oldestVersion c) as [HVc HRc].
    split; [exact HVc|]. split; [exact HRc|]. unfold released, cold. split.
    + intros H1 H2.
      destruct (Z.ltb_spec 0 (len (Versions c))); [|lia].
      destruct (Z.ltb_spec (latestVersion c) oldestVersion); [|lia].
      cbn [andb]. split; [reflexivity|]. split; [reflexivity|].
      split; apply Forall_forall; intros x Hx;
        by apply elem_of_replicate in Hx as [-> _].
    + intros Hnot.
      destruct (Z.ltb_spec 0 (len (Versions c)));
        destruct (Z.ltb_spec (latestVersion c) oldestVersion);
        cbn [andb]; try reflexivity. lia.
Qed.

Lemma Release_archives_cold_children_witness :
  exists c',
    index (Children (Release node0_with_leaf 5).1) 3 = Some (Some c')
    /\ c' = archive (leafAt 3 x07 1)
    /\ Versions c' = Versions (leafAt 3 x07 1)
    /\ Root c' = Some [x07].
Proof.
  destruct (Release_archives_cold_children node0_with_leaf 5)
    as (_ & _ & _ & _ & _ & H).
  destruct (H 3 (leafAt 3 x07 1) eq_refl) as (c' & Hi & HV & HR & Hcold & _).
  destruct (Hcold eq_refl eq_refl) as (Hc & _).
  exists c'. split; [exact Hi|]. split; [exact Hc|]. split; [exact HV|].
  rewrite HR. reflexivity.
Defined.

Lemma uint64_range (z : Z) : 0 <= uint64 z < 2 ^ 64.
Proof. unfold uint64. apply Z.mod_pos_bound. lia. Qed.

Lemma uint64_add_r (a b : Z) : uint64 (a + uint64 b) = uint64 (a + b).
Proof. unfold uint64. by rewrite Zplus_mod_idemp_r. Qed.

Lemma uint64_add_l (a b : Z) : uint64 (uint64 a + b) = uint64 (a + b).
Proof. unfold uint64. by rewrite Zplus_mod_idemp_l. Qed.

Lemma Size_range (node : TreeNode) : 0 <= Size node < 2 ^ 64.
Proof. unfold Size. destruct (temporary node); apply uint64_range. Qed.

Lemma treeSize_unfold (node : TreeNode) :
  treeSize node = Size node + sum_children treeSize (Children node).
Proof. by destruct node. Qed.

Lemma sum_children_nil (f : TreeNode -> Z) (n : nat) :
  sum_children f (replicate n None) = 0.
Proof. induction n as [|n IH]; [reflexivity | exact IH]. Qed.

Lemma treeSize_archive (c : TreeNode) : treeSize (archive c) = Size (archive c).
Proof.
  rewrite treeSize_unfold. unfold archive at 2. cbn [Children].
  rewrite sum_children_nil. lia.
Qed.

Lemma archive_idem (c : TreeNode) : archive (archive c) = archive c.
Proof. unfold archive. cbn. by rewrite !length_replicate. Qed.

(** The loop over the children: the size stays a [uint64], it is the
    size at entry plus the sizes of the trees left under the children,
    and a second pass finds nothing to do. *)
Lemma Release_children_range (rel : TreeNode -> TreeNode * Z) (oldestVersion : Version)
    (cs : list (option TreeNode)) (size : Z) :
  0 <= size < 2 ^ 64 ->
  0 <= (Release_children rel oldestVersion cs size).2 < 2 ^ 64.
Proof.
  revert size. induction cs as [|[c|] cs IH]; intros size Hs; [exact Hs| |].
  - cbn [Release_children snd]. apply IH.
    destruct (_ && _); cbn [snd]; apply uint64_range.
  - cbn [Release_children snd]. by apply IH.
Qed.

Lemma Release_children_size (rel : TreeNode -> TreeNode * Z) (oldestVersion : Version)
    (cs : list (option TreeNode)) (size : Z) :
  (forall c, Some c ∈ cs -> (rel c).2 = uint64 (treeSize (rel c).1)) ->
  uint64 (Release_children rel oldestVersion cs size).2
  = uint64 (size
            + sum_children treeSize (Release_children rel oldestVersion cs size).1).
Proof.
  revert size. induction cs as [|[c|] cs IH]; intros size Hrel.
  - cbn. f_equal. lia.
  - cbn [Release_children fst snd sum_children].
    rewrite IH by (intros c' Hc'; apply Hrel; by apply list_elem_of_further).
    specialize (Hrel c (list_elem_of_here _ _)).
    destruct (_ && _); cbn [fst snd].
    + rewrite treeSize_archive, uint64_add_l. f_equal. lia.
    + set (rest := sum_children treeSize _). rewrite uint64_add_l, Hrel.
      replace (size + uint64 (treeSize (rel c).1) + rest)
        with (size + rest + uint64 (treeSize (rel c).1)) by lia.
      rewrite uint64_add_r. f_equal. lia.
  - cbn [Release_children fst snd sum_children].
    apply IH. intros c' Hc'. apply Hrel. by apply list_elem_of_further.
Qed.

Lemma cold_archive (oldestVersion : Version) (c : TreeNode) :
  cold oldestVersion (archive c) = cold oldestVersion c.
Proof. reflexivity. Qed.

Lemma cold_Release (oldestVersion v : Version) (c : TreeNode) :
  cold oldestVersion (Release c v).1 = cold oldestVersion c.
Proof.
  unfold cold, latestVersion.
  destruct (Release_own_fields v c) as (-> & _). reflexivity.
Qed.

Lemma Release_children_again (oldestVersion : Version)
    (cs : list (option TreeNode)) (size : Z) :
  (forall c, Some c ∈ cs ->
     Release (Release c oldestVersion).1 oldestVersion = Release c oldestVersion) ->
  Release_children (fun c => Release c oldestVersion) oldestVersion
    (Release_children (fun c => Release c oldestVersion) oldestVersion cs size).1 size
  = Release_children (fun c => Release c oldestVersion) oldestVersion cs size.
Proof.
  revert size. induction cs as [|[c|] cs IH]; intros size Hrel; [reflexivity| |].
  - specialize (IH (if cold oldestVersion c
                    then uint64 (size + Size (archive c))
                    else uint64 (size + (Release c oldestVersion).2))
                  (fun c' Hc' => Hrel c' (list_elem_of_further _ _ _ Hc'))).
    specialize (Hrel c (list_elem_of_here _ _)).
    cbn [Release_children fst snd]. fold (cold oldestVersion c).
    destruct (cold oldestVersion c) eqn:Ec; cbn [fst snd].
    + fold (cold oldestVersion (archive c)). rewrite cold_archive, Ec.
      cbn [fst snd]. rewrite archive_idem. cbn [fst snd] in IH. by rewrite IH.
    + fold (cold oldestVersion (Release c oldestVersion).1).
      rewrite cold_Release, Ec. cbn [fst snd]. rewrite Hrel.
      cbn [fst snd] in IH. by rewrite IH.
  - cbn [Release_children fst snd].
    rewrite IH by (intros c' Hc'; apply Hrel; by apply list_elem_of_further).
    reflexivity.
Qed.

(** X25. The number [Release] returns is the total [Size] of the tree it
    leaves, the node and everything still below it, as a [uint64]; and a
    second [Release] with the same [oldestVersion] changes nothing and
    returns the same number. *)
Theorem Release_returns_size_left (node : TreeNode) (oldestVersion : Version) :
  (Release node oldestVersion).2
  = uint64 (treeSize (Release node oldestVersion).1)
  /\ Release (Release node oldestVersion).1 oldestVersion
     = Release node oldestVersion.
Proof.
  induction node as [node IH] using TreeNode_children_ind. split.
  - rewrite treeSize_unfold, Release_unfold. cbn [fst snd Children set_Children].
    set (rc := Release_children _ _ _ _).
    assert (Size (set_Children node rc.1) = Size node) as -> by by destruct node.
    assert (uint64 rc.2 = rc.2) as <-.
    { apply Z.mod_small. apply Release_children_range, Size_range. }
    apply Release_children_size. intros c Hc. by apply IH.
  - rewrite (Release_unfold node). cbn [fst snd].
    set (rc := Release_children _ _ (Children node) _).
    rewrite Release_unfold. cbn [fst snd Children set_Children].
    assert (Size (set_Children node rc.1) = Size node) as -> by by destruct node.
    unfold rc. rewrite Release_children_again by (intros c Hc; by apply IH).
    by destruct node.
Qed.

Lemma Release_returns_size_left_witness :
  (Release node0_with_leaf 5).2 = 488
  /\ (Release node0_with_leaf 1).2 = 936
  /\ Release (Release node0_with_leaf 5).1 5 = Release node0_with_leaf 5.
Proof.
  destruct (Release_returns_size_left node0_with_leaf 5) as [Hsize Hagain].
  split; [rewrite Hsize; vm_compute; reflexivity|].
  split; [|exact Hagain].
  destruct (Release_returns_size_left node0_with_leaf 1) as [-> _].
  vm_compute. reflexivity.
Defined.

(** ** A fresh node against the table of empty-subtree hashes *)

(** X26. The slots [NewTreeNode] copies from the table agree with a full
    rebuild from the (nil) children exactly when the table is closed
    under the hasher on the three levels below the node: the entry for
    [depth+3] is the hash of two entries for [depth+4], and so on upwards.
    [Root()] of the fresh node is [Hash(Internals[0], Internals[1])]
    exactly when the entry for [depth] is the hash of two entries for
    [depth+1]. *)
Theorem NewTreeNode_matches_rebuild_iff (depth path : Z) (nh : nilHashes)
    (hs : Hasher) :
  (internals_match_children (NewTreeNode depth path nh hs) <->
   nilHashes_Get nh (uint8 (depth + 3))
   = Hasher_Hash hs (nilHashes_Get nh (uint8 (depth + 4)))
       (nilHashes_Get nh (uint8 (depth + 4)))
   /\ nilHashes_Get nh (uint8 (depth + 2))
      = Hasher_Hash hs (nilHashes_Get nh (uint8 (depth + 3)))
          (nilHashes_Get nh (uint8 (depth + 3)))
   /\ nilHashes_Get nh (uint8 (depth + 1))
      = Hasher_Hash hs (nilHashes_Get nh (uint8 (depth + 2)))
          (nilHashes_Get nh (uint8 (depth + 2))))
  /\ (topHash (NewTreeNode depth path nh hs)
      = Some (Root (NewTreeNode depth path nh hs)) <->
      nilHashes_Get nh depth
      = Hasher_Hash hs (nilHashes_Get nh (uint8 (depth + 1)))
          (nilHashes_Get nh (uint8 (depth + 1)))).
Proof.
  unfold internals_match_children, NewTreeNode.
  generalize (nilHashes_Get nh (uint8 (depth + 1))) as g1.
  generalize (nilHashes_Get nh (uint8 (depth + 2))) as g2.
  generalize (nilHashes_Get nh (uint8 (depth + 3))) as g3.
  generalize (nilHashes_Get nh (uint8 (depth + 4))) as g4.
  generalize (nilHashes_Get nh depth) as g0.
  intros g0 g4 g3 g2 g1. destruct hs as [H]. split.
  - vm_compute. split.
    + intros E. injection E as E1 _ E2 _ _ _ E3 _ _ _ _ _ _ _.
      subst g3 g2 g1. by repeat split.
    + intros (-> & -> & ->). reflexivity.
  - vm_compute. split; [by intros [= ->] | by intros ->].
Qed.

Lemma NewTreeNode_matches_rebuild_iff_witness :
  internals_match_children node0 /\ topHash node0 = Some (Root node0).
Proof.
  destruct (NewTreeNode_matches_rebuild_iff 0 0 foldedNilHashes concatHasher)
    as [[_ Hslots] [_ Hroot]].
  split; [apply Hslots | apply Hroot]; repeat split; reflexivity.
Defined.

(** ** The batch path against the sequential one *)

(** X27. Attaching a child with [SetChildrenOnly] and then running
    [computeInternal] on the three slots [leafInternalMap] lists for the
    nibble gives the node [SetChildren] gives for that child at the
    node's latest version: same children, same 14 slots, same ledger. *)
Theorem SetChildrenOnly_computeInternal_is_SetChildren (node n1 : TreeNode)
    (child : option TreeNode) (nibble : Z) (version : Version) :
  wf node -> 0 <= nibble < 16 ->
  SetChildrenOnly node child nibble version = Some n1 ->
  computeInternal n1 (Some (list_to_set (leafInternalMap nibble)))
  = SetChildren node child nibble (latestVersion node).
Proof.
  intros Hwf Hnib. explode node Hwf. apply below_16_cases in Hnib.
  each_of Hnib; intros H; vm_compute in H; injection H as <-;
    rewrite SetChildren_split; unfold computeInternal;
    match goal with
    | |- context [@merge_sort ?A ?R ?d ?e] =>
        let v := eval vm_compute in (@merge_sort A R d e) in
        change (@merge_sort A R d e) with v
    end;
    match goal with
    | |- (?a ≫= ?k) = (?b ≫= ?k') =>
        let va := eval vm_compute in a in
        let vb := eval vm_compute in b in
        change ((va ≫= k) = (vb ≫= k'))
    end;
    reflexivity.
Qed.

Lemma SetChildrenOnly_computeInternal_is_SetChildren_witness :
  exists n1,
    SetChildrenOnly node0 (Some (leafAt 3 x07 1)) 3 1 = Some n1
    /\ computeInternal n1 (Some {[ 0; 2; 7 ]})
       = SetChildren node0 (Some (leafAt 3 x07 1)) 3 0.
Proof.
  eexists. split; [reflexivity|].
  apply (SetChildrenOnly_computeInternal_is_SetChildren node0 _
           (Some (leafAt 3 x07 1)) 3 1).
  - split; reflexivity.
  - lia.
  - reflexivity.
Defined.
